(** * Signaling server of [server/routes.ts]

    A shallow embedding of the WebSocket part of [registerRoutes]: the
    [clients] map, [generateId], [getMonitors], [getCameras] and the two
    per-connection handlers, [ws.on("message")] and [ws.on("close")],
    followed by the event loop that feeds them and the properties of the
    registry, of routing and of the lifecycle notifications.

    Conventions of the model.
    - A [WebSocket] object is a handle of type [conn]; [ws.send(text)] appends
      to the list of messages sent and does not throw: a server-side socket
      is never in the CONNECTING state, and a send on a socket that is no
      longer open is dropped by the library.  The list records the calls.
    - A JavaScript value obtained from [JSON.parse] is a [json], an object
      being the list of its own properties in enumeration order; [undefined]
      is [None] in [jsval].  An inbound frame is given by what
      [JSON.parse(data.toString())] makes of it ([frame]).
    - An outbound message is the value [JSON.parse] would read back from the
      text [JSON.stringify] writes: properties whose value is [undefined] are
      left out, a number that is not finite is written as [null], negative
      zero as zero, and a value nested too deeply makes [JSON.stringify]
      throw a [RangeError].
    - A [console.log] line writes nothing the server reads back, but the
      template literal it prints is evaluated: a value that cannot be
      converted to a string makes the line throw.  [console.error] is
      recorded.
    - How deep a value may nest before the conversion to a string, or
      [JSON.stringify], exhausts the stack depends on the engine: the two
      depths are parameters ([runtime]).
    - [Date.now()] and [Math.random().toString(36)] are inputs of the
      handler that calls [generateId].
    - An exception that leaves the [close] listener is recorded
      ([uncaught]); what the process does with it is outside the model, and
      the event loop is taken to go on. *)

From Stdlib Require Import List String Ascii Bool Arith NArith Lia.
From Stdlib Require Import Floats.SpecFloat.
Import ListNotations.
Local Open Scope string_scope.

(** ** JavaScript values *)

Set Warnings "-register-all".

Inductive json : Type :=
| JNull
| JBool (b : bool)
| JNum (x : spec_float)
| JStr (s : string)
| JArr (items : list json)
| JObj (props : list (string * json)).

(** [None] is [undefined]. *)
Definition jsval : Type := option json.

Inductive exn : Type :=
| SyntaxError   (* thrown by JSON.parse *)
| TypeError     (* property read on null; value with no string conversion *)
| RangeError.   (* call stack exhausted by a deeply nested value *)

(** What [JSON.parse(data.toString())] does with a frame. *)
Inductive frame : Type :=
| Malformed
| Parsed (msg : json).

Fixpoint assoc {A : Type} (k : string) (l : list (string * A)) : option A :=
  match l with
  | [] => None
  | (k', v) :: l' => if String.eqb k' k then Some v else assoc k l'
  end.

(** [v.k] for the property names the handlers read ([type], [role], [name],
    [targetId], [offer], [answer], [candidate], [fromId], [cameraName]); none
    of them is inherited from a prototype, so only an object has them.
    Reading a property of [null] throws. *)
Definition get_prop (v : json) (k : string) : exn + jsval :=
  match v with
  | JNull => inl TypeError
  | JObj props => inr (assoc k props)
  | _ => inr None
  end.

(** Truthiness, as used by [||] and [if]. *)
Definition truthy (v : jsval) : bool :=
  match v with
  | None => false
  | Some JNull => false
  | Some (JBool b) => b
  | Some (JNum (S754_zero _)) => false
  | Some (JNum S754_nan) => false
  | Some (JNum _) => true
  | Some (JStr s) => negb (String.eqb s "")
  | Some (JArr _) => true
  | Some (JObj _) => true
  end.

(** [v || d] with [d] a value. *)
Definition js_or (v : jsval) (d : json) : json :=
  match v with
  | Some x => if truthy v then x else d
  | None => d
  end.

(** [v === "s"] *)
Definition is_str (v : jsval) (s : string) : bool :=
  match v with
  | Some (JStr s') => String.eqb s' s
  | _ => false
  end.

(** ** Conversion to a string

    What [`${v}`] throws, if it throws.  A primitive always has a string.
    An object is converted by its [toString]: the inherited one gives
    ["[object Object]"], but an own property of that name, which after
    [JSON.parse] is never a function, leaves no conversion and the
    template throws a [TypeError].  An array joins the strings of its
    elements, [null] giving the empty string, and so recurses into nested
    arrays; [depth] is the nesting the stack allows. *)

Fixpoint first_error {A : Type} (f : A -> option exn) (l : list A) : option exn :=
  match l with
  | [] => None
  | x :: l' =>
      match f x with
      | Some e => Some e
      | None => first_error f l'
      end
  end.

Fixpoint to_string_error (v : json) (depth : nat) : option exn :=
  match v with
  | JArr items =>
      match depth with
      | O => Some RangeError
      | S d =>
          first_error
            (fun x => match x with JNull => None | _ => to_string_error x d end)
            items
      end
  | JObj props =>
      match assoc "toString" props with
      | Some _ => Some TypeError
      | None => None
      end
  | _ => None
  end.

(** [undefined] prints as ["undefined"]. *)
Definition to_string_error_val (v : jsval) (depth : nat) : option exn :=
  match v with
  | Some x => to_string_error x depth
  | None => None
  end.

(** A template literal converts its substitutions from left to right. *)
Definition template_error (parts : list jsval) (depth : nat) : option exn :=
  first_error (fun v => to_string_error_val v depth) parts.

(** ** JSON.stringify

    [wire v depth] is the value the text written for [v] stands for. *)

Fixpoint mapM {A B : Type} (f : A -> exn + B) (l : list A) : exn + list B :=
  match l with
  | [] => inr []
  | x :: l' =>
      match f x with
      | inl e => inl e
      | inr y =>
          match mapM f l' with
          | inl e => inl e
          | inr ys => inr (y :: ys)
          end
      end
  end.

Definition wire_num (x : spec_float) : json :=
  match x with
  | S754_zero _ => JNum (S754_zero false)
  | S754_finite _ _ _ => JNum x
  | S754_infinity _ => JNull
  | S754_nan => JNull
  end.

Fixpoint wire (v : json) (depth : nat) : exn + json :=
  match v with
  | JNum x => inr (wire_num x)
  | JArr items =>
      match depth with
      | O => inl RangeError
      | S d =>
          match mapM (fun x => wire x d) items with
          | inl e => inl e
          | inr ys => inr (JArr ys)
          end
      end
  | JObj props =>
      match depth with
      | O => inl RangeError
      | S d =>
          match mapM (fun p => match wire (snd p) d with
                               | inl e => inl e
                               | inr y => inr (fst p, y)
                               end) props with
          | inl e => inl e
          | inr ys => inr (JObj ys)
          end
      end
  | _ => inr v
  end.

(** The properties of an object literal, one after the other; a property
    whose value is [undefined] is not written. *)
Fixpoint wire_fields (fields : list (string * jsval)) (depth : nat)
  : exn + list (string * json) :=
  match fields with
  | [] => inr []
  | (k, Some v) :: rest =>
      match wire v depth with
      | inl e => inl e
      | inr w =>
          match wire_fields rest depth with
          | inl e => inl e
          | inr ws => inr ((k, w) :: ws)
          end
      end
  | (_, None) :: rest => wire_fields rest depth
  end.

(** [JSON.stringify({k1: v1, ...})] *)
Definition stringify (fields : list (string * jsval)) (depth : nat) : exn + json :=
  match wire_fields fields depth with
  | inl e => inl e
  | inr ws => inr (JObj ws)
  end.

(** The values [JSON.stringify] writes back as they are. *)
Fixpoint plain (v : json) (depth : nat) : bool :=
  match v with
  | JNum (S754_finite _ _ _) => true
  | JNum (S754_zero s) => negb s
  | JNum _ => false
  | JArr items =>
      match depth with
      | O => false
      | S d => forallb (fun x => plain x d) items
      end
  | JObj props =>
      match depth with
      | O => false
      | S d => forallb (fun p => plain (snd p) d) props
      end
  | _ => true
  end.

(** Induction on a value and the values nested in it. *)
Section JsonInd.
Variable P : json -> Prop.
Hypothesis HNull : P JNull.
Hypothesis HBool : forall b, P (JBool b).
Hypothesis HNum : forall x, P (JNum x).
Hypothesis HStr : forall s, P (JStr s).
Hypothesis HArr : forall items, Forall P items -> P (JArr items).
Hypothesis HObj : forall props, Forall (fun p => P (snd p)) props -> P (JObj props).

Fixpoint json_nested_ind (v : json) : P v :=
  match v with
  | JNull => HNull
  | JBool b => HBool b
  | JNum x => HNum x
  | JStr s => HStr s
  | JArr items =>
      HArr items
        ((fix go (l : list json) : Forall P l :=
            match l with
            | [] => Forall_nil P
            | x :: l' => Forall_cons x (json_nested_ind x) (go l')
            end) items)
  | JObj props =>
      HObj props
        ((fix go (l : list (string * json)) : Forall (fun p => P (snd p)) l :=
            match l with
            | [] => Forall_nil _
            | p :: l' => Forall_cons p (json_nested_ind (snd p)) (go l')
            end) props)
  end.
End JsonInd.

(** The engine's limits: the nesting of arrays a template literal can
    print, and the nesting of values [JSON.stringify] can write below the
    object literal it is handed. *)
Record runtime : Type := mkRuntime {
  join_depth : nat;
  stringify_depth : nat
}.

(** ** The registry: [Map<string, Client>] *)

Definition conn : Type := nat.

Record Client : Type := mkClient {
  id : string;
  role : jsval;        (* declared "camera" | "monitor", not checked at run time *)
  name : json;
  ws : conn
}.

(** A JavaScript [Map] keeps its entries in insertion order; [set] on a key
    already present replaces the value where it stands. *)
Definition registry : Type := list (string * Client).

Fixpoint map_set (k : string) (v : Client) (m : registry) : registry :=
  match m with
  | [] => [(k, v)]
  | (k', v') :: m' =>
      if String.eqb k' k then (k, v) :: m' else (k', v') :: map_set k v m'
  end.

Definition map_get (k : string) (m : registry) : option Client := assoc k m.

Definition map_delete (k : string) (m : registry) : registry :=
  filter (fun e => negb (String.eqb (fst e) k)) m.

Definition map_values (m : registry) : list Client := List.map snd m.

Definition map_keys (m : registry) : list string := List.map fst m.

(** [clients.get(v)] for an arbitrary value: keys are strings, so only a
    string can be found. *)
Definition map_get_val (v : jsval) (m : registry) : option Client :=
  match v with
  | Some (JStr k) => map_get k m
  | _ => None
  end.

(** ** generateId *)

Definition digit36 (d : N) : ascii :=
  if (d <? 10)%N then ascii_of_N (48 + d) else ascii_of_N (87 + d).

Fixpoint toString36_aux (fuel : nat) (n : N) (acc : string) : string :=
  match fuel with
  | O => acc
  | S fuel' =>
      let acc' := String (digit36 (n mod 36)) acc in
      if (n / 36 =? 0)%N then acc' else toString36_aux fuel' (n / 36) acc'
  end.

(** [n.toString(36)] for a non-negative integer. *)
Definition toString36 (n : N) : string :=
  toString36_aux (S (N.to_nat (N.log2 n))) n "".

(** [s.substr(start, len)] *)
Definition substr (start len : nat) (s : string) : string :=
  String.substring start len s.

(** [Date.now().toString(36) + Math.random().toString(36).substr(2, 9)];
    [now] is [Date.now()], [rnd] is [Math.random().toString(36)]. *)
Definition generateId (now : N) (rnd : string) : string :=
  toString36 now ++ substr 2 9 rnd.

(** ** The handler monad

    A handler is a closure over its socket [ws] and the variable [clientId];
    it reads and writes the shared [clients] map, sends messages, and may
    throw.  State written before a throw stays written. *)

Record hstate : Type := mkH {
  clientId : option string;          (* [let clientId: string | null] *)
  clients : registry;
  sent : list (conn * json);         (* calls of [send], oldest first *)
  logged : list exn                  (* calls of [console.error] *)
}.

Definition M (A : Type) : Type := hstate -> (exn + A) * hstate.

Definition ret {A : Type} (a : A) : M A := fun s => (inr a, s).

Definition bind {A B : Type} (m : M A) (f : A -> M B) : M B :=
  fun s =>
    match m s with
    | (inr a, s') => f a s'
    | (inl e, s') => (inl e, s')
    end.

Definition throw {A : Type} (e : exn) : M A := fun s => (inl e, s).

Definition try_catch (body : M unit) (handler : exn -> M unit) : M unit :=
  fun s =>
    match body s with
    | (inl e, s') => handler e s'
    | r => r
    end.

Declare Scope handler_scope.
Delimit Scope handler_scope with handler.
Notation "x <- m ;; k" := (bind m (fun x => k))
  (at level 61, m at next level, right associativity) : handler_scope.
Notation "m ;; k" := (bind m (fun _ => k))
  (at level 61, right associativity) : handler_scope.
Local Open Scope handler_scope.

Definition lift {A : Type} (r : exn + A) : M A :=
  match r with
  | inl e => throw e
  | inr a => ret a
  end.

Definition JSON_parse (data : frame) : M json :=
  match data with
  | Malformed => throw SyntaxError
  | Parsed msg => ret msg
  end.

Definition prop (v : json) (k : string) : M jsval := lift (get_prop v k).

Definition read_clientId : M (option string) := fun s => (inr (clientId s), s).

Definition write_clientId (v : option string) : M unit :=
  fun s => (inr tt, mkH v (clients s) (sent s) (logged s)).

Definition clients_set (k : string) (v : Client) : M unit :=
  fun s => (inr tt, mkH (clientId s) (map_set k v (clients s)) (sent s) (logged s)).

Definition clients_get (k : jsval) : M (option Client) :=
  fun s => (inr (map_get_val k (clients s)), s).

Definition clients_delete (k : string) : M unit :=
  fun s => (inr tt, mkH (clientId s) (map_delete k (clients s)) (sent s) (logged s)).

Definition send (to : conn) (text : json) : M unit :=
  fun s => (inr tt, mkH (clientId s) (clients s) (sent s ++ [(to, text)]) (logged s)).

Definition console_error (e : exn) : M unit :=
  fun s => (inr tt, mkH (clientId s) (clients s) (sent s) (logged s ++ [e])).

(** A number as a JavaScript number; used for [array.length]. *)
Definition num_of_nat (n : nat) : spec_float :=
  match n with
  | O => S754_zero false
  | S _ => S754_finite false (Pos.of_nat n) Z0
  end.

Definition is_some {A : Type} (o : option A) : bool :=
  match o with
  | Some _ => true
  | None => false
  end.

Fixpoint forEach {A : Type} (l : list A) (f : A -> M unit) : M unit :=
  match l with
  | [] => ret tt
  | x :: l' => f x ;; forEach l' f
  end.

(** A [string | null] variable used as a property value. *)
Definition js_of_id (v : option string) : jsval :=
  match v with
  | Some s => Some (JStr s)
  | None => Some JNull
  end.

Definition has_role (r : string) (c : Client) : bool := is_str (role c) r.

Definition monitors_of (m : registry) : list Client :=
  filter (has_role "monitor") (map_values m).

Definition cameras_of (m : registry) : list Client :=
  filter (has_role "camera") (map_values m).

Definition getMonitors : M (list Client) := fun s => (inr (monitors_of (clients s)), s).

Definition getCameras : M (list Client) := fun s => (inr (cameras_of (clients s)), s).

Section Server.

(** The engine the server runs on. *)
Variable rt : runtime.

(** [console.log(`...`)] with the given substitutions. *)
Definition console_log (parts : list jsval) : M unit :=
  match template_error parts (join_depth rt) with
  | Some e => throw e
  | None => ret tt
  end.

Definition JSON_stringify (fields : list (string * jsval)) : M json :=
  lift (stringify fields (stringify_depth rt)).

(** ** ws.on("message")

    [sock] is the [ws] of the enclosing [wss.on("connection")] callback. *)

Definition case_register (sock : conn) (now : N) (rnd : string) (msg : json) : M unit :=
  let newId := generateId now rnd in
  write_clientId (Some newId) ;;
  r <- prop msg "role" ;;
  n <- prop msg "name" ;;
  clients_set newId (mkClient newId r (js_or n (JStr "Unknown")) sock) ;;
  text <- JSON_stringify [("type", Some (JStr "registered")); ("id", Some (JStr newId))] ;;
  send sock text ;;
  console_log [r; Some (JStr newId); Some (js_or n (JStr "N/A"))] ;;
  (if is_str r "monitor"
   then cameras <- getCameras ;;
        console_log [Some (JStr newId); Some (JNum (num_of_nat (List.length cameras)))] ;;
        forEach cameras (fun cam =>
          cid <- read_clientId ;;
          text <- JSON_stringify [("type", Some (JStr "request-offer"));
                                  ("monitorId", js_of_id cid)] ;;
          send (ws cam) text ;;
          console_log [Some (JStr (id cam)); js_of_id cid])
   else ret tt) ;;
  (if is_str r "camera"
   then monitors <- getMonitors ;;
        console_log [Some (JStr newId); Some (JNum (num_of_nat (List.length monitors)))] ;;
        forEach monitors (fun monitor =>
          text <- JSON_stringify [("type", Some (JStr "request-offer"));
                                  ("monitorId", Some (JStr (id monitor)))] ;;
          send sock text ;;
          cid <- read_clientId ;;
          console_log [js_of_id cid; Some (JStr (id monitor))])
   else ret tt).

Definition case_offer (msg : json) : M unit :=
  tid <- prop msg "targetId" ;;
  target <- clients_get tid ;;
  f <- prop msg "fromId" ;;
  console_log [f; tid; Some (JBool (is_some target))] ;;
  match target with
  | Some target =>
      o <- prop msg "offer" ;;
      f <- prop msg "fromId" ;;
      c <- prop msg "cameraName" ;;
      text <- JSON_stringify [("type", Some (JStr "offer")); ("offer", o); ("fromId", f);
                              ("cameraName", c)] ;;
      send (ws target) text
  | None => ret tt
  end.

Definition case_answer (msg : json) : M unit :=
  tid <- prop msg "targetId" ;;
  target <- clients_get tid ;;
  f <- prop msg "fromId" ;;
  console_log [f; tid; Some (JBool (is_some target))] ;;
  match target with
  | Some target =>
      a <- prop msg "answer" ;;
      f <- prop msg "fromId" ;;
      text <- JSON_stringify [("type", Some (JStr "answer")); ("answer", a); ("fromId", f)] ;;
      send (ws target) text
  | None => ret tt
  end.

Definition case_ice_candidate (msg : json) : M unit :=
  tid <- prop msg "targetId" ;;
  target <- clients_get tid ;;
  match target with
  | Some target =>
      c <- prop msg "candidate" ;;
      f <- prop msg "fromId" ;;
      text <- JSON_stringify [("type", Some (JStr "ice-candidate")); ("candidate", c);
                              ("fromId", f)] ;;
      send (ws target) text
  | None => ret tt
  end.

(** [switch (msg.type)]: the cases compare with [===]; no default case. *)
Definition dispatch (sock : conn) (now : N) (rnd : string) (msg : json) : M unit :=
  t <- prop msg "type" ;;
  if is_str t "register" then case_register sock now rnd msg
  else if is_str t "offer" then case_offer msg
  else if is_str t "answer" then case_answer msg
  else if is_str t "ice-candidate" then case_ice_candidate msg
  else ret tt.

Definition on_message (sock : conn) (now : N) (rnd : string) (data : frame) : M unit :=
  try_catch
    (msg <- JSON_parse data ;; dispatch sock now rnd msg)
    (fun err => console_error err).

(** ** ws.on("close") *)

Definition on_close : M unit :=
  cid <- read_clientId ;;
  match cid with
  | Some k =>
      if truthy (Some (JStr k)) then
        client <- clients_get (Some (JStr k)) ;;
        match client with
        | Some client =>
            console_log [role client; js_of_id cid] ;;
            (if is_str (role client) "camera"
             then monitors <- getMonitors ;;
                  forEach monitors (fun monitor =>
                    c <- read_clientId ;;
                    text <- JSON_stringify [("type", Some (JStr "camera-disconnected"));
                                            ("cameraId", js_of_id c)] ;;
                    send (ws monitor) text)
             else ret tt) ;;
            (if is_str (role client) "monitor"
             then cameras <- getCameras ;;
                  forEach cameras (fun cam =>
                    c <- read_clientId ;;
                    text <- JSON_stringify [("type", Some (JStr "monitor-disconnected"));
                                            ("monitorId", js_of_id c)] ;;
                    send (ws cam) text)
             else ret tt) ;;
            clients_delete k
        | None => ret tt
        end
      else ret tt
  | None => ret tt
  end.

(** ** The event loop

    Handlers run to completion, one event at a time.  A socket is unknown
    until [wss] emits [connection] for it, then open, with its own
    [clientId] variable, until its [close] event; a closed socket gets no
    further event.  The message listener catches what its body throws; the
    close listener does not, and what it throws leaves it. *)

Inductive status : Type :=
| Open (cid : option string)
| Closed.

Record server : Type := mkServer {
  registry_of : registry;               (* [clients] *)
  sockets : conn -> option status;
  outbox : list (conn * json);          (* every message sent so far *)
  stderr : list exn;                    (* what [console.error] was given *)
  uncaught : list exn                   (* exceptions that left a listener *)
}.

Inductive event : Type :=
| Connect (c : conn)
| Message (c : conn) (data : frame) (now : N) (rnd : string)
| Close (c : conn).

Definition upd (f : conn -> option status) (c : conn) (v : status) : conn -> option status :=
  fun c' => if Nat.eqb c' c then Some v else f c'.

Definition init : server := mkServer [] (fun _ => None) [] [] [].

(** Run a handler of socket [c] whose [clientId] is [cid]. *)
Definition run_handler (h : M unit) (cid : option string) (st : server) : hstate :=
  snd (h (mkH cid (registry_of st) [] [])).

(** What the handler throws, if it throws. *)
Definition escaped (h : M unit) (cid : option string) (st : server) : list exn :=
  match fst (h (mkH cid (registry_of st) [] [])) with
  | inl e => [e]
  | inr _ => []
  end.

Definition step (st : server) (ev : event) : option server :=
  match ev with
  | Connect c =>
      match sockets st c with
      | None => Some (mkServer (registry_of st) (upd (sockets st) c (Open None))
                        (outbox st) (stderr st) (uncaught st))
      | Some _ => None
      end
  | Message c data now rnd =>
      match sockets st c with
      | Some (Open cid) =>
          let h := run_handler (on_message c now rnd data) cid st in
          Some (mkServer (clients h) (upd (sockets st) c (Open (clientId h)))
                  (outbox st ++ sent h) (stderr st ++ logged h)
                  (uncaught st ++ escaped (on_message c now rnd data) cid st))
      | _ => None
      end
  | Close c =>
      match sockets st c with
      | Some (Open cid) =>
          let h := run_handler on_close cid st in
          Some (mkServer (clients h) (upd (sockets st) c Closed)
                  (outbox st ++ sent h) (stderr st ++ logged h)
                  (uncaught st ++ escaped on_close cid st))
      | _ => None
      end
  end.

(** The states the server reaches, with the events that led there, latest
    first; [ok] restricts the events considered. *)
Inductive reaches (ok : server -> event -> Prop) : list event -> server -> Prop :=
| reaches_init : reaches ok [] init
| reaches_step : forall tr st ev st',
    reaches ok tr st -> ok st ev -> step st ev = Some st' ->
    reaches ok (ev :: tr) st'.

Definition reachable : list event -> server -> Prop := reaches (fun _ _ => True).

(** The value the [switch] of the message handler looks at, or the error
    thrown before it gets there. *)
Definition discriminant (data : frame) : exn + jsval :=
  match data with
  | Malformed => inl SyntaxError
  | Parsed msg => get_prop msg "type"
  end.

(** Whether a frame is handled by the [register] case. *)
Definition is_register (data : frame) : bool :=
  match discriminant data with
  | inr t => is_str t "register"
  | inl _ => false
  end.

(** Whether some case of the [switch] takes the frame. *)
Definition known_type (t : jsval) : bool :=
  is_str t "register" || is_str t "offer" || is_str t "answer" || is_str t "ice-candidate".

Definition handled (data : frame) : bool :=
  match discriminant data with
  | inr t => known_type t
  | inl _ => false
  end.

(** The three routed message types and the property each one carries. *)
Inductive kind : Type := Offer | Answer | IceCandidate.

Definition kind_type (k : kind) : string :=
  match k with
  | Offer => "offer"
  | Answer => "answer"
  | IceCandidate => "ice-candidate"
  end.

Definition payload_key (k : kind) : string :=
  match k with
  | Offer => "offer"
  | Answer => "answer"
  | IceCandidate => "candidate"
  end.

Definition is_kind (k : kind) (msg : json) : Prop :=
  get_prop msg "type" = inr (Some (JStr (kind_type k))).

(** The event does not generate an id that is already a key of [clients]. *)
Definition fresh_id (st : server) (ev : event) : Prop :=
  match ev with
  | Message c data now rnd =>
      is_register data = true -> map_get (generateId now rnd) (registry_of st) = None
  | _ => True
  end.

Definition reachable_fresh : list event -> server -> Prop := reaches fresh_id.

(** Running a list of events, oldest first. *)
Fixpoint run (st : server) (evs : list event) : option server :=
  match evs with
  | [] => Some st
  | ev :: evs' =>
      match step st ev with
      | Some st' => run st' evs'
      | None => None
      end
  end.

(** ** Auxiliary definitions for the statements *)

Definition only_sends {A : Type} (f : A -> M unit) (g : option string -> A -> conn * json) : Prop :=
  forall x s,
    f x s = (inr tt, mkH (clientId s) (clients s) (sent s ++ [g (clientId s) x]) (logged s)).

(** Reading a base-36 numeral back, most significant digit first. *)
Definition val36 (c : ascii) : N :=
  let n := N_of_ascii c in
  if (n <? 58)%N then (n - 48)%N else (n - 87)%N.

Fixpoint value36 (a : N) (s : string) : N :=
  match s with
  | EmptyString => a
  | String c s' => value36 (a * 36 + val36 c) s'
  end.

(** Clock readings with eight base-36 digits: from 36^7 ms (June 1972) up to
    36^8 ms (May 2059). *)
Definition eight_digits (now : N) : Prop :=
  (78364164096 <= now < 2821109907456)%N.

Ltac run_handler_steps :=
  repeat progress
    (unfold try_catch, bind, ret, throw, lift, prop, JSON_parse, read_clientId,
       write_clientId, clients_set, clients_get, clients_delete, send,
       console_error, console_log, JSON_stringify, getCameras, getMonitors;
     cbv beta iota zeta;
     cbn [clientId clients sent logged get_prop app fst snd
          stringify wire_fields wire]).

(** A message of two properties, [type] and one more, both strings:
    [{"type": t, key: v}]. *)
Definition tagged (t key v : string) : json :=
  JObj [("type", JStr t); (key, JStr v)].

(** The entries of the registry whose role is the string [r], in the order
    of the registry. *)
Definition with_role (r : string) (reg : registry) : list Client :=
  filter (fun cl => match role cl with
                    | Some (JStr s) => String.eqb s r
                    | _ => false
                    end) (List.map snd reg).

(** A value a template literal can print. *)
Definition printable (v : jsval) : Prop :=
  to_string_error_val v (join_depth rt) = None.

Definition printableb (v : jsval) : bool :=
  match to_string_error_val v (join_depth rt) with
  | None => true
  | Some _ => false
  end.

(** What the [console.log] line of the [register] case throws, if it
    throws. *)
Definition register_log (props : list (string * json)) (newId : string) : option exn :=
  template_error [assoc "role" props; Some (JStr newId);
                  Some (js_or (assoc "name" props) (JStr "N/A"))] (join_depth rt).

(** The request-offers of the [register] case, given the registry after
    [clients.set]. *)
Definition register_fanout (sock : conn) (newId : string) (r : jsval) (cl : registry)
  : list (conn * json) :=
  ((if is_str r "monitor"
    then List.map (fun cam => (ws cam, tagged "request-offer" "monitorId" newId))
           (with_role "camera" cl)
    else [])
   ++ (if is_str r "camera"
       then List.map (fun monitor => (sock, tagged "request-offer" "monitorId" (id monitor)))
              (with_role "monitor" cl)
       else []))%list.

(** The sends of the [register] case: the reply, and the request-offers
    when the log line after the reply does not throw. *)
Definition register_sends (sock : conn) (newId : string) (props : list (string * json))
    (cl : registry) : list (conn * json) :=
  (sock, tagged "registered" "id" newId)
  :: match register_log props newId with
     | None => register_fanout sock newId (assoc "role" props) cl
     | Some _ => []
     end.

Definition register_errors (props : list (string * json)) (newId : string) : list exn :=
  match register_log props newId with
  | None => []
  | Some e => [e]
  end.

Definition new_client (sock : conn) (now : N) (rnd : string) (props : list (string * json))
  : Client :=
  mkClient (generateId now rnd) (assoc "role" props)
           (js_or (assoc "name" props) (JStr "Unknown")) sock.

(** The properties a routed frame of each kind carries over, after [type]. *)
Definition forwarded_keys (k : kind) : list string :=
  match k with
  | Offer => ["offer"; "fromId"; "cameraName"]
  | Answer => ["answer"; "fromId"]
  | IceCandidate => ["candidate"; "fromId"]
  end.

(** The message a routed frame is forwarded as, if it can be written. *)
Definition forwarded (k : kind) (props : list (string * json)) : exn + json :=
  stringify (("type", Some (JStr (kind_type k)))
             :: List.map (fun key => (key, assoc key props)) (forwarded_keys k))
            (stringify_depth rt).

(** What the [console.log] line of a routed case throws, if it throws; the
    [ice-candidate] case has no such line. *)
Definition route_log (k : kind) (props : list (string * json)) : option exn :=
  match k with
  | IceCandidate => None
  | _ => template_error [assoc "fromId" props; assoc "targetId" props] (join_depth rt)
  end.

(** A routed message that the server can print and write back as it is:
    its [fromId] can be printed, which the offer and answer cases do before
    they send, and the properties it carries over are plain. *)
Definition forwardable (k : kind) (msg : json) : Prop :=
  (k <> IceCandidate -> forall f, get_prop msg "fromId" = inr f -> printable f) /\
  (forall p v, In p (forwarded_keys k) -> get_prop msg p = inr (Some v) ->
     plain v (stringify_depth rt) = true).

(** What a routed frame sends and what it makes [console.error] print. *)
Definition route_sends (k : kind) (props : list (string * json)) (cl : registry)
  : list (conn * json) :=
  match route_log k props, map_get_val (assoc "targetId" props) cl, forwarded k props with
  | None, Some target, inr text => [(ws target, text)]
  | _, _, _ => []
  end.

Definition route_errors (k : kind) (props : list (string * json)) (cl : registry)
  : list exn :=
  match route_log k props with
  | Some e => [e]
  | None =>
      match map_get_val (assoc "targetId" props) cl, forwarded k props with
      | Some _, inl e => [e]
      | _, _ => []
      end
  end.

(** The two roles the close handler notifies about. *)
Inductive Role : Type := Camera | Monitor.

Definition role_name (r : Role) : string :=
  match r with
  | Camera => "camera"
  | Monitor => "monitor"
  end.


(** The notification: [{"type": "camera-disconnected", "cameraId": k}] for
    a camera, [{"type": "monitor-disconnected", "monitorId": k}] for a
    monitor. *)
Definition notice (r : Role) (k : string) : json :=
  tagged (role_name r ++ "-disconnected") (role_name r ++ "Id") k.

(** The notifications of the close handler for a client of role [r] whose
    id is [k]. *)
Definition close_sends (k : string) (r : jsval) (cl : registry) : list (conn * json) :=
  ((if is_str r "camera"
    then List.map (fun monitor => (ws monitor, notice Camera k)) (with_role "monitor" cl)
    else [])
   ++ (if is_str r "monitor"
       then List.map (fun cam => (ws cam, notice Monitor k)) (with_role "camera" cl)
       else []))%list.

Definition same_sockets (st st' : server) : Prop :=
  forall c, sockets st' c = sockets st c.

(** ** What a trace records *)

(** The id an event assigns to socket [c], if it is a [register] on [c]. *)
Definition assigned (c : conn) (ev : event) : list string :=
  match ev with
  | Message c' data now rnd =>
      if Nat.eqb c' c && is_register data then [generateId now rnd] else []
  | _ => []
  end.

(** The ids socket [c] was sent in [registered] replies, latest first. *)
Definition ids_of (tr : list event) (c : conn) : list string :=
  flat_map (assigned c) tr.

(** ** The request-offer fan-out of a registration *)

Definition msg_type (m : json) : jsval :=
  match get_prop m "type" with
  | inr t => t
  | inl _ => None
  end.

Definition is_request_offer (m : conn * json) : bool :=
  is_str (msg_type (snd m)) "request-offer".

Definition request_offers (out : list (conn * json)) : list (conn * json) :=
  filter is_request_offer out.

(** The messages of [out] sent to socket [to]. *)
Definition received (to : conn) (out : list (conn * json)) : list (conn * json) :=
  filter (fun m => Nat.eqb (fst m) to) out.

(** ** Scenarios *)

Definition register_frame (r : string) : frame :=
  Parsed (JObj [("type", JStr "register"); ("role", JStr r)]).

(** An engine whose stack allows a thousand levels of nesting. *)
Definition rt0 : runtime := mkRuntime 1000 1000.

(** A clock reading of November 2023 and two outputs of
    [Math.random().toString(36)]. *)
Definition noon : N := 1700000000000.
Definition rnd1 : string := "0.4fzyo82mvyr".
Definition rnd2 : string := "0.k2j8x0q1wcb".

(** ** Ids in use *)

(** The (millisecond, random suffix) pairs read by the [register] messages
    of a trace. *)
Definition stamp (ev : event) : list (N * string) :=
  match ev with
  | Message _ data now rnd => if is_register data then [(now, substr 2 9 rnd)] else []
  | _ => []
  end.

Definition stamps (tr : list event) : list (N * string) := flat_map stamp tr.

(** Every [register] finds its new id absent from the registry. *)
Definition ids_never_collide : Prop :=
  forall tr st c cid data now rnd,
    reachable tr st ->
    sockets st c = Some (Open cid) ->
    is_register data = true ->
    map_get (generateId now rnd) (registry_of st) = None.

Definition is_open (st : server) (c : conn) : Prop :=
  exists cid, sockets st c = Some (Open cid).

(** The registry holds exactly the ids that were assigned to a socket that
    is still open. *)
Definition registry_tracks_open_sockets (tr : list event) (st : server) : Prop :=
  forall k,
    In k (map_keys (registry_of st)) <-> exists c, In k (ids_of tr c) /\ is_open st c.

(** The ids of a socket that the close handler has not removed: all of them
    while the socket is open, all but the latest once it has closed. *)
Definition live_of (s : option status) (ids : list string) : list string :=
  match s with
  | Some (Open _) => ids
  | Some Closed => tl ids
  | None => []
  end.

Definition live (tr : list event) (st : server) (c : conn) : list string :=
  live_of (sockets st c) (ids_of tr c).

Definition live_ids_inv (tr : list event) (st : server) : Prop :=
  (forall k, In k (map_keys (registry_of st)) <-> exists c, In k (live tr st c)) /\
  (forall c, NoDup (ids_of tr c)) /\
  (forall c c' k, In k (live tr st c) -> In k (live tr st c') -> c = c') /\
  (forall k client, map_get k (registry_of st) = Some client ->
     In k (live tr st (ws client))) /\
  (forall k client, map_get k (registry_of st) = Some client ->
     printable (role client)).

(** The role a [register] message carries. *)
Definition role_of (data : frame) : jsval :=
  match data with
  | Parsed (JObj props) => assoc "role" props
  | _ => None
  end.

(** The event does not generate an id that is already a key of [clients],
    and the role it registers, if it registers one, can be printed. *)
Definition clean (st : server) (ev : event) : Prop :=
  fresh_id st ev /\
  match ev with
  | Message _ data _ _ => is_register data = true -> printable (role_of data)
  | _ => True
  end.

Definition reachable_clean : list event -> server -> Prop := reaches clean.

(** [fresh_id], decided along a run. *)
Definition fresh_idb (st : server) (ev : event) : bool :=
  match ev with
  | Message _ data now rnd =>
      negb (is_register data) ||
      match map_get (generateId now rnd) (registry_of st) with
      | None => true
      | Some _ => false
      end
  | _ => true
  end.

Fixpoint fresh_run (st : server) (evs : list event) : bool :=
  match evs with
  | [] => true
  | ev :: evs' =>
      fresh_idb st ev &&
      match step st ev with
      | Some st' => fresh_run st' evs'
      | None => false
      end
  end.

(** [clean], decided along a run. *)
Definition cleanb (st : server) (ev : event) : bool :=
  fresh_idb st ev &&
  match ev with
  | Message _ data _ _ => negb (is_register data) || printableb (role_of data)
  | _ => true
  end.

Fixpoint clean_run (st : server) (evs : list event) : bool :=
  match evs with
  | [] => true
  | ev :: evs' =>
      cleanb st ev &&
      match step st ev with
      | Some st' => clean_run st' evs'
      | None => false
      end
  end.

(** The state a list of events leads to from [init] ([init] if some event
    of the list cannot occur). *)
Definition after (evs : list event) : server :=
  match run init evs with
  | Some st => st
  | None => init
  end.

Definition two_peers : list event :=
  [Connect 1; Message 1 (register_frame "monitor") noon rnd1;
   Connect 2; Message 2 (register_frame "camera") (noon + 1) rnd2].

Definition one_camera : list event :=
  [Connect 1; Message 1 (register_frame "camera") noon rnd1; Connect 2].

Definition one_monitor : list event :=
  [Connect 1; Message 1 (register_frame "monitor") noon rnd1; Connect 2].

Definition offer_to (target : string) : json :=
  JObj [("type", JStr "offer"); ("targetId", JStr target);
        ("offer", JObj [("type", JStr "offer"); ("sdp", JStr "v=0")]);
        ("fromId", JStr "cam"); ("cameraName", JStr "Porch")].

Definition monitor1 : Client :=
  mkClient (generateId noon rnd1) (Some (JStr "monitor")) (JStr "Unknown") 1.

Definition camera2 : Client :=
  mkClient (generateId (noon + 1) rnd2) (Some (JStr "camera")) (JStr "Unknown") 2.

(** A value that no template literal can print: an object with an own
    property [toString] that is not a function, as [JSON.parse] gives for
    [{"toString": null}]. *)
Definition unprintable : json := JObj [("toString", JNull)].

(** [v] wrapped in [n] arrays. *)
Fixpoint nest (n : nat) (v : json) : json :=
  match n with
  | O => v
  | S n' => JArr [nest n' v]
  end.

(** A [register] message with the given role and name. *)
Definition register_named (r n : json) : frame :=
  Parsed (JObj [("type", JStr "register"); ("role", r); ("name", n)]).

(** An offer to [target] with the given payload and [fromId]. *)
Definition offer_from (target : string) (payload from : json) : json :=
  JObj [("type", JStr "offer"); ("targetId", JStr target); ("offer", payload);
        ("fromId", from)].

(** A socket that registers as camera twice, and a socket that registers
    as monitor and then as camera; a second socket connects. *)
Definition two_cameras_one_socket : list event :=
  [Connect 1; Message 1 (register_frame "camera") noon rnd1;
   Message 1 (register_frame "camera") (noon + 1) rnd2; Connect 2].

Definition monitor_then_camera : list event :=
  [Connect 1; Message 1 (register_frame "monitor") noon rnd1;
   Message 1 (register_frame "camera") (noon + 1) rnd2; Connect 2].

(** A socket that registers with a role that cannot be printed. *)
Definition odd_registration : list event :=
  [Connect 1; Message 1 (register_named unprintable (JStr "hall")) noon rnd1].

Definition camera_registers_twice : list event :=
  (two_peers ++ [Message 2 (register_frame "camera") (noon + 2) rnd1; Close 2])%list.

(** The session of the spec: a monitor registers, a camera registers, the
    camera sends an offer to the monitor, the monitor leaves. *)
Definition session : list event :=
  (two_peers ++
   [Message 2 (Parsed (JObj [("type", JStr "offer");
                             ("targetId", JStr (generateId noon rnd1));
                             ("offer", JStr "X");
                             ("fromId", JStr (generateId (noon + 1) rnd2))]))
      (noon + 2) rnd1;
    Close 1])%list.

(** ** Further definitions for the statements *)

(** The sockets that have an entry in the registry. *)
Definition channels (reg : registry) : list conn := List.map ws (map_values reg).

(** The [type]s of the messages the server sends. *)
Definition outbound_types : list string :=
  ["registered"; "request-offer"; "offer"; "answer"; "ice-candidate";
   "camera-disconnected"; "monitor-disconnected"].

Definition has_outbound_type (m : conn * json) : Prop :=
  exists t, In t outbound_types /\ get_prop (snd m) "type" = inr (Some (JStr t)).

(** The messages of socket [c] carrying the given frames, each with the
    clock reading and random string its handler will see, and the ids their
    handlers generate. *)
Definition messages_of (c : conn) (frames : list (frame * N * string)) : list event :=
  List.map (fun p => Message c (fst (fst p)) (snd (fst p)) (snd p)) frames.

Definition ids_generated (frames : list (frame * N * string)) : list string :=
  List.map (fun p => generateId (snd (fst p)) (snd p)) frames.

(** ** httpServer.on("upgrade") *)

Inductive upgrade_action : Type :=
| HandleUpgrade      (* [wss.handleUpgrade], then [wss.emit("connection", ws, request)] *)
| Destroy.           (* [socket.destroy()] *)

(** [request.url === "/ws"]; the url of a request is a string or undefined. *)
Definition on_upgrade (url : jsval) : upgrade_action :=
  if is_str url "/ws" then HandleUpgrade else Destroy.

(** What reaches the server from the network.  [handshake] tells whether
    [wss.handleUpgrade] completes the handshake and calls back with the new
    socket [c]; when it does not, no [connection] is emitted. *)
Inductive net_event : Type :=
| Upgrade (c : conn) (url : jsval) (handshake : bool)
| Frame (c : conn) (data : frame) (now : N) (rnd : string)
| Hangup (c : conn).

Definition net_step (st : server) (ev : net_event) : option server :=
  match ev with
  | Upgrade c url handshake =>
      match on_upgrade url with
      | HandleUpgrade => if handshake then step st (Connect c) else Some st
      | Destroy => Some st
      end
  | Frame c data now rnd => step st (Message c data now rnd)
  | Hangup c => step st (Close c)
  end.

Inductive net_reaches : list net_event -> server -> Prop :=
| net_reaches_init : net_reaches [] init
| net_reaches_step : forall tr st ev st',
    net_reaches tr st -> net_step st ev = Some st' -> net_reaches (ev :: tr) st'.

Fixpoint net_run (st : server) (evs : list net_event) : option server :=
  match evs with
  | [] => Some st
  | ev :: evs' =>
      match net_step st ev with
      | Some st' => net_run st' evs'
      | None => None
      end
  end.

(** ** Further scenarios *)

Definition unnamed_camera : json :=
  JObj [("type", JStr "register"); ("role", JStr "camera"); ("name", JStr "")].

Definition two_registrations : list (frame * N * string) :=
  [(register_frame "camera", noon, rnd1); (register_frame "camera", (noon + 1)%N, rnd2)].

Definition net_session : list net_event :=
  [Upgrade 1 (Some (JStr "/ws")) true;
   Upgrade 2 (Some (JStr "/camera")) true;
   Frame 1 (register_frame "monitor") noon rnd1].

Definition net_after (evs : list net_event) : server :=
  match net_run init evs with
  | Some st => st
  | None => init
  end.

(** The [registered] replies among messages sent. *)
Definition is_registered (m : conn * json) : bool :=
  is_str (msg_type (snd m)) "registered".

(** The registrations of a trace: the socket and the id generated, latest
    first. *)
Definition registration (ev : event) : list (conn * string) :=
  match ev with
  | Message c data now rnd => if is_register data then [(c, generateId now rnd)] else []
  | _ => []
  end.

Definition registrations (tr : list event) : list (conn * string) :=
  flat_map registration tr.

(** * Properties *)

(** ** The map operations *)

Lemma assoc_in_keys {A : Type} (k : string) (l : list (string * A)) :
  In k (List.map fst l) <-> exists v, assoc k l = Some v.
Proof.
  induction l as [|[k' v'] l IH]; simpl.
  - split; [tauto | intros [v Hv]; discriminate].
  - destruct (String.eqb_spec k' k) as [->|Hne].
    + split; [eauto | auto].
    + rewrite IH. split; [intros [?|?]; [contradiction | assumption] | auto].
Qed.

Lemma assoc_none_keys {A : Type} (k : string) (l : list (string * A)) :
  assoc k l = None <-> ~ In k (List.map fst l).
Proof.
  rewrite assoc_in_keys. split.
  - intros H [v Hv]. congruence.
  - intros H. destruct (assoc k l) eqn:E; [exfalso; eauto | reflexivity].
Qed.

Lemma map_get_set_same k v m : map_get k (map_set k v m) = Some v.
Proof.
  unfold map_get. induction m as [|[k' v'] m IH]; simpl.
  - now rewrite String.eqb_refl.
  - destruct (String.eqb_spec k' k) as [->|Hne]; simpl.
    + now rewrite String.eqb_refl.
    + destruct (String.eqb_spec k' k); [contradiction | exact IH].
Qed.

Lemma map_get_set_other k k' v m :
  k <> k' -> map_get k' (map_set k v m) = map_get k' m.
Proof.
  unfold map_get. intros Hne. induction m as [|[k0 v0] m IH]; simpl.
  - destruct (String.eqb_spec k k'); [contradiction | reflexivity].
  - destruct (String.eqb_spec k0 k) as [->|Hne0]; simpl.
    + destruct (String.eqb_spec k k'); [contradiction | reflexivity].
    + now rewrite IH.
Qed.

(** A key that is not present is appended: the entry comes last. *)
Lemma map_set_fresh k v m :
  map_get k m = None -> map_set k v m = (m ++ [(k, v)])%list.
Proof.
  unfold map_get. induction m as [|[k' v'] m IH]; simpl; [reflexivity|].
  destruct (String.eqb_spec k' k); [discriminate|].
  intros H. now rewrite IH.
Qed.

Lemma map_keys_set k v m x :
  In x (map_keys (map_set k v m)) <-> x = k \/ In x (map_keys m).
Proof.
  unfold map_keys. induction m as [|[k' v'] m IH]; simpl.
  - intuition.
  - destruct (String.eqb_spec k' k) as [->|Hne]; simpl.
    + intuition.
    + rewrite IH. intuition.
Qed.

Lemma map_keys_delete k m x :
  In x (map_keys (map_delete k m)) <-> x <> k /\ In x (map_keys m).
Proof.
  unfold map_keys, map_delete. induction m as [|[k' v'] m IH]; simpl.
  - intuition.
  - destruct (String.eqb_spec k' k) as [->|Hne]; simpl.
    + rewrite IH. split; [tauto|]. intros [H1 [H2|H2]]; [congruence | tauto].
    + rewrite IH. split; [|tauto]. intros [<-|[? ?]]; auto.
Qed.

Lemma map_get_delete_same k m : map_get k (map_delete k m) = None.
Proof.
  unfold map_get. apply assoc_none_keys. fold (map_keys (map_delete k m)).
  rewrite map_keys_delete. tauto.
Qed.

Lemma map_get_delete_other k k' m :
  k <> k' -> map_get k' (map_delete k m) = map_get k' m.
Proof.
  unfold map_get, map_delete. intros Hne.
  induction m as [|[k0 v0] m IH]; simpl; [reflexivity|].
  destruct (String.eqb_spec k0 k) as [->|Hne0]; simpl.
  - destruct (String.eqb_spec k k'); [contradiction | exact IH].
  - now rewrite IH.
Qed.

Lemma map_get_in_keys k m :
  In k (map_keys m) <-> exists v, map_get k m = Some v.
Proof. apply assoc_in_keys. Qed.

(** ** Loops that only send *)

Lemma forEach_sends {A : Type} (f : A -> M unit) (g : option string -> A -> conn * json)
    (l : list A) (s : hstate) :
  only_sends f g ->
  forEach l f s =
  (inr tt, mkH (clientId s) (clients s) (sent s ++ List.map (g (clientId s)) l) (logged s)).
Proof.
  intros Hf. revert s. induction l as [|x l IH]; intros [cid cl out errs]; simpl.
  - unfold ret. now rewrite app_nil_r.
  - unfold bind. rewrite Hf. simpl. rewrite IH. simpl. now rewrite <- app_assoc.
Qed.

(** ** The id generator *)

Lemma toString36_aux_nonempty fuel n acc :
  acc <> "" -> toString36_aux fuel n acc <> "".
Proof.
  revert n acc. induction fuel as [|fuel IH]; intros n acc Hacc; simpl; [assumption|].
  destruct (n / 36 =? 0)%N; [discriminate|]. apply IH. discriminate.
Qed.

Lemma toString36_nonempty n : toString36 n <> "".
Proof.
  unfold toString36. simpl.
  destruct (n / 36 =? 0)%N; [discriminate|].
  apply toString36_aux_nonempty. discriminate.
Qed.

Lemma generateId_nonempty now rnd : generateId now rnd <> "".
Proof.
  unfold generateId. pose proof (toString36_nonempty now) as H.
  destruct (toString36 now); [contradiction | discriminate].
Qed.

Lemma val36_digit36 d : (d < 36)%N -> val36 (digit36 d) = d.
Proof.
  intros Hd. unfold val36, digit36.
  destruct (N.ltb_spec d 10).
  - rewrite N_ascii_embedding by lia.
    destruct (N.ltb_spec (48 + d) 58); lia.
  - rewrite N_ascii_embedding by lia.
    destruct (N.ltb_spec (87 + d) 58); lia.
Qed.

Lemma value36_shift a s :
  value36 a s = (a * 36 ^ N.of_nat (String.length s) + value36 0 s)%N.
Proof.
  revert a. induction s as [|c s IH]; intros a.
  - simpl. lia.
  - cbn [value36 String.length]. rewrite (IH (a * 36 + val36 c)%N), (IH (0 * 36 + val36 c)%N).
    rewrite Nat2N.inj_succ, N.pow_succ_r'. lia.
Qed.

Lemma value36_toString36_aux fuel n acc :
  (n < 36 ^ N.of_nat fuel)%N ->
  value36 0 (toString36_aux fuel n acc) =
  (n * 36 ^ N.of_nat (String.length acc) + value36 0 acc)%N.
Proof.
  revert n acc. induction fuel as [|fuel IH]; intros n acc Hn.
  - simpl in Hn. assert (n = 0%N) by lia. subst. simpl. lia.
  - cbn [toString36_aux].
    assert (Hmod : (n mod 36 < 36)%N) by (apply N.mod_lt; lia).
    pose proof (N.div_mod n 36 ltac:(lia)) as Hdm.
    destruct (N.eqb_spec (n / 36) 0) as [Hz|Hnz].
    + cbn [value36]. rewrite value36_shift, val36_digit36 by assumption. nia.
    + rewrite IH.
      * cbn [value36 String.length]. rewrite (value36_shift (0 * 36 + _)%N).
        rewrite val36_digit36 by assumption.
        rewrite Nat2N.inj_succ, N.pow_succ_r'. nia.
      * rewrite Nat2N.inj_succ, N.pow_succ_r' in Hn.
        apply N.Div0.div_lt_upper_bound. lia.
Qed.

Lemma toString36_fuel n : (n < 36 ^ N.of_nat (S (N.to_nat (N.log2 n))))%N.
Proof.
  rewrite Nat2N.inj_succ, N2Nat.id.
  destruct (N.eq_dec n 0) as [->|Hn]; [reflexivity|].
  destruct (N.log2_spec n ltac:(lia)) as [_ Hlt].
  eapply N.lt_le_trans; [exact Hlt|].
  apply N.pow_le_mono_l. lia.
Qed.

Lemma value36_toString36 n : value36 0 (toString36 n) = n.
Proof.
  unfold toString36. rewrite value36_toString36_aux by apply toString36_fuel.
  simpl. lia.
Qed.

Lemma toString36_inj n m : toString36 n = toString36 m -> n = m.
Proof.
  intros H. rewrite <- (value36_toString36 n), <- (value36_toString36 m). now rewrite H.
Qed.

Lemma length_toString36_aux k fuel n acc :
  (36 ^ N.of_nat k <= n < 36 ^ N.of_nat (S k))%N ->
  (n < 36 ^ N.of_nat fuel)%N ->
  String.length (toString36_aux fuel n acc) = S k + String.length acc.
Proof.
  revert k n acc. induction fuel as [|fuel IH]; intros k n acc Hk Hn.
  - simpl in Hn. pose proof (N.pow_nonzero 36 (N.of_nat k) ltac:(lia)) as Hpos. lia.
  - cbn [toString36_aux].
    rewrite Nat2N.inj_succ, N.pow_succ_r' in Hk, Hn.
    destruct (N.eqb_spec (n / 36) 0) as [Hz|Hnz].
    + apply N.div_small_iff in Hz; [|lia].
      destruct k as [|k]; [reflexivity|].
      rewrite Nat2N.inj_succ, N.pow_succ_r' in Hk.
      pose proof (N.pow_nonzero 36 (N.of_nat k) ltac:(lia)) as Hpos. nia.
    + destruct k as [|k].
      * simpl in Hk. exfalso. apply Hnz. apply N.div_small. lia.
      * rewrite (IH k).
        -- simpl. lia.
        -- rewrite Nat2N.inj_succ, N.pow_succ_r' in *. split.
           ++ apply N.div_le_lower_bound; lia.
           ++ apply N.Div0.div_lt_upper_bound. lia.
        -- apply N.Div0.div_lt_upper_bound. lia.
Qed.

Lemma length_toString36_eight now :
  eight_digits now -> String.length (toString36 now) = 8.
Proof.
  intros H. unfold toString36.
  rewrite (length_toString36_aux 7); [reflexivity | exact H | apply toString36_fuel].
Qed.

Lemma append_inj_length (a b s t : string) :
  String.length a = String.length b -> a ++ s = b ++ t -> a = b /\ s = t.
Proof.
  revert b. induction a as [|c a IH]; intros [|d b] Hlen H; simpl in *; try discriminate.
  - auto.
  - injection H as -> H. destruct (IH b) as [-> ->]; auto.
Qed.

(** Two calls in the eight-digit era return the same id only if they read
    the same millisecond and drew the same suffix. *)
Lemma generateId_inj now rnd now' rnd' :
  eight_digits now -> eight_digits now' ->
  generateId now rnd = generateId now' rnd' ->
  now = now' /\ substr 2 9 rnd = substr 2 9 rnd'.
Proof.
  intros H H' E. unfold generateId in E.
  apply append_inj_length in E.
  - destruct E as [E1 E2]. split; [now apply toString36_inj | assumption].
  - now rewrite !length_toString36_eight.
Qed.

(** ** Strings and texts of values *)

Lemma first_error_none {A : Type} (f : A -> option exn) (l : list A) :
  first_error f l = None <-> forall x, In x l -> f x = None.
Proof.
  induction l as [|x l IH]; simpl.
  - split; [intros _ x [] | reflexivity].
  - destruct (f x) eqn:E.
    + split; [discriminate|]. intros H. rewrite <- E. apply H. now left.
    + rewrite IH. split.
      * intros H y [<-|Hy]; auto.
      * intros H y Hy. apply H. now right.
Qed.

Lemma template_error_none parts d :
  template_error parts d = None <-> forall v, In v parts -> to_string_error_val v d = None.
Proof. apply first_error_none. Qed.

Lemma mapM_id {A : Type} (f : A -> exn + A) (l : list A) :
  Forall (fun x => f x = inr x) l -> mapM f l = inr l.
Proof.
  induction 1 as [|x l Hx _ IH]; simpl; [reflexivity|]. now rewrite Hx, IH.
Qed.

(** [JSON.stringify] writes a plain value back as it is. *)
Lemma wire_plain v : forall d, plain v d = true -> wire v d = inr v.
Proof.
  induction v as [| b | x | s | items IH | props IH] using json_nested_ind; intros d H;
    try reflexivity.
  - destruct x as [[|]| | |]; simpl in *; try discriminate; reflexivity.
  - destruct d as [|d]; simpl in *; [discriminate|].
    rewrite mapM_id; [reflexivity|].
    rewrite forallb_forall in H. rewrite Forall_forall in *. intros x Hx. apply IH; auto.
  - destruct d as [|d]; simpl in *; [discriminate|].
    rewrite mapM_id; [reflexivity|].
    rewrite forallb_forall in H. rewrite Forall_forall in *. intros [k x] Hx.
    pose proof (IH (k, x) Hx d (H (k, x) Hx)) as E. simpl in *. now rewrite E.
Qed.

(** The first property written is the first one whose value is defined. *)
Lemma stringify_type t fields d m :
  stringify (("type", Some (JStr t)) :: fields) d = inr m ->
  get_prop m "type" = inr (Some (JStr t)).
Proof.
  unfold stringify. simpl. destruct (wire_fields fields d); [discriminate|].
  intros H. injection H as <-. reflexivity.
Qed.

Lemma wire_fields_keys fields d ws key :
  wire_fields fields d = inr ws -> In key (List.map fst ws) -> In key (List.map fst fields).
Proof.
  revert ws. induction fields as [|[k [v|]] fields IH]; intros ws; simpl.
  - intros H. injection H as <-. auto.
  - destruct (wire v d); [discriminate|].
    destruct (wire_fields fields d) as [|ws']; [discriminate|].
    intros H. injection H as <-. simpl. intros [?|?]; eauto.
  - intros H Hin. right. eauto.
Qed.

(** The properties of a literal whose values are plain are written as they
    are, those whose value is [undefined] left out. *)
Lemma wire_fields_plain fields d :
  NoDup (List.map fst fields) ->
  (forall k v, In (k, Some v) fields -> plain v d = true) ->
  exists ws, wire_fields fields d = inr ws /\
    forall key, assoc key ws = match assoc key fields with Some v => v | None => None end.
Proof.
  induction fields as [|[k [v|]] fields IH]; intros Hnd H; simpl.
  - exists []. split; reflexivity.
  - rewrite wire_plain by (apply (H k); now left).
    inversion Hnd; subst.
    destruct IH as [ws [-> Hws]]; [assumption | |].
    { intros k' v' Hin. apply (H k'). now right. }
    exists ((k, v) :: ws). split; [reflexivity|]. intros key. simpl.
    destruct (String.eqb k key); [reflexivity | apply Hws].
  - inversion Hnd as [|? ? Hk Hnd']; subst.
    destruct IH as [ws [E Hws]]; [assumption | |].
    { intros k' v' Hin. apply (H k'). now right. }
    exists ws. split; [assumption|]. intros key. rewrite Hws.
    destruct (String.eqb_spec k key) as [->|]; [|reflexivity].
    destruct (assoc key fields) eqn:Ea; [|reflexivity].
    exfalso. apply Hk. apply assoc_in_keys. eauto.
Qed.

(** ** What each handler does *)

Lemma cameras_of_with_role reg : cameras_of reg = with_role "camera" reg.
Proof. reflexivity. Qed.

Lemma monitors_of_with_role reg : monitors_of reg = with_role "monitor" reg.
Proof. reflexivity. Qed.

(** A string, a number and a boolean always print. *)
Lemma template_error_pair a k d :
  template_error [a; Some (JStr k)] d = to_string_error_val a d.
Proof. unfold template_error. simpl. now destruct (to_string_error_val a d). Qed.

Lemma template_error_found a b x d :
  template_error [a; b; Some (JBool x)] d = template_error [a; b] d.
Proof.
  unfold template_error. simpl.
  destruct (to_string_error_val a d); [reflexivity|].
  now destruct (to_string_error_val b d).
Qed.

Lemma register_log_none props newId :
  register_log props newId = None <->
  printable (assoc "role" props) /\
  printable (Some (js_or (assoc "name" props) (JStr "N/A"))).
Proof.
  unfold register_log, printable, template_error. simpl.
  destruct (to_string_error_val (assoc "role" props) (join_depth rt)).
  - split; [discriminate | intros [? _]; discriminate].
  - destruct (to_string_error (js_or (assoc "name" props) (JStr "N/A")) (join_depth rt)).
    + split; [discriminate | intros [_ ?]; discriminate].
    + tauto.
Qed.


Lemma is_str_printable v s : is_str v s = true -> printable v.
Proof. destruct v as [[| | |s'| |]|]; simpl; try discriminate. reflexivity. Qed.

Lemma printableb_spec v : printableb v = true <-> printable v.
Proof.
  unfold printableb, printable. destruct (to_string_error_val v (join_depth rt)).
  - split; discriminate.
  - tauto.
Qed.

Lemma is_register_inv data :
  is_register data = true ->
  exists props, data = Parsed (JObj props) /\ is_str (assoc "type" props) "register" = true.
Proof.
  destruct data as [|msg]; simpl; [discriminate|].
  destruct msg; simpl; try discriminate. eauto.
Qed.

Lemma on_message_register sock now rnd props cid cl :
  is_str (assoc "type" props) "register" = true ->
  on_message sock now rnd (Parsed (JObj props)) (mkH cid cl [] []) =
  (inr tt,
   let cl' := map_set (generateId now rnd) (new_client sock now rnd props) cl in
   mkH (Some (generateId now rnd)) cl'
       (register_sends sock (generateId now rnd) props cl')
       (register_errors props (generateId now rnd))).
Proof.
  intros Ht.
  unfold on_message, dispatch. run_handler_steps. rewrite Ht.
  unfold case_register. run_handler_steps.
  unfold register_sends, register_errors, register_log, register_fanout, new_client.
  destruct (template_error _ (join_depth rt)) as [e|]; [reflexivity|].
  run_handler_steps.
  destruct (is_str (assoc "role" props) "monitor") eqn:Em;
    destruct (is_str (assoc "role" props) "camera") eqn:Ec.
  - exfalso. destruct (assoc "role" props) as [[| | |s| |]|]; simpl in *; try discriminate.
    apply String.eqb_eq in Em, Ec. congruence.
  - cbn [template_error first_error to_string_error_val to_string_error].
    run_handler_steps.
    rewrite (forEach_sends _ (fun c cam =>
               (ws cam, JObj [("type", JStr "request-offer");
                              ("monitorId", match c with
                                            | Some k => JStr k
                                            | None => JNull
                                            end)])))
      by (intros x [[c|] ? ? ?]; reflexivity).
    cbn. now rewrite app_nil_r.
  - cbn [template_error first_error to_string_error_val to_string_error].
    run_handler_steps.
    rewrite (forEach_sends _ (fun _ monitor =>
               (sock, tagged "request-offer" "monitorId" (id monitor))))
      by (intros x [[c|] ? ? ?]; reflexivity).
    reflexivity.
  - reflexivity.
Qed.

Lemma is_kind_inv k msg :
  is_kind k msg -> exists props, msg = JObj props /\ assoc "type" props = Some (JStr (kind_type k)).
Proof.
  unfold is_kind. destruct msg; simpl; try discriminate.
  intros H. injection H as H. eauto.
Qed.

Lemma on_message_routed k sock now rnd props cid cl :
  assoc "type" props = Some (JStr (kind_type k)) ->
  on_message sock now rnd (Parsed (JObj props)) (mkH cid cl [] []) =
  (inr tt, mkH cid cl (route_sends k props cl) (route_errors k props cl)).
Proof.
  intros Ht. unfold on_message, dispatch. run_handler_steps. rewrite Ht.
  unfold route_sends, route_errors, route_log, forwarded.
  destruct k; cbn [kind_type is_str String.eqb Ascii.eqb Bool.eqb andb forwarded_keys List.map];
    unfold case_offer, case_answer, case_ice_candidate;
    repeat progress
      (unfold try_catch, bind, ret, throw, lift, prop, clients_get, console_log,
         JSON_stringify, send, console_error;
       cbv beta iota zeta; cbn [clientId clients sent logged get_prop app fst snd]);
    rewrite ?template_error_found;
    try (destruct (template_error _ (join_depth rt)) as [e|]; [reflexivity|]);
    (destruct (map_get_val (assoc "targetId" props) cl) as [target|]; [|reflexivity]);
    unfold jsval;
    match goal with
    | |- context [stringify ?f ?d] => destruct (stringify f d) as [e|text]; reflexivity
    end.
Qed.

Lemma on_message_unhandled sock now rnd data cid cl :
  handled data = false ->
  on_message sock now rnd data (mkH cid cl [] []) =
  (inr tt,
   mkH cid cl [] match discriminant data with inl e => [e] | inr _ => [] end).
Proof.
  unfold handled, known_type, discriminant.
  destruct data as [|msg]; [reflexivity|].
  unfold on_message, dispatch. run_handler_steps.
  destruct (get_prop msg "type") as [e|t] eqn:Et.
  - destruct msg; simpl in Et; try discriminate. reflexivity.
  - intros Hk. apply orb_false_iff in Hk as [Hk H4].
    apply orb_false_iff in Hk as [Hk H3]. apply orb_false_iff in Hk as [H1 H2].
    destruct msg; simpl in Et; try discriminate; injection Et as <-;
      run_handler_steps; rewrite ?H1, ?H2, ?H3, ?H4; reflexivity.
Qed.

Lemma handled_kind data :
  handled data = true -> is_register data = false ->
  exists k props, data = Parsed (JObj props) /\ assoc "type" props = Some (JStr (kind_type k)).
Proof.
  intros Hh Hr. unfold handled, is_register in *.
  destruct (discriminant data) as [e|t] eqn:Ed; [discriminate|].
  destruct data as [|msg]; [discriminate|]. simpl in Ed.
  destruct msg; simpl in Ed; try discriminate; injection Ed as <-;
    try discriminate.
  unfold known_type in Hh. rewrite Hr in Hh. simpl in Hh.
  destruct (assoc "type" props) as [[| | |s| |]|] eqn:Ea; simpl in Hh; try discriminate.
  destruct (String.eqb_spec s "offer") as [E|_];
    [exists Offer, props; rewrite E in Ea; auto|].
  destruct (String.eqb_spec s "answer") as [E|_];
    [exists Answer, props; rewrite E in Ea; auto|].
  destruct (String.eqb_spec s "ice-candidate") as [E|_];
    [exists IceCandidate, props; rewrite E in Ea; auto | discriminate].
Qed.

(** A frame that is not a [register] leaves the registry and [clientId] as
    they are. *)
Lemma on_message_other sock now rnd data cid cl :
  is_register data = false ->
  let h := snd (on_message sock now rnd data (mkH cid cl [] [])) in
  clientId h = cid /\ clients h = cl.
Proof.
  intros Hr. destruct (handled data) eqn:Hh.
  - destruct (handled_kind data Hh Hr) as [k [props [-> Hk]]].
    rewrite (on_message_routed k) by assumption. auto.
  - rewrite on_message_unhandled by assumption. auto.
Qed.

(** The message listener catches whatever its body throws. *)
Lemma on_message_returns sock now rnd data cid cl :
  fst (on_message sock now rnd data (mkH cid cl [] [])) = inr tt.
Proof.
  destruct (handled data) eqn:Hh.
  - destruct (is_register data) eqn:Hr.
    + destruct (is_register_inv data Hr) as [props [-> Ht]].
      now rewrite on_message_register.
    + destruct (handled_kind data Hh Hr) as [k [props [-> Hk]]].
      now rewrite (on_message_routed k).
  - now rewrite on_message_unhandled.
Qed.

Lemma on_close_null cl :
  on_close (mkH None cl [] []) = (inr tt, mkH None cl [] []).
Proof. reflexivity. Qed.

Lemma on_close_missing k cl :
  map_get k cl = None ->
  on_close (mkH (Some k) cl [] []) = (inr tt, mkH (Some k) cl [] []).
Proof.
  intros H. unfold on_close. run_handler_steps.
  destruct (truthy (Some (JStr k))); [|reflexivity].
  run_handler_steps. unfold map_get_val. rewrite H. reflexivity.
Qed.

Lemma on_close_registered k client cl :
  k <> "" -> map_get k cl = Some client -> printable (role client) ->
  on_close (mkH (Some k) cl [] []) =
  (inr tt, mkH (Some k) (map_delete k cl) (close_sends k (role client) cl) []).
Proof.
  intros Hk H Hp. unfold on_close. run_handler_steps.
  assert (Ht : truthy (Some (JStr k)) = true).
  { simpl. destruct (String.eqb_spec k ""); [contradiction | reflexivity]. }
  rewrite Ht. run_handler_steps. unfold map_get_val. rewrite H.
  cbn [js_of_id]. rewrite template_error_pair. rewrite Hp.
  unfold close_sends.
  destruct (is_str (role client) "camera"); destruct (is_str (role client) "monitor");
    run_handler_steps;
    repeat (rewrite (forEach_sends _ (fun c x =>
               (ws x, JObj [("type", JStr "camera-disconnected");
                            ("cameraId", match c with
                                         | Some k => JStr k
                                         | None => JNull
                                         end)])))
              by (intros x [[c|] ? ? ?]; reflexivity); run_handler_steps);
    repeat (rewrite (forEach_sends _ (fun c x =>
               (ws x, JObj [("type", JStr "monitor-disconnected");
                            ("monitorId", match c with
                                          | Some k => JStr k
                                          | None => JNull
                                          end)])))
              by (intros x [[c|] ? ? ?]; reflexivity); run_handler_steps);
    rewrite ?app_nil_r; reflexivity.
Qed.

(** A role that cannot be printed stops the close listener at its log
    line: nothing is sent, nothing is deleted, and the exception leaves the
    listener. *)
Lemma on_close_throws k client cl e :
  k <> "" -> map_get k cl = Some client ->
  to_string_error_val (role client) (join_depth rt) = Some e ->
  on_close (mkH (Some k) cl [] []) = (inl e, mkH (Some k) cl [] []).
Proof.
  intros Hk H Hp. unfold on_close. run_handler_steps.
  assert (Ht : truthy (Some (JStr k)) = true).
  { simpl. destruct (String.eqb_spec k ""); [contradiction | reflexivity]. }
  rewrite Ht. run_handler_steps. unfold map_get_val. rewrite H.
  cbn [js_of_id]. rewrite template_error_pair. rewrite Hp. reflexivity.
Qed.
(** ** Events of the loop *)

Lemma upd_same f c v : f c = Some v -> forall c', upd f c v c' = f c'.
Proof.
  intros H c'. unfold upd. destruct (Nat.eqb_spec c' c) as [->|]; [now rewrite H | reflexivity].
Qed.

Lemma upd_eq f c v : upd f c v c = Some v.
Proof. unfold upd. now rewrite Nat.eqb_refl. Qed.

Lemma upd_neq f c v c' : c' <> c -> upd f c v c' = f c'.
Proof. unfold upd. intros H. destruct (Nat.eqb_spec c' c); [contradiction | reflexivity]. Qed.

Lemma run_app st evs evs' :
  run st (evs ++ evs') =
  match run st evs with
  | Some st' => run st' evs'
  | None => None
  end.
Proof.
  revert st. induction evs as [|ev evs IH]; intros st; simpl; [reflexivity|].
  destruct (step st ev); [apply IH | reflexivity].
Qed.

Lemma reaches_run ok st tr evs st' :
  reaches ok tr st -> run st evs = Some st' ->
  (forall pre ev post s, evs = (pre ++ ev :: post)%list -> run st pre = Some s -> ok s ev) ->
  reaches ok (rev evs ++ tr) st'.
Proof.
  revert st tr. induction evs as [|ev evs IH]; intros st tr Hr Hrun Hok; simpl in *.
  - injection Hrun as <-. exact Hr.
  - destruct (step st ev) as [s1|] eqn:Es; [|discriminate].
    rewrite <- app_assoc. simpl. apply (IH s1); [|assumption|].
    + eapply reaches_step; [exact Hr | | exact Es].
      apply (Hok [] ev evs st); reflexivity.
    + intros pre ev' post s Hsplit Hpre.
      apply (Hok (ev :: pre) ev' post s); [now rewrite Hsplit|].
      simpl. now rewrite Es.
Qed.

(** Whatever a list of events leads to from the initial state is reachable. *)
Lemma run_reachable evs st : run init evs = Some st -> reachable (rev evs) st.
Proof.
  intros H. rewrite <- (app_nil_r (rev evs)).
  apply (reaches_run _ init [] evs st); [constructor | exact H | intros; exact I].
Qed.

Lemma reaches_weaken ok tr st : reaches ok tr st -> reachable tr st.
Proof.
  induction 1; [constructor | econstructor; eauto; exact I].
Qed.

Lemma escaped_on_message c now rnd data cid st :
  escaped (on_message c now rnd data) cid st = [].
Proof. unfold escaped. now rewrite on_message_returns. Qed.

Lemma step_close st c cid :
  sockets st c = Some (Open cid) ->
  step st (Close c) =
  Some (let h := run_handler on_close cid st in
        mkServer (clients h) (upd (sockets st) c Closed)
                 (outbox st ++ sent h) (stderr st ++ logged h)
                 (uncaught st ++ escaped on_close cid st)).
Proof. intros H. unfold step. now rewrite H. Qed.

Lemma step_message st c cid data now rnd :
  sockets st c = Some (Open cid) ->
  step st (Message c data now rnd) =
  Some (let h := run_handler (on_message c now rnd data) cid st in
        mkServer (clients h) (upd (sockets st) c (Open (clientId h)))
                 (outbox st ++ sent h) (stderr st ++ logged h)
                 (uncaught st)).
Proof.
  intros H. unfold step. rewrite H. cbv zeta.
  now rewrite escaped_on_message, app_nil_r.
Qed.

(** ** Routing of offer, answer and ice-candidate *)

(** The step taken on a routed message, hit or miss. *)
Lemma step_routed st c cid k props now rnd :
  sockets st c = Some (Open cid) ->
  assoc "type" props = Some (JStr (kind_type k)) ->
  exists st',
    step st (Message c (Parsed (JObj props)) now rnd) = Some st' /\
    outbox st' = (outbox st ++ route_sends k props (registry_of st))%list /\
    registry_of st' = registry_of st /\
    stderr st' = (stderr st ++ route_errors k props (registry_of st))%list /\
    uncaught st' = uncaught st /\
    sockets st' c = Some (Open cid) /\
    same_sockets st st'.
Proof.
  intros Hc Hty. rewrite (step_message st c cid) by assumption. cbv zeta.
  unfold run_handler.
  rewrite (on_message_routed k) by assumption.
  eexists. split; [reflexivity|].
  cbn [outbox registry_of sockets stderr uncaught snd clients clientId sent logged].
  repeat split.
  - apply upd_eq.
  - intros c'. apply upd_same. assumption.
Qed.

Lemma route_log_none k props :
  (k <> IceCandidate -> printable (assoc "fromId" props)) ->
  printable (assoc "targetId" props) ->
  route_log k props = None.
Proof.
  intros Hf Ht. unfold route_log.
  destruct k; try reflexivity;
    (apply template_error_none; intros v [<-|[<-|[]]]; [apply Hf; discriminate | exact Ht]).
Qed.

(** The properties of the message a routed frame is forwarded as, when the
    values carried are plain. *)
Lemma forwarded_plain k props :
  (forall p v, In p (forwarded_keys k) -> assoc p props = Some v ->
     plain v (stringify_depth rt) = true) ->
  exists fwd,
    forwarded k props = inr (JObj fwd) /\
    assoc "type" fwd = Some (JStr (kind_type k)) /\
    (forall p, In p (forwarded_keys k) -> assoc p fwd = assoc p props) /\
    (forall p, p <> "type" -> ~ In p (forwarded_keys k) -> assoc p fwd = None).
Proof.
  intros Hp. unfold forwarded, stringify.
  destruct (wire_fields_plain
              (("type", Some (JStr (kind_type k)))
               :: List.map (fun key => (key, assoc key props)) (forwarded_keys k))
              (stringify_depth rt)) as [ws [-> Hws]].
  - destruct k; cbn; repeat constructor; simpl; intuition discriminate.
  - intros p v [E|Hin].
    + injection E as <- <-. reflexivity.
    + apply in_map_iff in Hin as (key & E & Hkey). injection E as <- E.
      now apply (Hp key).
  - exists ws. split; [reflexivity|].
    assert (Hmap : forall p keys,
              assoc p (List.map (fun key => (key, assoc key props)) keys) =
              if in_dec string_dec p keys then Some (assoc p props) else None).
    { intros p keys. induction keys as [|key keys IH]; simpl; [reflexivity|].
      destruct (String.eqb_spec key p) as [->|Hne].
      - destruct (string_dec p p); [reflexivity | contradiction].
      - rewrite IH. destruct (string_dec key p); [contradiction|].
        destruct (in_dec string_dec p keys); reflexivity. }
    split; [|split].
    + rewrite Hws. reflexivity.
    + intros p Hin. rewrite Hws. cbn [assoc].
      destruct (String.eqb_spec "type" p) as [<-|_].
      * exfalso. destruct k; simpl in Hin; intuition discriminate.
      * rewrite Hmap. destruct (in_dec string_dec p (forwarded_keys k)); [|contradiction].
        now destruct (assoc p props).
    + intros p Hne Hnin. rewrite Hws. cbn [assoc].
      destruct (String.eqb_spec "type" p) as [E|_]; [congruence|].
      rewrite Hmap. destruct (in_dec string_dec p (forwarded_keys k)); [contradiction|].
      reflexivity.
Qed.

(** The step taken on a routed message that finds its target and can be
    printed and written. *)
Lemma step_forward st c cid k msg key target now rnd :
  sockets st c = Some (Open cid) ->
  is_kind k msg ->
  get_prop msg "targetId" = inr (Some (JStr key)) ->
  map_get key (registry_of st) = Some target ->
  forwardable k msg ->
  exists st' fwd,
    step st (Message c (Parsed msg) now rnd) = Some st' /\
    outbox st' = (outbox st ++ [(ws target, fwd)])%list /\
    registry_of st' = registry_of st /\
    same_sockets st st' /\
    stderr st' = stderr st.
Proof.
  intros Hc Hk Ht Hg [Hfrom Hplain].
  destruct (is_kind_inv k msg Hk) as [props [-> Hty]].
  simpl in Ht. injection Ht as Ht.
  destruct (step_routed st c cid k props now rnd Hc Hty)
    as (st' & Hst & Hout & Hreg & Herr & _ & _ & Hsock).
  destruct (forwarded_plain k props) as (fwd & Hfwd & _).
  { intros p v Hin E. apply (Hplain p v Hin). simpl. now rewrite E. }
  assert (Hlog : route_log k props = None).
  { apply route_log_none.
    - intros Hne. apply (Hfrom Hne). reflexivity.
    - rewrite Ht. reflexivity. }
  unfold route_sends in Hout. unfold route_errors in Herr.
  rewrite Hlog, Ht in Hout, Herr. cbn [map_get_val] in Hout, Herr.
  rewrite Hg, Hfwd in Hout, Herr. rewrite app_nil_r in Herr.
  exists st', (JObj fwd). auto.
Qed.

(** Whatever a routed message addressed to the key of an entry sends, it
    sends to the socket of that entry. *)
Lemma step_routed_to st c cid k msg key target now rnd :
  sockets st c = Some (Open cid) ->
  is_kind k msg ->
  get_prop msg "targetId" = inr (Some (JStr key)) ->
  map_get key (registry_of st) = Some target ->
  exists st' out,
    step st (Message c (Parsed msg) now rnd) = Some st' /\
    outbox st' = (outbox st ++ out)%list /\
    (forall m, In m out -> fst m = ws target) /\
    same_sockets st st'.
Proof.
  intros Hc Hk Ht Hg.
  destruct (is_kind_inv k msg Hk) as [props [-> Hty]].
  simpl in Ht. injection Ht as Ht.
  destruct (step_routed st c cid k props now rnd Hc Hty)
    as (st' & Hst & Hout & _ & _ & _ & _ & Hsock).
  exists st', (route_sends k props (registry_of st)).
  split; [exact Hst|]. split; [exact Hout|]. split; [|exact Hsock].
  unfold route_sends. rewrite Ht. cbn [map_get_val]. rewrite Hg.
  intros m Hm. destruct (route_log k props); [contradiction|].
  destruct (forwarded k props); [contradiction|].
  destruct Hm as [<-|[]]. reflexivity.
Qed.

(** C5, as amended.  An offer, answer or ice-candidate whose [targetId] is
    a key of the registry, whose [fromId] can be printed (the offer and
    answer cases print it before they send) and whose forwarded properties
    are values [JSON.stringify] writes back as they are, is forwarded once,
    to the
    channel of that entry: the message sent has the same [type], the same
    payload property, the same [fromId] (and, for an offer, the same
    [cameraName]), no [targetId] and no other property; nothing else is
    sent, and the registry, the sockets and the error log are as before. *)
Theorem routed_hit_forwards_once st c cid k msg key target now rnd :
  sockets st c = Some (Open cid) ->
  is_kind k msg ->
  get_prop msg "targetId" = inr (Some (JStr key)) ->
  map_get key (registry_of st) = Some target ->
  (k <> IceCandidate -> forall f, get_prop msg "fromId" = inr f -> printable f) ->
  (forall p v, In p (forwarded_keys k) -> get_prop msg p = inr (Some v) ->
     plain v (stringify_depth rt) = true) ->
  exists st' fwd,
    step st (Message c (Parsed msg) now rnd) = Some st' /\
    outbox st' = (outbox st ++ [(ws target, fwd)])%list /\
    get_prop fwd "type" = inr (Some (JStr (kind_type k))) /\
    get_prop fwd (payload_key k) = get_prop msg (payload_key k) /\
    get_prop fwd "fromId" = get_prop msg "fromId" /\
    (k = Offer -> get_prop fwd "cameraName" = get_prop msg "cameraName") /\
    get_prop fwd "targetId" = inr None /\
    (forall p v, get_prop fwd p = inr (Some v) -> p = "type" \/ In p (forwarded_keys k)) /\
    registry_of st' = registry_of st /\
    same_sockets st st' /\
    stderr st' = stderr st.
Proof.
  intros Hc Hk Ht Hg Hfrom Hplain.
  destruct (is_kind_inv k msg Hk) as [props [-> Hty]].
  simpl in Ht. injection Ht as Ht.
  destruct (step_routed st c cid k props now rnd Hc Hty)
    as (st' & Hst & Hout & Hreg & Herr & _ & _ & Hsock).
  destruct (forwarded_plain k props) as (fwd & Hfwd & F1 & F2 & F3).
  { intros p v Hin E. apply (Hplain p v Hin). simpl. now rewrite E. }
  assert (Hlog : route_log k props = None).
  { apply route_log_none.
    - intros Hne. apply (Hfrom Hne). reflexivity.
    - rewrite Ht. reflexivity. }
  unfold route_sends in Hout. unfold route_errors in Herr.
  rewrite Hlog, Ht in Hout, Herr. cbn [map_get_val] in Hout, Herr.
  rewrite Hg, Hfwd in Hout, Herr. rewrite app_nil_r in Herr.
  exists st', (JObj fwd). cbn [get_prop].
  split; [exact Hst|]. split; [exact Hout|]. split; [now rewrite F1|].
  split; [f_equal; apply F2; destruct k; simpl; auto|].
  split; [f_equal; apply F2; destruct k; simpl; auto|].
  split; [intros ->; f_equal; apply F2; simpl; auto|].
  split; [f_equal; apply F3; [discriminate | destruct k; simpl; intuition discriminate]|].
  split; [|auto].
  intros p v E. injection E as E.
  destruct (string_dec p "type") as [?|Hne]; [now left|]. right.
  destruct (in_dec string_dec p (forwarded_keys k)) as [?|Hnin]; [assumption|].
  rewrite (F3 p Hne Hnin) in E. discriminate.
Qed.

(** C6. An offer, answer or ice-candidate whose [targetId] is not a key of
    the registry (or is not a string, or is missing) sends nothing, to the
    target or to the sender, and leaves the registry and every socket, the
    sender's included, as they were; nothing leaves the listener.  The only
    trace is on the error log, when the log line of the offer and answer
    cases cannot print [fromId] or [targetId]: then the error it throws is
    caught and logged; otherwise nothing is logged. *)
Theorem routed_miss_is_silent st c cid k msg tid now rnd :
  sockets st c = Some (Open cid) ->
  is_kind k msg ->
  get_prop msg "targetId" = inr tid ->
  map_get_val tid (registry_of st) = None ->
  exists st',
    step st (Message c (Parsed msg) now rnd) = Some st' /\
    outbox st' = outbox st /\
    registry_of st' = registry_of st /\
    sockets st' c = Some (Open cid) /\
    same_sockets st st' /\
    uncaught st' = uncaught st /\
    (stderr st' = stderr st \/ exists e, stderr st' = (stderr st ++ [e])%list) /\
    ((k <> IceCandidate -> forall f, get_prop msg "fromId" = inr f -> printable f) ->
     printable tid ->
     stderr st' = stderr st).
Proof.
  intros Hc Hk Ht Hg.
  destruct (is_kind_inv k msg Hk) as [props [-> Hty]].
  simpl in Ht. injection Ht as Ht.
  destruct (step_routed st c cid k props now rnd Hc Hty)
    as (st' & Hst & Hout & Hreg & Herr & Hun & Hopen & Hsock).
  unfold route_sends in Hout. unfold route_errors in Herr.
  rewrite Ht, Hg in Hout, Herr.
  exists st'. split; [exact Hst|].
  split; [destruct (route_log k props); rewrite Hout; apply app_nil_r|].
  split; [exact Hreg|]. split; [exact Hopen|]. split; [exact Hsock|].
  split; [exact Hun|]. split.
  - destruct (route_log k props) as [e|]; [right; eauto | left].
    rewrite Herr. apply app_nil_r.
  - intros Hf Hp. rewrite route_log_none in Herr.
    + rewrite Herr. apply app_nil_r.
    + intros Hne. apply (Hf Hne). reflexivity.
    + now rewrite Ht.
Qed.

(** C9. A frame that [JSON.parse] rejects, a frame whose [type] cannot be
    read, and a message whose [type] is none of register, offer, answer,
    ice-candidate: nothing is sent, the registry is unchanged, every socket
    stays as it was, and the error thrown, if any, is caught and logged. *)
Theorem unhandled_frame_is_ignored st c cid data now rnd :
  sockets st c = Some (Open cid) ->
  handled data = false ->
  exists st',
    step st (Message c data now rnd) = Some st' /\
    outbox st' = outbox st /\
    registry_of st' = registry_of st /\
    sockets st' c = Some (Open cid) /\
    same_sockets st st' /\
    stderr st' =
      (stderr st ++ match discriminant data with inl e => [e] | inr _ => [] end)%list.
Proof.
  intros Hc Hh. rewrite (step_message st c cid) by assumption. cbv zeta.
  unfold run_handler.
  rewrite on_message_unhandled by assumption.
  eexists. split; [reflexivity|].
  cbn [outbox registry_of sockets stderr snd clients clientId sent logged].
  rewrite app_nil_r. repeat split.
  - apply upd_eq.
  - intros c'. apply upd_same. assumption.
Qed.

(** The frames of C9, spelled out. *)
Lemma handled_false_iff data :
  handled data = false <->
  data = Malformed \/ data = Parsed JNull \/
  exists msg t, data = Parsed msg /\ get_prop msg "type" = inr t /\
    forall s, In s ["register"; "offer"; "answer"; "ice-candidate"] -> t <> Some (JStr s).
Proof.
  unfold handled, discriminant. split.
  - destruct data as [|msg]; [auto|]. intros Hk. right.
    destruct (get_prop msg "type") as [e|t] eqn:Et.
    + left. destruct msg; simpl in Et; try discriminate. reflexivity.
    + right. exists msg, t. repeat split; try assumption.
      intros s Hs E. subst t. unfold known_type in Hk. simpl in Hs, Hk.
      destruct Hs as [<-|[<-|[<-|[<-|[]]]]]; discriminate.
  - intros [->|[->|(msg & t & -> & Et & Hs)]]; try reflexivity.
    rewrite Et. unfold known_type.
    destruct t as [[| | |s| |]|]; try reflexivity. simpl.
    destruct (String.eqb_spec s "register") as [->|_];
      [exfalso; apply (Hs "register"); simpl; auto|].
    destruct (String.eqb_spec s "offer") as [->|_];
      [exfalso; apply (Hs "offer"); simpl; auto|].
    destruct (String.eqb_spec s "answer") as [->|_];
      [exfalso; apply (Hs "answer"); simpl; auto|].
    destruct (String.eqb_spec s "ice-candidate") as [->|_];
      [exfalso; apply (Hs "ice-candidate"); simpl; auto|].
    reflexivity.
Qed.


(** ** The effect of one event on the registry and on [clientId] *)

Lemma message_effect c cid st data now rnd :
  let h := run_handler (on_message c now rnd data) cid st in
  (is_register data = true /\
   exists props, data = Parsed (JObj props) /\
     clientId h = Some (generateId now rnd) /\
     clients h = map_set (generateId now rnd) (new_client c now rnd props) (registry_of st) /\
     sent h = register_sends c (generateId now rnd) props (clients h))
  \/ (is_register data = false /\ clientId h = cid /\ clients h = registry_of st).
Proof.
  unfold run_handler. destruct (is_register data) eqn:Er.
  - left. split; [reflexivity|].
    destruct (is_register_inv data Er) as [props [-> Ht]].
    exists props. rewrite on_message_register by assumption. simpl. auto.
  - right. split; [reflexivity|]. now apply on_message_other.
Qed.

Lemma map_delete_absent k m : map_get k m = None -> map_delete k m = m.
Proof.
  unfold map_get, map_delete. induction m as [|[k' v'] m IH]; simpl; [reflexivity|].
  destruct (String.eqb_spec k' k); [discriminate|]. simpl. intros H. now rewrite IH.
Qed.

(** What the close listener does: nothing without a [clientId] or without
    an entry under it; with an entry, the notifications and the removal if
    the role of the entry can be printed, and nothing but the exception if
    it cannot. *)
Lemma close_effect cid st :
  let h := run_handler on_close cid st in
  clientId h = cid /\ logged h = [] /\
  match cid with
  | None => clients h = registry_of st /\ sent h = [] /\ escaped on_close cid st = []
  | Some k =>
      k <> "" ->
      match map_get k (registry_of st) with
      | Some client =>
          match to_string_error_val (role client) (join_depth rt) with
          | None =>
              clients h = map_delete k (registry_of st) /\
              sent h = close_sends k (role client) (registry_of st) /\
              escaped on_close cid st = []
          | Some e =>
              clients h = registry_of st /\ sent h = [] /\
              escaped on_close cid st = [e]
          end
      | None =>
          clients h = registry_of st /\ sent h = [] /\ escaped on_close cid st = []
      end
  end.
Proof.
  unfold run_handler, escaped. destruct cid as [k|].
  - destruct (map_get k (registry_of st)) as [client|] eqn:Eg.
    + destruct (String.eqb_spec k "") as [->|Hk].
      * split; [reflexivity|]. split; [reflexivity|]. intros H; contradiction.
      * destruct (to_string_error_val (role client) (join_depth rt)) as [e|] eqn:Ep.
        -- rewrite (on_close_throws k client _ e) by assumption. simpl. auto.
        -- rewrite (on_close_registered k client) by assumption. simpl. auto.
    + rewrite on_close_missing by assumption. simpl. auto.
  - rewrite on_close_null. simpl. auto.
Qed.

(** Whatever the close listener does, it leaves the registry as it is or
    deletes the entry under the socket's [clientId]. *)
Lemma close_registry cid st :
  let h := run_handler on_close cid st in
  clients h = registry_of st \/
  exists k, cid = Some k /\ k <> "" /\ clients h = map_delete k (registry_of st).
Proof.
  cbv zeta. destruct (close_effect cid st) as (_ & _ & H).
  destruct cid as [k|]; [|left; tauto].
  destruct (String.eqb_spec k "") as [->|Hk]; [left; reflexivity|].
  specialize (H Hk).
  destruct (map_get k (registry_of st)) as [client|]; [|left; tauto].
  destruct (to_string_error_val (role client) (join_depth rt)); [left; tauto|].
  right. exists k. tauto.
Qed.

Lemma close_logs_nothing cid st : logged (run_handler on_close cid st) = [].
Proof. apply close_effect. Qed.

Lemma ids_of_cons ev tr c : ids_of (ev :: tr) c = (assigned c ev ++ ids_of tr c)%list.
Proof. reflexivity. Qed.

Lemma ids_of_generated tr c k :
  In k (ids_of tr c) -> exists now rnd, k = generateId now rnd.
Proof.
  unfold ids_of. rewrite in_flat_map. intros [ev [_ Hk]].
  destruct ev as [|c' data now rnd|]; simpl in Hk; try contradiction.
  destruct (Nat.eqb c' c && is_register data); simpl in Hk; [|contradiction].
  destruct Hk as [<-|[]]. eauto.
Qed.

(** The [clientId] of an open socket is the latest id it was assigned, and
    [null] if it was assigned none; a socket not yet connected was assigned
    none. *)
Lemma clientId_is_latest ok tr st :
  reaches ok tr st ->
  forall c,
    match sockets st c with
    | None => ids_of tr c = []
    | Some (Open cid) => cid = hd_error (ids_of tr c)
    | Some Closed => True
    end.
Proof.
  induction 1 as [|tr st ev st' Hr IH Hok Hstep]; intros c; [reflexivity|].
  specialize (IH c). rewrite ids_of_cons.
  destruct ev as [c0|c0 data now rnd|c0]; unfold step in Hstep.
  - destruct (sockets st c0) eqn:E0; [discriminate|]. injection Hstep as <-. simpl.
    destruct (Nat.eq_dec c c0) as [->|Hne].
    + rewrite upd_eq. rewrite E0 in IH. now rewrite IH.
    + now rewrite upd_neq.
  - destruct (sockets st c0) as [[cid|]|] eqn:E0; try discriminate.
    injection Hstep as <-. cbn [sockets assigned].
    destruct (Nat.eq_dec c c0) as [->|Hne].
    + rewrite upd_eq, Nat.eqb_refl. rewrite E0 in IH.
      destruct (message_effect c0 cid st data now rnd)
        as [[Er (props & _ & Hc & _)]|[Er [Hc _]]]; rewrite Er, Hc; simpl.
      * reflexivity.
      * exact IH.
    + rewrite upd_neq by assumption.
      destruct (Nat.eqb_spec c0 c); [congruence | exact IH].
  - destruct (sockets st c0) as [[cid|]|] eqn:E0; try discriminate.
    injection Hstep as <-. cbn [sockets assigned app].
    destruct (Nat.eq_dec c c0) as [->|Hne].
    + now rewrite upd_eq.
    + now rewrite upd_neq.
Qed.

Lemma clientId_nonempty ok tr st c k :
  reaches ok tr st -> sockets st c = Some (Open (Some k)) -> k <> "".
Proof.
  intros Hr Hc. pose proof (clientId_is_latest ok tr st Hr c) as H.
  rewrite Hc in H.
  destruct (ids_of_generated tr c k) as (now & rnd & ->).
  - destruct (ids_of tr c); simpl in H; [discriminate|]. injection H as ->. now left.
  - apply generateId_nonempty.
Qed.


Lemma with_role_In r reg cl :
  In cl (with_role r reg) <-> In cl (map_values reg) /\ role cl = Some (JStr r).
Proof.
  unfold with_role, map_values. rewrite filter_In.
  destruct (role cl) as [[| | |s| |]|]; try (split; intros [? ?]; discriminate).
  destruct (String.eqb_spec s r) as [->|Hne]; [tauto|].
  split; intros [? E]; [discriminate | congruence].
Qed.

(** ** Lists of clients *)

Lemma NoDup_map_filter {A B : Type} (f : A -> B) (p : A -> bool) (l : list A) :
  NoDup (List.map f l) -> NoDup (List.map f (filter p l)).
Proof.
  induction l as [|x l IH]; simpl; intros H; [constructor|].
  inversion H as [|? ? Hx Hl]; subst.
  destruct (p x); simpl; [constructor|]; auto.
  intros Hin. apply Hx. apply in_map_iff in Hin as (y & Hy & Hiny).
  apply in_map_iff. exists y. split; [assumption|]. apply filter_In in Hiny. tauto.
Qed.

Lemma NoDup_map_inj {A B : Type} (f : A -> B) (l : list A) x y :
  NoDup (List.map f l) -> In x l -> In y l -> f x = f y -> x = y.
Proof.
  induction l as [|z l IH]; simpl; intros H Hx Hy E; [contradiction|].
  inversion H as [|? ? Hz Hl]; subst.
  destruct Hx as [->|Hx], Hy as [->|Hy]; auto.
  - exfalso. apply Hz. rewrite E. now apply in_map.
  - exfalso. apply Hz. rewrite <- E. now apply in_map.
Qed.

Lemma received_once {A : Type} (to : A -> conn) (text : A -> json) (l : list A) x :
  NoDup (List.map to l) -> In x l ->
  List.length (received (to x) (List.map (fun y => (to y, text y)) l)) = 1.
Proof.
  unfold received. induction l as [|y l IH]; simpl; intros H Hx; [contradiction|].
  inversion H as [|? ? Hy Hl]; subst.
  destruct (Nat.eqb_spec (to y) (to x)) as [E|E].
  - simpl. f_equal.
    assert (Hnone : forall l', ~ In (to x) (List.map to l') ->
              filter (fun m => Nat.eqb (fst m) (to x))
                (List.map (fun y => (to y, text y)) l') = []).
    { induction l' as [|z l' IH']; simpl; intros Hn; [reflexivity|].
      destruct (Nat.eqb_spec (to z) (to x)); [exfalso; auto|]. apply IH'. auto. }
    rewrite Hnone; [reflexivity|]. now rewrite <- E.
  - destruct Hx as [->|Hx]; [contradiction|]. now apply IH.
Qed.

(** ** Disconnection *)

(** The step taken when the socket of a registered client whose role can
    be printed closes. *)
Lemma step_close_registered st c k client :
  k <> "" ->
  sockets st c = Some (Open (Some k)) ->
  map_get k (registry_of st) = Some client ->
  printable (role client) ->
  step st (Close c) =
  Some (mkServer (map_delete k (registry_of st)) (upd (sockets st) c Closed)
          (outbox st ++ close_sends k (role client) (registry_of st))
          (stderr st) (uncaught st)).
Proof.
  intros Hk Hc Hg Hp. rewrite (step_close st c (Some k) Hc). cbv zeta.
  destruct (close_effect (Some k) st) as (_ & Hl & He). specialize (He Hk).
  rewrite Hg, Hp in He. destruct He as (Hcl & Hs & Hu).
  now rewrite Hcl, Hs, Hu, Hl, !app_nil_r.
Qed.


(** C8. When a socket that never completed a [register] closes, nothing is
    sent and the registry after the close is the registry before it. *)
Theorem close_unregistered_is_silent tr st c cid :
  reachable tr st ->
  sockets st c = Some (Open cid) ->
  ids_of tr c = [] ->
  exists st',
    step st (Close c) = Some st' /\
    outbox st' = outbox st /\
    registry_of st' = registry_of st /\
    stderr st' = stderr st.
Proof.
  intros Hr Hc Hids.
  pose proof (clientId_is_latest _ tr st Hr c) as H. rewrite Hc, Hids in H.
  simpl in H. subst cid.
  rewrite (step_close st c None Hc). eexists. split; [reflexivity|].
  cbv zeta. unfold run_handler. rewrite on_close_null. simpl.
  now rewrite !app_nil_r.
Qed.

(** ** Registration *)

Lemma is_register_obj props :
  assoc "type" props = Some (JStr "register") ->
  is_str (assoc "type" props) "register" = true.
Proof. intros ->. reflexivity. Qed.

Lemma get_prop_str_inv msg key v :
  get_prop msg key = inr (Some v) -> exists props, msg = JObj props.
Proof. destruct msg; simpl; try discriminate. eauto. Qed.

(** The step taken on a [register]. *)
Lemma step_register st c cid props now rnd :
  sockets st c = Some (Open cid) ->
  assoc "type" props = Some (JStr "register") ->
  let k := generateId now rnd in
  let cl' := map_set k (new_client c now rnd props) (registry_of st) in
  step st (Message c (Parsed (JObj props)) now rnd) =
  Some (mkServer cl' (upd (sockets st) c (Open (Some k)))
          (outbox st ++ register_sends c k props cl')
          (stderr st ++ register_errors props k)
          (uncaught st)).
Proof.
  intros Hc Hty. cbv zeta. rewrite (step_message st c cid) by assumption.
  cbv zeta. unfold run_handler.
  rewrite on_message_register by (now apply is_register_obj).
  cbv zeta. cbn [snd clients clientId sent logged]. reflexivity.
Qed.

(** ** Registration fan-out *)

Lemma request_offers_tagged {A : Type} (to : A -> conn) (monitorId : A -> string)
    (l : list A) :
  request_offers (List.map (fun x => (to x, tagged "request-offer" "monitorId" (monitorId x))) l) =
  List.map (fun x => (to x, tagged "request-offer" "monitorId" (monitorId x))) l.
Proof.
  unfold request_offers. induction l as [|x l IH]; simpl; [reflexivity|].
  now rewrite IH.
Qed.

Lemma with_role_cons r k v reg :
  with_role r ((k, v) :: reg) =
  if is_str (role v) r then v :: with_role r reg else with_role r reg.
Proof. reflexivity. Qed.

Lemma is_str_false v s : v <> Some (JStr s) -> is_str v s = false.
Proof.
  destruct v as [[| | |s'| |]|]; simpl; try reflexivity.
  intros H. destruct (String.eqb_spec s' s); [congruence | reflexivity].
Qed.

Lemma is_str_eq v s : is_str v s = true <-> v = Some (JStr s).
Proof.
  split; [|intros ->; simpl; apply String.eqb_refl].
  destruct v as [[| | |s'| |]|]; simpl; try discriminate.
  intros H. apply String.eqb_eq in H. now subst.
Qed.

(** Writing an entry whose role is not [r] over an entry whose role is not
    [r], or under a new key, leaves the entries of role [r] as they are. *)
Lemma with_role_set_other r k v reg :
  role v <> Some (JStr r) ->
  (forall old, map_get k reg = Some old -> role old <> Some (JStr r)) ->
  with_role r (map_set k v reg) = with_role r reg.
Proof.
  intros Hv. unfold map_get.
  induction reg as [|[k' v'] reg IH]; intros Hold; cbn [map_set].
  - rewrite with_role_cons, is_str_false by assumption. reflexivity.
  - cbn [assoc] in Hold. destruct (String.eqb k' k).
    + rewrite !with_role_cons, is_str_false by assumption.
      rewrite is_str_false by (now apply Hold). reflexivity.
    + rewrite !with_role_cons, IH by assumption. reflexivity.
Qed.

Lemma map_values_set k v m x :
  In x (map_values (map_set k v m)) -> x = v \/ In x (map_values m).
Proof.
  unfold map_values. induction m as [|[k' v'] m IH]; simpl.
  - intros [<-|[]]. now left.
  - destruct (String.eqb k' k); simpl.
    + intros [<-|H]; auto.
    + intros [<-|H]; auto. destruct (IH H); auto.
Qed.

(** C3, as amended.  A [register] with role "monitor", with a name that the
    log line can print and a new id that is not the key of a camera's
    entry, is answered with [registered] and then sends one request-offer
    per entry of role camera, in registry order, to the socket of that
    entry, each with the new id as [monitorId]: N camera entries give N
    request-offers.  When the camera entries have distinct sockets, each of
    these sockets receives exactly one; when moreover none of these sockets
    is the registering socket or the socket of a monitor's entry, no
    request-offer goes to the socket of a monitor. *)
Theorem monitor_register_requests_offers st c cid msg now rnd (N : nat) :
  sockets st c = Some (Open cid) ->
  get_prop msg "type" = inr (Some (JStr "register")) ->
  get_prop msg "role" = inr (Some (JStr "monitor")) ->
  (forall n, get_prop msg "name" = inr n -> printable (Some (js_or n (JStr "N/A")))) ->
  (forall old, map_get (generateId now rnd) (registry_of st) = Some old ->
     role old <> Some (JStr "camera")) ->
  List.length (with_role "camera" (registry_of st)) = N ->
  exists st' out,
    step st (Message c (Parsed msg) now rnd) = Some st' /\
    outbox st' = (outbox st ++ out)%list /\
    stderr st' = stderr st /\
    out = (c, tagged "registered" "id" (generateId now rnd))
          :: List.map (fun cam =>
                         (ws cam, tagged "request-offer" "monitorId" (generateId now rnd)))
               (with_role "camera" (registry_of st)) /\
    List.length (request_offers out) = N /\
    List.map fst (request_offers out) =
      List.map ws (with_role "camera" (registry_of st)) /\
    (forall m, In m (request_offers out) ->
       get_prop (snd m) "monitorId" = inr (Some (JStr (generateId now rnd)))) /\
    (NoDup (List.map ws (with_role "camera" (registry_of st))) ->
     forall cam, In cam (with_role "camera" (registry_of st)) ->
       List.length (received (ws cam) (request_offers out)) = 1) /\
    ((forall cam, In cam (with_role "camera" (registry_of st)) -> ws cam <> c) ->
     (forall cam monitor,
        In cam (with_role "camera" (registry_of st)) ->
        In monitor (with_role "monitor" (registry_of st)) -> ws cam <> ws monitor) ->
     forall monitor m,
       In monitor (with_role "monitor" (registry_of st')) ->
       In m (request_offers out) -> fst m <> ws monitor).
Proof.
  intros Hc Hty Hrole Hname Hfresh HN.
  destruct (get_prop_str_inv _ _ _ Hty) as [props ->].
  simpl in Hty, Hrole. injection Hty as Hty. injection Hrole as Hrole.
  rewrite (step_register st c cid props now rnd Hc Hty). cbv zeta.
  set (k := generateId now rnd) in *.
  set (v := new_client c now rnd props).
  assert (Hlog : register_log props k = None).
  { apply register_log_none. split; [rewrite Hrole; reflexivity|].
    apply Hname. reflexivity. }
  assert (Hv : role v = Some (JStr "monitor")) by exact Hrole.
  assert (Hcams : with_role "camera" (map_set k v (registry_of st)) =
                  with_role "camera" (registry_of st)).
  { apply with_role_set_other; [rewrite Hv; discriminate | exact Hfresh]. }
  assert (Hout : register_sends c k props (map_set k v (registry_of st)) =
                 (c, tagged "registered" "id" k)
                 :: List.map (fun cam => (ws cam, tagged "request-offer" "monitorId" k))
                      (with_role "camera" (registry_of st))).
  { unfold register_sends, register_fanout. rewrite Hlog, Hrole, Hcams. simpl.
    now rewrite app_nil_r. }
  eexists. eexists. split; [reflexivity|]. cbn [outbox registry_of stderr].
  split; [reflexivity|].
  split; [unfold register_errors; rewrite Hlog; apply app_nil_r|].
  split; [exact Hout|]. rewrite Hout.
  assert (Hro : request_offers
                  ((c, tagged "registered" "id" k)
                   :: List.map (fun cam => (ws cam, tagged "request-offer" "monitorId" k))
                        (with_role "camera" (registry_of st))) =
                List.map (fun cam => (ws cam, tagged "request-offer" "monitorId" k))
                  (with_role "camera" (registry_of st))).
  { change (request_offers (?x :: ?l)) with (request_offers l).
    apply (request_offers_tagged ws (fun _ => k)). }
  rewrite Hro.
  split; [now rewrite length_map|].
  split; [now rewrite map_map|].
  split.
  { intros m Hm. apply in_map_iff in Hm as (cam & <- & _). reflexivity. }
  split.
  { intros Hnd cam Hcam.
    apply (received_once ws (fun _ => tagged "request-offer" "monitorId" k));
      assumption. }
  intros Hself Hdisj monitor m Hmon Hm.
  apply in_map_iff in Hm as (cam & <- & Hcam). cbn [fst].
  apply with_role_In in Hmon as [Hmon_in Hmon_role].
  apply map_values_set in Hmon_in as [->|Hmon_in].
  - now apply Hself.
  - apply Hdisj; [assumption|]. apply with_role_In. auto.
Qed.

(** C4, as amended.  A [register] with role "camera", with a name that the
    log line can print and a new id that is not the key of a monitor's
    entry, is answered with [registered] and then sends, all to the
    registering socket, one request-offer per entry of role monitor, in
    registry order, each with the [id] of that entry as [monitorId]: M
    monitor entries give M request-offers.  When the registering socket is
    not the socket of a monitor's entry, no message goes to the socket of a
    monitor. *)
Theorem camera_register_requests_offers st c cid msg now rnd (M : nat) :
  sockets st c = Some (Open cid) ->
  get_prop msg "type" = inr (Some (JStr "register")) ->
  get_prop msg "role" = inr (Some (JStr "camera")) ->
  (forall n, get_prop msg "name" = inr n -> printable (Some (js_or n (JStr "N/A")))) ->
  (forall old, map_get (generateId now rnd) (registry_of st) = Some old ->
     role old <> Some (JStr "monitor")) ->
  List.length (with_role "monitor" (registry_of st)) = M ->
  exists st' out,
    step st (Message c (Parsed msg) now rnd) = Some st' /\
    outbox st' = (outbox st ++ out)%list /\
    stderr st' = stderr st /\
    out = (c, tagged "registered" "id" (generateId now rnd))
          :: List.map (fun monitor => (c, tagged "request-offer" "monitorId" (id monitor)))
               (with_role "monitor" (registry_of st)) /\
    List.length (request_offers out) = M /\
    (forall m, In m out -> fst m = c) /\
    List.map (fun m => get_prop (snd m) "monitorId") (request_offers out) =
      List.map (fun monitor => inr (Some (JStr (id monitor))))
        (with_role "monitor" (registry_of st)) /\
    ((forall monitor, In monitor (with_role "monitor" (registry_of st)) -> ws monitor <> c) ->
     forall monitor m,
       In monitor (with_role "monitor" (registry_of st)) -> In m out -> fst m <> ws monitor).
Proof.
  intros Hc Hty Hrole Hname Hfresh HM.
  destruct (get_prop_str_inv _ _ _ Hty) as [props ->].
  simpl in Hty, Hrole. injection Hty as Hty. injection Hrole as Hrole.
  rewrite (step_register st c cid props now rnd Hc Hty). cbv zeta.
  set (k := generateId now rnd) in *.
  set (v := new_client c now rnd props).
  assert (Hlog : register_log props k = None).
  { apply register_log_none. split; [rewrite Hrole; reflexivity|].
    apply Hname. reflexivity. }
  assert (Hv : role v = Some (JStr "camera")) by exact Hrole.
  assert (Hmons : with_role "monitor" (map_set k v (registry_of st)) =
                  with_role "monitor" (registry_of st)).
  { apply with_role_set_other; [rewrite Hv; discriminate | exact Hfresh]. }
  assert (Hout : register_sends c k props (map_set k v (registry_of st)) =
                 (c, tagged "registered" "id" k)
                 :: List.map (fun monitor => (c, tagged "request-offer" "monitorId" (id monitor)))
                      (with_role "monitor" (registry_of st))).
  { unfold register_sends, register_fanout. rewrite Hlog, Hrole, Hmons. reflexivity. }
  eexists. eexists. split; [reflexivity|]. cbn [outbox registry_of stderr].
  split; [reflexivity|].
  split; [unfold register_errors; rewrite Hlog; apply app_nil_r|].
  split; [exact Hout|]. rewrite Hout.
  assert (Hro : request_offers
                  ((c, tagged "registered" "id" k)
                   :: List.map (fun monitor =>
                                  (c, tagged "request-offer" "monitorId" (id monitor)))
                        (with_role "monitor" (registry_of st))) =
                List.map (fun monitor => (c, tagged "request-offer" "monitorId" (id monitor)))
                  (with_role "monitor" (registry_of st))).
  { change (request_offers (?x :: ?l)) with (request_offers l).
    apply (request_offers_tagged (fun _ => c) id). }
  rewrite Hro.
  assert (Hto : forall m,
            In m ((c, tagged "registered" "id" k)
                  :: List.map (fun monitor =>
                                 (c, tagged "request-offer" "monitorId" (id monitor)))
                       (with_role "monitor" (registry_of st))) -> fst m = c).
  { intros m [<-|Hm]; [reflexivity|].
    apply in_map_iff in Hm as (x & <- & _). reflexivity. }
  split; [now rewrite length_map|].
  split; [exact Hto|].
  split; [rewrite map_map; apply map_ext; intros x; reflexivity|].
  intros Hself monitor m Hmon Hm E. apply (Hself monitor Hmon).
  rewrite <- E. now apply Hto.
Qed.

(** ** Which ids the registry holds *)

Lemma reaches_mono (ok ok' : server -> event -> Prop) tr st :
  (forall s ev, ok s ev -> ok' s ev) -> reaches ok tr st -> reaches ok' tr st.
Proof.
  intros Himp. induction 1; [constructor | econstructor; eauto].
Qed.

Lemma reachable_clean_fresh tr st : reachable_clean tr st -> reachable_fresh tr st.
Proof. apply reaches_mono. intros s ev [H _]. exact H. Qed.

Lemma close_registry_shrinks cid st k :
  In k (map_keys (clients (run_handler on_close cid st))) ->
  In k (map_keys (registry_of st)).
Proof.
  destruct (close_registry cid st) as [Hcl|(k0 & _ & _ & Hcl)]; rewrite Hcl; [tauto|].
  rewrite map_keys_delete. tauto.
Qed.

(** Every key of the registry was generated by a [register] of the trace. *)
Lemma keys_are_stamped ok tr st :
  reaches ok tr st ->
  forall k, In k (map_keys (registry_of st)) ->
  exists t s, In (t, s) (stamps tr) /\ k = toString36 t ++ s.
Proof.
  induction 1 as [|tr st ev st' Hr IH Hok Hstep]; intros k Hk; [contradiction|].
  assert (Hold : In k (map_keys (registry_of st)) ->
                 exists t s, In (t, s) (stamps (ev :: tr)) /\ k = toString36 t ++ s).
  { intros H. destruct (IH k H) as (t & s & Hin & ->). exists t, s.
    split; [|reflexivity]. unfold stamps. simpl. apply in_or_app. now right. }
  destruct ev as [c0|c0 data now rnd|c0]; unfold step in Hstep.
  - destruct (sockets st c0); [discriminate|]. injection Hstep as <-. auto.
  - destruct (sockets st c0) as [[cid|]|]; try discriminate. injection Hstep as <-.
    simpl in Hk.
    destruct (message_effect c0 cid st data now rnd)
      as [[Er (props & _ & _ & Hcl & _)]|[Er [_ Hcl]]]; rewrite Hcl in Hk.
    + apply map_keys_set in Hk as [->|Hk]; [|auto].
      exists now, (substr 2 9 rnd). split; [|reflexivity].
      unfold stamps. simpl. rewrite Er. now left.
    + auto.
  - destruct (sockets st c0) as [[cid|]|]; try discriminate. injection Hstep as <-.
    simpl in Hk. apply close_registry_shrinks in Hk. auto.
Qed.

(** C2, as amended.  With clock readings of eight base-36 digits, a
    [register] whose (millisecond, random suffix) pair differs from the pair
    of every earlier [register] produces an id that is not a key of the
    registry, and its entry is added after the others. *)
Theorem register_id_is_new tr st c cid data now rnd :
  reachable tr st ->
  sockets st c = Some (Open cid) ->
  is_register data = true ->
  eight_digits now ->
  (forall t s, In (t, s) (stamps tr) -> eight_digits t /\ (t, s) <> (now, substr 2 9 rnd)) ->
  map_get (generateId now rnd) (registry_of st) = None /\
  exists st',
    step st (Message c data now rnd) = Some st' /\
    map_keys (registry_of st') = (map_keys (registry_of st) ++ [generateId now rnd])%list.
Proof.
  intros Hr Hc Hreg Hnow Hstamps.
  assert (Hfresh : map_get (generateId now rnd) (registry_of st) = None).
  { apply assoc_none_keys. intros Hin.
    destruct (keys_are_stamped _ tr st Hr _ Hin) as (t & s & Hts & E).
    destruct (Hstamps t s Hts) as [Ht Hne]. apply Hne.
    unfold generateId in E. apply append_inj_length in E.
    - destruct E as [E1 E2]. apply toString36_inj in E1. congruence.
    - now rewrite !length_toString36_eight. }
  split; [exact Hfresh|].
  destruct (is_register_inv data Hreg) as [props [-> Hty]].
  rewrite (step_message st c cid) by assumption. cbv zeta.
  eexists. split; [reflexivity|]. cbn [registry_of]. unfold run_handler.
  rewrite on_message_register by assumption. cbv zeta. cbn [snd clients].
  rewrite map_set_fresh by assumption. unfold map_keys. now rewrite map_app.
Qed.

(** An event that changes neither the registry nor the live ids keeps the
    invariant. *)
Lemma live_ids_inv_same tr st tr' st' :
  live_ids_inv tr st ->
  registry_of st' = registry_of st ->
  (forall c, ids_of tr' c = ids_of tr c) ->
  (forall c, live tr' st' c = live tr st c) ->
  live_ids_inv tr' st'.
Proof.
  intros (I1 & I2 & I3 & I4 & I5) Hreg Hids Hlive. split; [|split; [|split; [|split]]].
  - intros k. rewrite Hreg, I1. split; intros [c Hc]; exists c.
    + now rewrite Hlive.
    + now rewrite <- Hlive.
  - intros c. now rewrite Hids.
  - intros c c' k. rewrite !Hlive. apply I3.
  - intros k client. rewrite Hreg, Hlive. apply I4.
  - intros k client. rewrite Hreg. apply I5.
Qed.

Lemma in_live_ids tr st c k : In k (live tr st c) -> In k (ids_of tr c).
Proof.
  unfold live, live_of. destruct (sockets st c) as [[cid|]|]; simpl; try tauto.
  destruct (ids_of tr c); simpl; tauto.
Qed.

(** With ids that are new when they are generated and roles that can be
    printed, the keys of the registry are the live ids, no socket was
    assigned an id twice, no id is live for two sockets, and the role of
    every entry can be printed. *)
Lemma live_ids_invariant tr st : reachable_clean tr st -> live_ids_inv tr st.
Proof.
  induction 1 as [|tr st ev st' Hr IH Hok Hstep].
  - split; [|split; [|split; [|split]]].
    + intros k. simpl. split; [contradiction | intros [c []]].
    + intros c. constructor.
    + intros c c' k [].
    + intros k client. discriminate.
    + intros k client. discriminate.
  - pose proof (clientId_is_latest _ tr st Hr) as L.
    destruct ev as [c0|c0 data now rnd|c0].
    + (* connection *)
      unfold step in Hstep.
      destruct (sockets st c0) eqn:E0; [discriminate|]. injection Hstep as <-.
      apply (live_ids_inv_same tr st); auto.
      intros c. unfold live. cbn [sockets]. rewrite ids_of_cons. simpl.
      destruct (Nat.eq_dec c c0) as [->|Hne].
      * rewrite upd_eq. specialize (L c0). rewrite E0 in *. now rewrite L.
      * now rewrite upd_neq.
    + (* message *)
      destruct (sockets st c0) as [[cid|]|] eqn:E0;
        try (unfold step in Hstep; rewrite E0 in Hstep; discriminate).
      rewrite (step_message st c0 cid) in Hstep by assumption.
      injection Hstep as <-.
      destruct (message_effect c0 cid st data now rnd)
        as [[Er (props & Hdata & Hcid & Hcl & _)]|[Er [Hcid Hcl]]].
      * (* register *)
        destruct Hok as [Hfresh Hprint].
        specialize (Hfresh Er). specialize (Hprint Er). simpl in Hfresh.
        apply assoc_none_keys in Hfresh. fold (map_keys (registry_of st)) in Hfresh.
        destruct IH as (I1 & I2 & I3 & I4 & I5).
        set (k := generateId now rnd) in *.
        assert (Hids : forall c, ids_of (Message c0 data now rnd :: tr) c =
                         if Nat.eqb c0 c then k :: ids_of tr c else ids_of tr c).
        { intros c. rewrite ids_of_cons. simpl. rewrite Er.
          destruct (Nat.eqb c0 c); reflexivity. }
        match goal with |- live_ids_inv _ ?s => remember s as st' eqn:Est' end.
        assert (Hsock : sockets st' = upd (sockets st) c0 (Open (Some k)))
          by (subst st'; cbn [sockets]; now rewrite Hcid).
        assert (Hreg : registry_of st' =
                       map_set k (new_client c0 now rnd props) (registry_of st))
          by (subst st'; exact Hcl).
        clear Est'.
        assert (Hlive : forall c x,
                  In x (live (Message c0 data now rnd :: tr) st' c)
                  <-> (c = c0 /\ x = k) \/ In x (live tr st c)).
        { intros c x. unfold live. rewrite Hsock, Hids.
          destruct (Nat.eq_dec c c0) as [->|Hne].
          - rewrite upd_eq, Nat.eqb_refl, E0. simpl. intuition.
          - rewrite upd_neq by assumption.
            destruct (Nat.eqb_spec c0 c); [congruence|]. intuition. }
        assert (Hnew : forall c, ~ In k (live tr st c)).
        { intros c Hin. apply Hfresh. apply I1. eauto. }
        split; [|split; [|split; [|split]]].
        -- intros x. rewrite Hreg, map_keys_set, I1. split.
           ++ intros [->|[c Hc]]; [exists c0 | exists c]; apply Hlive; auto.
           ++ intros [c Hc]. apply Hlive in Hc as [[_ ->]|Hc]; eauto.
        -- intros c. rewrite Hids. destruct (Nat.eqb_spec c0 c) as [<-|]; [|apply I2].
           constructor; [|apply I2]. intros Hin. apply (Hnew c0).
           unfold live. now rewrite E0.
        -- intros c c' x Hx Hx'. apply Hlive in Hx, Hx'.
           destruct Hx as [[-> ->]|Hx], Hx' as [[-> E']|Hx']; auto.
           ++ exfalso. now apply (Hnew c').
           ++ subst x. exfalso. now apply (Hnew c).
           ++ eapply I3; eauto.
        -- intros x client. rewrite Hreg. intros Hg. apply Hlive.
           destruct (String.eqb_spec k x) as [<-|Hne].
           ++ rewrite map_get_set_same in Hg. injection Hg as <-. now left.
           ++ rewrite map_get_set_other in Hg by assumption. right. now apply I4.
        -- intros x client. rewrite Hreg. intros Hg.
           destruct (String.eqb_spec k x) as [<-|Hne].
           ++ rewrite map_get_set_same in Hg. injection Hg as <-.
              subst data. exact Hprint.
           ++ rewrite map_get_set_other in Hg by assumption. now apply (I5 x).
      * (* any other message *)
        apply (live_ids_inv_same tr st); auto.
        -- intros c. rewrite ids_of_cons. simpl. rewrite Er, andb_false_r. reflexivity.
        -- intros c. unfold live. cbn [sockets]. rewrite ids_of_cons. simpl.
           rewrite Er, andb_false_r, Hcid. simpl.
           now rewrite (upd_same _ _ _ E0).
    + (* close *)
      destruct (sockets st c0) as [[cid|]|] eqn:E0;
        try (unfold step in Hstep; rewrite E0 in Hstep; discriminate).
      rewrite (step_close st c0 cid) in Hstep by assumption.
      injection Hstep as <-.
      pose proof (L c0) as L0. rewrite E0 in L0.
      destruct (close_effect cid st) as (_ & _ & He).
      destruct cid as [k|].
      * pose proof (clientId_nonempty _ tr st c0 k Hr E0) as Hk.
        specialize (He Hk).
        destruct (ids_of tr c0) as [|k' rest] eqn:Eids; [discriminate|].
        simpl in L0. injection L0 as <-.
        destruct IH as (I1 & I2 & I3 & I4 & I5).
        assert (Hcl : clients (run_handler on_close (Some k) st) =
                      map_delete k (registry_of st)).
        { destruct (map_get k (registry_of st)) as [client|] eqn:Eg.
          - rewrite (I5 k client Eg) in He. tauto.
          - rewrite map_delete_absent by assumption. tauto. }
        match goal with |- live_ids_inv _ ?s => remember s as st' eqn:Est' end.
        assert (Hsock : sockets st' = upd (sockets st) c0 Closed)
          by (subst st'; reflexivity).
        assert (Hreg : registry_of st' = map_delete k (registry_of st))
          by (subst st'; exact Hcl).
        clear Est'.
        assert (Hlive : forall c x,
                  In x (live (Close c0 :: tr) st' c)
                  <-> x <> k /\ In x (live tr st c)).
        { intros c x. unfold live. rewrite Hsock, ids_of_cons. simpl.
          destruct (Nat.eq_dec c c0) as [->|Hne].
          - rewrite upd_eq, E0, Eids. simpl.
            pose proof (I2 c0) as Hnd. rewrite Eids in Hnd.
            inversion Hnd as [|? ? Hnotin _]; subst. split.
            + intros Hx. split; [intros ->; contradiction | now right].
            + intros [Hne [->|Hx]]; [contradiction | assumption].
          - rewrite upd_neq by assumption. split; [|tauto].
            intros Hx. split; [|assumption]. intros ->.
            apply Hne. apply (I3 c c0 k); [assumption|].
            unfold live. rewrite E0, Eids. now left. }
        split; [|split; [|split; [|split]]].
        -- intros x. rewrite Hreg, map_keys_delete, I1. split.
           ++ intros [Hne [c Hc]]. exists c. apply Hlive. auto.
           ++ intros [c Hc]. apply Hlive in Hc as [Hne Hc]. eauto.
        -- intros c. rewrite ids_of_cons. apply I2.
        -- intros c c' x Hx Hx'. apply Hlive in Hx as [_ Hx], Hx' as [_ Hx'].
           eapply I3; eauto.
        -- intros x client. rewrite Hreg. intros Hg. apply Hlive.
           destruct (String.eqb_spec k x) as [<-|Hne].
           ++ rewrite map_get_delete_same in Hg. discriminate.
           ++ rewrite map_get_delete_other in Hg by assumption. split; [congruence|].
              now apply I4.
        -- intros x client. rewrite Hreg. intros Hg.
           destruct (String.eqb_spec k x) as [<-|Hne].
           ++ rewrite map_get_delete_same in Hg. discriminate.
           ++ rewrite map_get_delete_other in Hg by assumption. now apply (I5 x).
      * destruct He as [Hcl _].
        apply (live_ids_inv_same tr st); auto.
        intros c. unfold live. cbn [sockets]. rewrite ids_of_cons. simpl.
        destruct (Nat.eq_dec c c0) as [->|Hne].
        -- rewrite upd_eq, E0. simpl in L0.
           destruct (ids_of tr c0); [reflexivity | discriminate].
        -- now rewrite upd_neq.
Qed.

(** ** Sockets that register once *)

Lemma map_set_keys_nodup k v m :
  NoDup (map_keys m) -> NoDup (map_keys (map_set k v m)).
Proof.
  unfold map_keys. induction m as [|[k' v'] m IH]; simpl; intros H.
  - constructor; [tauto | constructor].
  - inversion H as [|? ? Hk' Hm]; subst.
    destruct (String.eqb_spec k' k) as [->|Hne]; simpl.
    + constructor; assumption.
    + constructor; [|auto]. intros Hin.
      apply (map_keys_set k v m k') in Hin as [E|Hin]; [congruence | contradiction].
Qed.


(** The registry never holds a key twice. *)
Lemma registry_keys_nodup ok tr st :
  reaches ok tr st -> NoDup (map_keys (registry_of st)).
Proof.
  induction 1 as [|tr st ev st' Hr IH Hok Hstep]; [constructor|].
  destruct ev as [c0|c0 data now rnd|c0]; unfold step in Hstep.
  - destruct (sockets st c0); [discriminate|]. now injection Hstep as <-.
  - destruct (sockets st c0) as [[cid|]|]; try discriminate. injection Hstep as <-.
    cbn [registry_of].
    destruct (message_effect c0 cid st data now rnd)
      as [[_ (props & _ & _ & Hcl & _)]|[_ [_ Hcl]]]; rewrite Hcl.
    + now apply map_set_keys_nodup.
    + assumption.
  - destruct (sockets st c0) as [[cid|]|]; try discriminate. injection Hstep as <-.
    cbn [registry_of].
    destruct (close_registry cid st) as [Hcl|(k & _ & _ & Hcl)]; rewrite Hcl; [assumption|].
    unfold map_keys, map_delete. now apply NoDup_map_filter.
Qed.

(** The [id] of an entry is the key it is stored under. *)
Lemma entry_id_is_key ok tr st :
  reaches ok tr st ->
  forall k client, map_get k (registry_of st) = Some client -> id client = k.
Proof.
  induction 1 as [|tr st ev st' Hr IH Hok Hstep]; intros k client Hg; [discriminate|].
  destruct ev as [c0|c0 data now rnd|c0]; unfold step in Hstep.
  - destruct (sockets st c0); [discriminate|]. injection Hstep as <-. now apply IH.
  - destruct (sockets st c0) as [[cid|]|]; try discriminate. injection Hstep as <-.
    cbn [registry_of] in Hg.
    destruct (message_effect c0 cid st data now rnd)
      as [[_ (props & _ & _ & Hcl & _)]|[_ [_ Hcl]]]; rewrite Hcl in Hg.
    + destruct (String.eqb_spec (generateId now rnd) k) as [<-|Hne].
      * rewrite map_get_set_same in Hg. now injection Hg as <-.
      * rewrite map_get_set_other in Hg by assumption. now apply IH.
    + now apply IH.
  - destruct (sockets st c0) as [[cid|]|]; try discriminate. injection Hstep as <-.
    cbn [registry_of] in Hg.
    destruct (close_registry cid st) as [Hcl|(k0 & _ & _ & Hcl)]; rewrite Hcl in Hg;
      [now apply IH|].
    destruct (String.eqb_spec k0 k) as [<-|Hne].
    + rewrite map_get_delete_same in Hg. discriminate.
    + rewrite map_get_delete_other in Hg by assumption. now apply IH.
Qed.

Lemma map_get_of_entry k v m :
  NoDup (map_keys m) -> In (k, v) m -> map_get k m = Some v.
Proof.
  unfold map_keys, map_get. induction m as [|[k' v'] m IH]; simpl; intros Hnd Hin;
    [contradiction|].
  inversion Hnd as [|? ? Hk' Hm]; subst.
  destruct Hin as [E|Hin].
  - injection E as -> ->. now rewrite String.eqb_refl.
  - destruct (String.eqb_spec k' k) as [->|_]; [|auto].
    exfalso. apply Hk'. apply in_map_iff. exists (k, v). auto.
Qed.

Lemma NoDup_map_inj_on {A B : Type} (f : A -> B) (l : list A) :
  NoDup l -> (forall x y, In x l -> In y l -> f x = f y -> x = y) ->
  NoDup (List.map f l).
Proof.
  induction l as [|a l IH]; simpl; intros Hnd Hinj; [constructor|].
  inversion Hnd as [|? ? Ha Hl]; subst. constructor.
  - intros Hin. apply in_map_iff in Hin as (y & E & Hy).
    assert (y = a) by (apply Hinj; auto). subst. contradiction.
  - apply IH; auto.
Qed.

(** When ids are new, roles can be printed and no socket has registered
    twice, no socket has two entries, and a socket that has not registered
    has none: the side conditions of C3 and C4 on sockets hold. *)
Lemma one_entry_per_socket tr st :
  reachable_clean tr st ->
  (forall c, List.length (ids_of tr c) <= 1) ->
  NoDup (List.map ws (map_values (registry_of st))) /\
  forall c, ids_of tr c = [] -> ~ In c (List.map ws (map_values (registry_of st))).
Proof.
  intros Hr Hone.
  destruct (live_ids_invariant tr st Hr) as (_ & _ & _ & I4 & _).
  pose proof (registry_keys_nodup _ tr st Hr) as Hkeys.
  assert (Hown : forall k v, In (k, v) (registry_of st) -> In k (ids_of tr (ws v))).
  { intros k v Hin. eapply in_live_ids. apply I4. now apply map_get_of_entry. }
  unfold map_values. rewrite map_map. split.
  - apply NoDup_map_inj_on.
    + unfold map_keys in Hkeys. now apply NoDup_map_inv in Hkeys.
    + intros [k1 v1] [k2 v2] H1 H2 E. simpl in E.
      pose proof (Hown k1 v1 H1) as O1. pose proof (Hown k2 v2 H2) as O2.
      rewrite E in O1. specialize (Hone (ws v2)).
      assert (k1 = k2).
      { destruct (ids_of tr (ws v2)) as [|x [|y rest]]; simpl in *; try lia; intuition congruence. }
      subst k2. apply map_get_of_entry in H1, H2; try assumption. congruence.
  - intros c Hc Hin. apply in_map_iff in Hin as ([k v] & E & Hin). simpl in E. subst c.
    apply Hown in Hin. rewrite Hc in Hin. contradiction.
Qed.

(** C1, as amended.  In every state reached with ids that were new when
    they were generated and with roles that can be printed, an id is a key
    of the registry if and only if it was assigned to a socket that is
    still open, or to a socket that has closed and for which it was not the
    latest id.  So the one id of a socket that registered once is there
    exactly until the socket closes, and the earlier ids of a socket that
    registered again stay after it closes. *)
Theorem registry_tracks_live_ids tr st :
  reachable_clean tr st ->
  forall k,
    In k (map_keys (registry_of st)) <->
    exists c,
      In k (ids_of tr c) /\
      (is_open st c \/
       (sockets st c = Some Closed /\ hd_error (ids_of tr c) <> Some k)).
Proof.
  intros Hr k. destruct (live_ids_invariant tr st Hr) as (I1 & I2 & _).
  rewrite I1. split; intros [c Hc]; exists c.
  - split; [eapply in_live_ids; eauto|].
    unfold live, live_of, is_open in *. specialize (I2 c).
    destruct (sockets st c) as [[cid|]|]; [left; eauto | right | contradiction].
    split; [reflexivity|].
    destruct (ids_of tr c) as [|x rest]; [contradiction|]. simpl in *.
    inversion I2; subst. intros E. injection E as ->. contradiction.
  - destruct Hc as [Hin [[cid Hopen]|[Hclosed Hhd]]]; unfold live, live_of.
    + now rewrite Hopen.
    + rewrite Hclosed. destruct (ids_of tr c) as [|x rest]; [contradiction|].
      simpl in *. destruct Hin as [->|Hin]; [congruence | assumption].
Qed.

(** ** Scenarios *)

Lemma fresh_idb_sound st ev : fresh_idb st ev = true -> fresh_id st ev.
Proof.
  destruct ev as [|c data now rnd|]; simpl; try exact (fun _ => I).
  intros H Hr. rewrite Hr in H. simpl in H.
  destruct (map_get (generateId now rnd) (registry_of st)); [discriminate | reflexivity].
Qed.

Lemma reaches_fresh_run tr st evs st' :
  reachable_fresh tr st -> run st evs = Some st' -> fresh_run st evs = true ->
  reachable_fresh (rev evs ++ tr) st'.
Proof.
  revert tr st. induction evs as [|ev evs IH]; intros tr st Hr Hrun Hf; simpl in *.
  - injection Hrun as <-. exact Hr.
  - apply andb_prop in Hf as [Hf1 Hf2].
    destruct (step st ev) as [s1|] eqn:Es; [|discriminate].
    rewrite <- app_assoc. simpl. apply (IH _ s1); [|assumption|assumption].
    eapply reaches_step; [exact Hr | now apply fresh_idb_sound | exact Es].
Qed.

Lemma run_reachable_fresh evs st :
  run init evs = Some st -> fresh_run init evs = true -> reachable_fresh (rev evs) st.
Proof.
  intros H Hf. rewrite <- (app_nil_r (rev evs)).
  apply (reaches_fresh_run [] init evs st); [constructor | exact H | exact Hf].
Qed.

Lemma cleanb_sound st ev : cleanb st ev = true -> clean st ev.
Proof.
  unfold cleanb, clean. intros H. apply andb_prop in H as [H1 H2].
  split; [now apply fresh_idb_sound|].
  destruct ev as [|c data now rnd|]; try exact I.
  intros Hr. rewrite Hr in H2. simpl in H2. now apply printableb_spec.
Qed.

Lemma reaches_clean_run tr st evs st' :
  reachable_clean tr st -> run st evs = Some st' -> clean_run st evs = true ->
  reachable_clean (rev evs ++ tr) st'.
Proof.
  revert tr st. induction evs as [|ev evs IH]; intros tr st Hr Hrun Hf; simpl in *.
  - injection Hrun as <-. exact Hr.
  - apply andb_prop in Hf as [Hf1 Hf2].
    destruct (step st ev) as [s1|] eqn:Es; [|discriminate].
    rewrite <- app_assoc. simpl. apply (IH _ s1); [|assumption|assumption].
    eapply reaches_step; [exact Hr | now apply cleanb_sound | exact Es].
Qed.

Lemma run_reachable_clean evs st :
  run init evs = Some st -> clean_run init evs = true -> reachable_clean (rev evs) st.
Proof.
  intros H Hf. rewrite <- (app_nil_r (rev evs)).
  apply (reaches_clean_run [] init evs st); [constructor | exact H | exact Hf].
Qed.

(** * Further properties of the handlers *)

(** ** The message handler as a whole *)

(** What the [switch] does with a frame: nothing, the [register] case, or one
    of the three routing cases. *)
Lemma frame_cases data :
  handled data = false \/
  (exists props, data = Parsed (JObj props) /\ assoc "type" props = Some (JStr "register")) \/
  (exists k props, data = Parsed (JObj props) /\ assoc "type" props = Some (JStr (kind_type k))).
Proof.
  destruct (handled data) eqn:Hh; [right | now left].
  unfold handled, discriminant in Hh.
  destruct data as [|msg]; [discriminate|].
  destruct msg; simpl in Hh; try discriminate.
  unfold known_type in Hh.
  destruct (assoc "type" props) as [[| | |s| |]|] eqn:Et; simpl in Hh; try discriminate.
  destruct (String.eqb_spec s "register") as [E|_];
    [left; exists props; split; [reflexivity | now rewrite Et, E]|].
  right.
  destruct (String.eqb_spec s "offer") as [E|_];
    [exists Offer, props; split; [reflexivity | now rewrite Et, E]|].
  destruct (String.eqb_spec s "answer") as [E|_];
    [exists Answer, props; split; [reflexivity | now rewrite Et, E]|].
  destruct (String.eqb_spec s "ice-candidate") as [E|_];
    [exists IceCandidate, props; split; [reflexivity | now rewrite Et, E] | discriminate].
Qed.

Lemma register_errors_short props k : List.length (register_errors props k) <= 1.
Proof. unfold register_errors. destruct (register_log props k); simpl; lia. Qed.

Lemma route_errors_short k props cl : List.length (route_errors k props cl) <= 1.
Proof.
  unfold route_errors. destruct (route_log k props); [simpl; lia|].
  destruct (map_get_val (assoc "targetId" props) cl); [|simpl; lia].
  destruct (forwarded k props); simpl; lia.
Qed.

(** X1. No frame makes the message handler throw: whatever arrives, the
    handler returns normally, having called [console.error] at most once;
    for a frame that no case of the [switch] takes, it logs an error
    exactly when [JSON.parse] rejects the frame or the message is [null]. *)
Theorem on_message_catches_everything sock now rnd data cid cl :
  exists h,
    on_message sock now rnd data (mkH cid cl [] []) = (inr tt, h) /\
    List.length (logged h) <= 1 /\
    (handled data = false ->
     logged h = match discriminant data with inl e => [e] | inr _ => [] end).
Proof.
  destruct (frame_cases data) as [Hh|[(props & -> & Ht)|(k & props & -> & Ht)]].
  - rewrite on_message_unhandled by assumption. eexists. split; [reflexivity|].
    split; [|reflexivity]. cbn [logged]. destruct (discriminant data); simpl; lia.
  - rewrite on_message_register by (now apply is_register_obj).
    eexists. split; [reflexivity|]. cbv zeta. cbn [logged].
    split; [apply register_errors_short|].
    unfold handled, known_type. simpl. rewrite Ht. discriminate.
  - rewrite (on_message_routed k) by assumption.
    eexists. split; [reflexivity|]. cbn [logged].
    split; [apply route_errors_short|].
    unfold handled, known_type. simpl. rewrite Ht. destruct k; discriminate.
Qed.

Lemma register_fanout_shape sock k r cl :
  Forall (fun m => is_request_offer m = true) (register_fanout sock k r cl).
Proof.
  unfold register_fanout. apply Forall_app. split.
  - destruct (is_str r "monitor"); [|constructor].
    apply Forall_forall. intros m Hm. apply in_map_iff in Hm as (x & <- & _). reflexivity.
  - destruct (is_str r "camera"); [|constructor].
    apply Forall_forall. intros m Hm. apply in_map_iff in Hm as (x & <- & _). reflexivity.
Qed.

(** X2. Every [register] is accepted, whatever its [role] and [name] and
    whether or not the generated id is already a key: the sender gets
    [registered] with the id before anything else is sent, all further
    messages of the step are request-offers, the sender's [clientId] becomes
    the id, the entry under the id is the sender's with the role of the
    message, and the entries under other keys are as before.  An error is
    logged only when the log line cannot print the role or the name, and
    then nothing is sent after [registered]. *)
Theorem register_always_answered st c cid msg now rnd :
  sockets st c = Some (Open cid) ->
  get_prop msg "type" = inr (Some (JStr "register")) ->
  exists st' client rest,
    step st (Message c (Parsed msg) now rnd) = Some st' /\
    outbox st' =
      (outbox st ++ (c, tagged "registered" "id" (generateId now rnd)) :: rest)%list /\
    Forall (fun m => is_request_offer m = true) rest /\
    sockets st' c = Some (Open (Some (generateId now rnd))) /\
    map_get (generateId now rnd) (registry_of st') = Some client /\
    ws client = c /\ id client = generateId now rnd /\
    inr (role client) = get_prop msg "role" /\
    (stderr st' = stderr st \/
     (rest = [] /\ exists e, stderr st' = (stderr st ++ [e])%list)) /\
    (printable (role client) ->
     (forall n, get_prop msg "name" = inr n -> printable (Some (js_or n (JStr "N/A")))) ->
     stderr st' = stderr st) /\
    forall k', k' <> generateId now rnd ->
      map_get k' (registry_of st') = map_get k' (registry_of st).
Proof.
  intros Hc Hty.
  destruct (get_prop_str_inv _ _ _ Hty) as [props ->].
  simpl in Hty. injection Hty as Hty.
  rewrite (step_register st c cid props now rnd Hc Hty). cbv zeta.
  set (k := generateId now rnd).
  set (cl' := map_set k (new_client c now rnd props) (registry_of st)).
  eexists. exists (new_client c now rnd props).
  exists (match register_log props k with
          | None => register_fanout c k (assoc "role" props) cl'
          | Some _ => []
          end).
  split; [reflexivity|]. cbn [outbox registry_of sockets stderr].
  split; [reflexivity|].
  split; [destruct (register_log props k); [constructor | apply register_fanout_shape]|].
  split; [apply upd_eq|].
  split; [apply map_get_set_same|].
  split; [reflexivity|]. split; [reflexivity|]. split; [reflexivity|].
  unfold register_errors.
  split; [destruct (register_log props k) as [e|]; [right; eauto | left; apply app_nil_r]|].
  split.
  - intros Hr Hn.
    assert (Hlog : register_log props k = None).
    { apply register_log_none. split; [exact Hr | apply Hn; reflexivity]. }
    rewrite Hlog. apply app_nil_r.
  - intros k' Hne. apply map_get_set_other. congruence.
Qed.

Lemma js_or_truthy v d :
  truthy (Some d) = true ->
  truthy (Some (js_or v d)) = true /\
  (truthy v = true -> Some (js_or v d) = v) /\
  (truthy v = false -> js_or v d = d).
Proof.
  intros Hd. unfold js_or. destruct v as [x|]; [|simpl; intuition discriminate].
  destruct (truthy (Some x)) eqn:E; intuition discriminate.
Qed.

(** X3. The name stored at registration is never falsy: it is the [name] of
    the message when that is truthy, of whatever type, and the string
    "Unknown" when the name is missing, [null], [false], zero or the empty
    string. *)
Theorem registered_name_defaults st c cid msg now rnd v :
  sockets st c = Some (Open cid) ->
  get_prop msg "type" = inr (Some (JStr "register")) ->
  get_prop msg "name" = inr v ->
  exists st' client,
    step st (Message c (Parsed msg) now rnd) = Some st' /\
    map_get (generateId now rnd) (registry_of st') = Some client /\
    truthy (Some (name client)) = true /\
    (truthy v = true -> Some (name client) = v) /\
    (truthy v = false -> name client = JStr "Unknown").
Proof.
  intros Hc Hty Hn.
  destruct (get_prop_str_inv _ _ _ Hty) as [props ->].
  simpl in Hty, Hn. injection Hty as Hty. injection Hn as Hn.
  rewrite (step_register st c cid props now rnd Hc Hty). cbv zeta.
  eexists. exists (new_client c now rnd props).
  split; [reflexivity|]. cbn [registry_of].
  split; [apply map_get_set_same|].
  unfold new_client. cbn [name]. rewrite Hn.
  apply js_or_truthy. reflexivity.
Qed.

(** X4. Routing does not look at the sender: an offer, answer or
    ice-candidate is forwarded, or dropped, in the same way whichever socket
    sends it, registered or not, and whatever [fromId] it carries. *)
Theorem routing_ignores_sender st k msg c cid now rnd c' cid' now' rnd' :
  is_kind k msg ->
  sent (run_handler (on_message c now rnd (Parsed msg)) cid st) =
  sent (run_handler (on_message c' now' rnd' (Parsed msg)) cid' st).
Proof.
  intros Hk. destruct (is_kind_inv k msg Hk) as [props [-> Hty]].
  unfold run_handler. now rewrite !(on_message_routed k) by assumption.
Qed.

Lemma map_keys_set_present k v m :
  In k (map_keys m) -> map_keys (map_set k v m) = map_keys m.
Proof.
  unfold map_keys. induction m as [|[k' v'] m IH]; simpl; [contradiction|].
  destruct (String.eqb_spec k' k) as [->|Hne]; simpl; [reflexivity|].
  intros [E|Hin]; [contradiction|]. now rewrite IH.
Qed.

(** X5. A [register] whose generated id is already a key takes the entry
    over: the registry keeps the same keys in the same order, the entry under
    that key now belongs to the registering socket, and what a message
    routed to the id sends afterwards goes to the registering socket, not to
    the previous owner: one message, when the routed message can be printed
    and written back as it is. *)
Theorem register_on_live_id_takes_over st c cid msg now rnd old :
  sockets st c = Some (Open cid) ->
  get_prop msg "type" = inr (Some (JStr "register")) ->
  map_get (generateId now rnd) (registry_of st) = Some old ->
  exists st' client,
    step st (Message c (Parsed msg) now rnd) = Some st' /\
    map_keys (registry_of st') = map_keys (registry_of st) /\
    map_get (generateId now rnd) (registry_of st') = Some client /\
    ws client = c /\
    forall kd m c2 cid2 now2 rnd2,
      sockets st' c2 = Some (Open cid2) ->
      is_kind kd m ->
      get_prop m "targetId" = inr (Some (JStr (generateId now rnd))) ->
      (exists st'' out,
         step st' (Message c2 (Parsed m) now2 rnd2) = Some st'' /\
         outbox st'' = (outbox st' ++ out)%list /\
         forall x, In x out -> fst x = c) /\
      (forwardable kd m ->
       exists st'' fwd,
         step st' (Message c2 (Parsed m) now2 rnd2) = Some st'' /\
         outbox st'' = (outbox st' ++ [(c, fwd)])%list).
Proof.
  intros Hc Hty Hold.
  destruct (get_prop_str_inv _ _ _ Hty) as [props ->].
  simpl in Hty. injection Hty as Hty.
  rewrite (step_register st c cid props now rnd Hc Hty). cbv zeta.
  eexists. exists (new_client c now rnd props).
  split; [reflexivity|]. cbn [registry_of].
  split; [apply map_keys_set_present; apply map_get_in_keys; eauto|].
  split; [apply map_get_set_same|]. split; [reflexivity|].
  intros kd m c2 cid2 now2 rnd2 Hc2 Hkd Ht.
  match goal with
  | |- (exists st'' out, step ?s _ = _ /\ _) /\ _ => set (s1 := s) in *
  end.
  assert (Hg : map_get (generateId now rnd) (registry_of s1) =
               Some (new_client c now rnd props)) by apply map_get_set_same.
  split.
  - destruct (step_routed_to s1 c2 cid2 kd m _ _ now2 rnd2 Hc2 Hkd Ht Hg)
      as (st'' & out & Hst & Hout & Hto & _).
    exists st'', out. auto.
  - intros Hf.
    destruct (step_forward s1 c2 cid2 kd m _ _ now2 rnd2 Hc2 Hkd Ht Hg Hf)
      as (st'' & fwd & Hst & Hout & _).
    exists st'', fwd. auto.
Qed.

(** ** The shape of an id *)

Lemma length_append (a b : string) :
  String.length (a ++ b) = String.length a + String.length b.
Proof. induction a as [|c a IH]; simpl; [reflexivity | now rewrite IH]. Qed.

Lemma substring_prefix (a b : string) :
  String.substring 0 (String.length a) (a ++ b) = a.
Proof.
  induction a as [|c a IH]; simpl.
  - destruct b; reflexivity.
  - now rewrite IH.
Qed.

Lemma length_substring n m s :
  String.length (String.substring n m s) = Nat.min m (String.length s - n).
Proof.
  revert n m. induction s as [|c s IH]; intros n m.
  - destruct n, m; reflexivity.
  - destruct n as [|n].
    + destruct m as [|m]; [reflexivity|]. simpl. rewrite IH. now rewrite Nat.sub_0_r.
    + simpl. apply IH.
Qed.

(** X6. With a clock reading of eight base-36 digits, an id is the reading
    followed by the random suffix: its first eight characters read back, in
    base 36, as the millisecond it was generated in, and it has between 8 and
    17 characters, 8 plus as many as the random string has after its second,
    nine at most. *)
Theorem generateId_shape now rnd :
  eight_digits now ->
  value36 0 (substr 0 8 (generateId now rnd)) = now /\
  String.length (generateId now rnd) = 8 + Nat.min 9 (String.length rnd - 2) /\
  8 <= String.length (generateId now rnd) <= 17.
Proof.
  intros H. pose proof (length_toString36_eight now H) as Hlen.
  assert (Hl : String.length (generateId now rnd) = 8 + Nat.min 9 (String.length rnd - 2)).
  { unfold generateId, substr. now rewrite length_append, length_substring, Hlen. }
  split; [|split; [exact Hl | lia]].
  unfold generateId, substr. rewrite <- Hlen at 1.
  rewrite substring_prefix. apply value36_toString36.
Qed.

(** X7. With clock readings of eight base-36 digits, two calls of
    [generateId] return the same id exactly when they read the same
    millisecond and the two random strings agree on their third to eleventh
    characters; what the random strings hold elsewhere does not count. *)
Theorem generateId_eq_iff now rnd now' rnd' :
  eight_digits now -> eight_digits now' ->
  (generateId now rnd = generateId now' rnd' <->
   now = now' /\ substr 2 9 rnd = substr 2 9 rnd').
Proof.
  intros H H'. split.
  - now apply generateId_inj.
  - intros [-> E]. unfold generateId. now rewrite E.
Qed.

(** ** What one event sends and changes *)

Lemma map_get_in_values k v m : map_get k m = Some v -> In v (map_values m).
Proof.
  unfold map_get, map_values. induction m as [|[k' v'] m IH]; simpl; [discriminate|].
  destruct (String.eqb k' k); [intros E; injection E as ->; now left | auto].
Qed.

Lemma close_cases cid st :
  let h := run_handler on_close cid st in
  (clients h = registry_of st /\ sent h = []) \/
  exists k client,
    cid = Some k /\ map_get k (registry_of st) = Some client /\
    clients h = map_delete k (registry_of st) /\
    sent h = close_sends k (role client) (registry_of st).
Proof.
  cbv zeta. destruct (close_effect cid st) as (_ & _ & H).
  destruct cid as [k|]; [|left; tauto].
  destruct (String.eqb_spec k "") as [->|Hk]; [left; split; reflexivity|].
  specialize (H Hk).
  destruct (map_get k (registry_of st)) as [client|] eqn:Eg; [|left; tauto].
  destruct (to_string_error_val (role client) (join_depth rt)); [left; tauto|].
  right. exists k, client. tauto.
Qed.

Lemma route_sends_cases k props cl :
  route_sends k props cl = [] \/
  exists target text,
    In target (map_values cl) /\ forwarded k props = inr text /\
    route_sends k props cl = [(ws target, text)].
Proof.
  unfold route_sends. destruct (route_log k props); [now left|].
  destruct (map_get_val (assoc "targetId" props) cl) as [target|] eqn:Eg; [|now left].
  destruct (forwarded k props) as [e|text]; [now left|].
  right. exists target, text. split; [|auto].
  unfold map_get_val in Eg.
  destruct (assoc "targetId" props) as [[| | |s| |]|]; try discriminate.
  eapply map_get_in_values; eauto.
Qed.

(** The messages of one step, by the case that sends them. *)
Lemma step_sends st ev st' :
  step st ev = Some st' ->
  exists out,
    outbox st' = (outbox st ++ out)%list /\
    (out = [] \/
     (exists c data now rnd props,
        ev = Message c data now rnd /\
        out = register_sends c (generateId now rnd) props (registry_of st')) \/
     (exists c data now rnd kd props target text,
        ev = Message c data now rnd /\
        registry_of st' = registry_of st /\
        In target (map_values (registry_of st)) /\
        forwarded kd props = inr text /\
        out = [(ws target, text)]) \/
     (exists c k client,
        ev = Close c /\
        sockets st c = Some (Open (Some k)) /\
        map_get k (registry_of st) = Some client /\
        out = close_sends k (role client) (registry_of st))).
Proof.
  intros Hstep. destruct ev as [c|c data now rnd|c]; unfold step in Hstep.
  - destruct (sockets st c); [discriminate|]. injection Hstep as <-.
    exists []. split; [symmetry; apply app_nil_r | now left].
  - destruct (sockets st c) as [[cid|]|] eqn:E0; try discriminate. injection Hstep as <-.
    eexists. split; [reflexivity|]. cbn [registry_of]. unfold run_handler.
    destruct (frame_cases data) as [Hh|[(props & -> & Ht)|(k & props & -> & Ht)]].
    + left. now rewrite on_message_unhandled.
    + right. left. exists c, (Parsed (JObj props)), now, rnd, props.
      split; [reflexivity|].
      rewrite on_message_register by (now apply is_register_obj). reflexivity.
    + rewrite (on_message_routed k) by assumption. cbn [snd sent clients].
      destruct (route_sends_cases k props (registry_of st))
        as [->|(target & text & Hin & Hf & ->)]; [now left|].
      right. right. left.
      exists c, (Parsed (JObj props)), now, rnd, k, props, target, text. auto.
  - destruct (sockets st c) as [[cid|]|] eqn:E0; try discriminate. injection Hstep as <-.
    eexists. split; [reflexivity|].
    destruct (close_cases cid st) as [[_ Hs]|(k & client & -> & Hg & _ & Hs)].
    + now left.
    + right. right. right. exists c, k, client. auto.
Qed.

Lemma in_with_role_channels r cl x : In x (with_role r cl) -> In (ws x) (channels cl).
Proof. intros H. apply with_role_In in H as [H _]. unfold channels. now apply in_map. Qed.

Lemma in_register_sends sock k props cl to m :
  In (to, m) (register_sends sock k props cl) -> to = sock \/ In to (channels cl).
Proof.
  unfold register_sends. intros [E|Hin]; [injection E as <- _; now left|].
  destruct (register_log props k); [contradiction|].
  unfold register_fanout in Hin.
  apply in_app_or in Hin as [Hin|Hin].
  - destruct (is_str (assoc "role" props) "monitor"); [|contradiction].
    apply in_map_iff in Hin as (cam & E & Hcam). injection E as <- _. right.
    eapply in_with_role_channels; eauto.
  - destruct (is_str (assoc "role" props) "camera"); [|contradiction].
    apply in_map_iff in Hin as (x & E & _). injection E as <- _. now left.
Qed.

Lemma in_close_sends k r cl to m :
  In (to, m) (close_sends k r cl) -> In to (channels cl).
Proof.
  unfold close_sends. intros Hin. apply in_app_or in Hin as [Hin|Hin].
  - destruct (is_str r "camera"); [|contradiction].
    apply in_map_iff in Hin as (x & E & Hx). injection E as <- _.
    eapply in_with_role_channels; eauto.
  - destruct (is_str r "monitor"); [|contradiction].
    apply in_map_iff in Hin as (x & E & Hx). injection E as <- _.
    eapply in_with_role_channels; eauto.
Qed.

(** X8. The server sends only to the socket whose message it is handling
    and to sockets that have an entry in the registry: a message handler
    sends to its own socket or to the socket of an entry of the registry as
    it leaves it, the close handler to sockets of entries of the registry as
    it finds it, and a new connection sends nothing. *)
Theorem sends_stay_within_registry st ev st' :
  step st ev = Some st' ->
  exists out,
    outbox st' = (outbox st ++ out)%list /\
    forall to m, In (to, m) out ->
      match ev with
      | Connect _ => False
      | Message c _ _ _ => to = c \/ In to (channels (registry_of st'))
      | Close _ => In to (channels (registry_of st))
      end.
Proof.
  intros Hstep. destruct (step_sends st ev st' Hstep) as (out & Hout & Hcases).
  exists out. split; [exact Hout|]. intros to m Hin.
  destruct Hcases as [->|[(c & data & now & rnd & r & -> & ->)
                         |[(c & data & now & rnd & kd & props & target & text
                            & -> & Hreg & Ht & _ & ->)
                          |(c & k & client & -> & _ & _ & ->)]]].
  - contradiction.
  - eapply in_register_sends; eauto.
  - destruct Hin as [E|[]]. injection E as <- _. right. rewrite Hreg.
    unfold channels. now apply in_map.
  - eapply in_close_sends; eauto.
Qed.

Lemma register_sends_typed sock k props cl m :
  In m (register_sends sock k props cl) -> has_outbound_type m.
Proof.
  unfold register_sends. intros [<-|Hin].
  - exists "registered". split; [simpl; auto | reflexivity].
  - exists "request-offer". split; [simpl; auto|].
    destruct (register_log props k); [contradiction|].
    pose proof (register_fanout_shape sock k (assoc "role" props) cl) as H.
    rewrite Forall_forall in H. specialize (H m Hin).
    unfold register_fanout in Hin. apply in_app_or in Hin as [Hin|Hin].
    + destruct (is_str (assoc "role" props) "monitor"); [|contradiction].
      apply in_map_iff in Hin as (x & <- & _). reflexivity.
    + destruct (is_str (assoc "role" props) "camera"); [|contradiction].
      apply in_map_iff in Hin as (x & <- & _). reflexivity.
Qed.

Lemma close_sends_typed k r cl m :
  In m (close_sends k r cl) -> has_outbound_type m.
Proof.
  unfold close_sends. intros Hin. apply in_app_or in Hin as [Hin|Hin].
  - destruct (is_str r "camera"); [|contradiction].
    apply in_map_iff in Hin as (x & <- & _).
    exists "camera-disconnected". split; [simpl; tauto | reflexivity].
  - destruct (is_str r "monitor"); [|contradiction].
    apply in_map_iff in Hin as (x & <- & _).
    exists "monitor-disconnected". split; [simpl; tauto | reflexivity].
Qed.

(** X9. Whatever the clients send, every message the server has sent is
    of one of seven types: registered, request-offer, offer, answer,
    ice-candidate, camera-disconnected, monitor-disconnected.  There is no
    error reply. *)
Theorem outbox_has_seven_types tr st :
  reachable tr st ->
  forall m, In m (outbox st) -> has_outbound_type m.
Proof.
  induction 1 as [|tr st ev st' Hr IH _ Hstep]; intros m Hm; [contradiction|].
  destruct (step_sends st ev st' Hstep) as (out & Hout & Hcases).
  rewrite Hout in Hm. apply in_app_or in Hm as [Hm|Hm]; [now apply IH|].
  destruct Hcases as [->|[(c & data & now & rnd & r & _ & ->)
                         |[(c & data & now & rnd & kd & props & target & text
                            & _ & _ & _ & Hf & ->)
                          |(c & k & client & _ & _ & _ & ->)]]].
  - contradiction.
  - eapply register_sends_typed; eauto.
  - destruct Hm as [<-|[]]. exists (kind_type kd). split.
    + destruct kd; simpl; tauto.
    + cbn [snd]. unfold forwarded in Hf. now apply stringify_type in Hf.
  - eapply close_sends_typed; eauto.
Qed.

(** X10. An entry of the registry changes only in two ways: a [register]
    that generates its key writes it, and the close of a socket whose
    [clientId] is its key removes it.  No other event, and no other socket's
    close, touches it. *)
Theorem entry_changes_only_by_its_events st ev st' k :
  step st ev = Some st' ->
  map_get k (registry_of st') <> map_get k (registry_of st) ->
  (exists c data now rnd,
     ev = Message c data now rnd /\ is_register data = true /\ k = generateId now rnd) \/
  (exists c, ev = Close c /\ sockets st c = Some (Open (Some k))).
Proof.
  intros Hstep Hne. destruct ev as [c|c data now rnd|c]; unfold step in Hstep.
  - destruct (sockets st c); [discriminate|]. injection Hstep as <-. now contradiction Hne.
  - destruct (sockets st c) as [[cid|]|] eqn:E0; try discriminate. injection Hstep as <-.
    cbn [registry_of] in Hne.
    destruct (message_effect c cid st data now rnd)
      as [[Er (props & _ & _ & Hcl & _)]|[Er [_ Hcl]]]; rewrite Hcl in Hne.
    + left. exists c, data, now, rnd. repeat split; try assumption.
      destruct (String.eqb_spec (generateId now rnd) k) as [E|E]; [now symmetry|].
      exfalso. apply Hne. now apply map_get_set_other.
    + now contradiction Hne.
  - destruct (sockets st c) as [[cid|]|] eqn:E0; try discriminate. injection Hstep as <-.
    cbn [registry_of] in Hne.
    destruct (close_cases cid st) as [[Hcl _]|(k0 & client & -> & _ & Hcl & _)];
      rewrite Hcl in Hne; [now contradiction Hne|].
    right. exists c. split; [reflexivity|].
    destruct (String.eqb_spec k0 k) as [<-|E]; [assumption|].
    exfalso. apply Hne. now apply map_get_delete_other.
Qed.

(** ** Entries and their sockets *)

Lemma step_sockets_known st ev st' c :
  step st ev = Some st' -> sockets st c <> None -> sockets st' c <> None.
Proof.
  intros Hstep Hc. destruct ev as [c0|c0 data now rnd|c0]; unfold step in Hstep.
  - destruct (sockets st c0); [discriminate|]. injection Hstep as <-. simpl.
    unfold upd. destruct (Nat.eqb c c0); [discriminate | assumption].
  - destruct (sockets st c0) as [[cid|]|]; try discriminate. injection Hstep as <-. simpl.
    unfold upd. destruct (Nat.eqb c c0); [discriminate | assumption].
  - destruct (sockets st c0) as [[cid|]|]; try discriminate. injection Hstep as <-. simpl.
    unfold upd. destruct (Nat.eqb c c0); [discriminate | assumption].
Qed.

(** The socket of an entry is one the server accepted. *)
Lemma entry_socket_known ok tr st :
  reaches ok tr st ->
  forall k client, map_get k (registry_of st) = Some client ->
  sockets st (ws client) <> None.
Proof.
  induction 1 as [|tr st ev st' Hr IH Hok Hstep]; intros k client Hg; [discriminate|].
  assert (Hold : forall k, map_get k (registry_of st) = Some client ->
                 sockets st' (ws client) <> None).
  { intros k0 H0. eapply step_sockets_known; eauto. }
  destruct ev as [c0|c0 data now rnd|c0]; unfold step in Hstep.
  - destruct (sockets st c0); [discriminate|]. injection Hstep as E. subst st'. eauto.
  - destruct (sockets st c0) as [[cid|]|]; try discriminate. injection Hstep as E.
    subst st'. cbn [registry_of] in Hg.
    destruct (message_effect c0 cid st data now rnd)
      as [[_ (props & _ & _ & Hcl & _)]|[_ [_ Hcl]]]; rewrite Hcl in Hg; [|eauto].
    destruct (String.eqb_spec (generateId now rnd) k) as [<-|Hne].
    + rewrite map_get_set_same in Hg. injection Hg as <-. simpl.
      rewrite upd_eq. discriminate.
    + rewrite map_get_set_other in Hg by assumption. eauto.
  - destruct (sockets st c0) as [[cid|]|]; try discriminate. injection Hstep as E.
    subst st'. cbn [registry_of] in Hg.
    destruct (close_registry cid st) as [Hcl|(k0 & _ & _ & Hcl)]; rewrite Hcl in Hg; [eauto|].
    destruct (String.eqb_spec k0 k) as [<-|Hne].
    + rewrite map_get_delete_same in Hg. discriminate.
    + rewrite map_get_delete_other in Hg by assumption. eauto.
Qed.

(** X11. In every reachable state each entry of the registry is well
    formed: its [id] is the key it is stored under, that key is a non-empty
    string that a [register] of the trace generated, and its socket is one
    the server accepted. *)
Theorem registry_entries_well_formed tr st k client :
  reachable tr st ->
  map_get k (registry_of st) = Some client ->
  id client = k /\
  k <> "" /\
  (exists t s, In (t, s) (stamps tr) /\ k = toString36 t ++ s) /\
  sockets st (ws client) <> None.
Proof.
  intros Hr Hg.
  assert (Hk : exists t s, In (t, s) (stamps tr) /\ k = toString36 t ++ s).
  { apply (keys_are_stamped _ tr st Hr). apply map_get_in_keys. eauto. }
  split; [eapply entry_id_is_key; eauto|]. split; [|split; [exact Hk|]].
  - destruct Hk as (t & s & _ & ->). pose proof (toString36_nonempty t) as Ht.
    destruct (toString36 t); [contradiction | discriminate].
  - eapply entry_socket_known; eauto.
Qed.

(** An open socket that has registered has its entry, under its [clientId]:
    an id that is new never overwrites it, and a close removes at most the
    entry of the closing socket. *)
Lemma open_socket_has_entry tr st :
  reachable_fresh tr st ->
  forall c k, sockets st c = Some (Open (Some k)) ->
  exists client, map_get k (registry_of st) = Some client /\ ws client = c.
Proof.
  induction 1 as [|tr st ev st' Hr IH Hok Hstep]; intros c k Hc; [discriminate|].
  destruct ev as [c0|c0 data now rnd|c0].
  - unfold step in Hstep.
    destruct (sockets st c0) eqn:E0; [discriminate|]. injection Hstep as <-.
    cbn [sockets registry_of] in *.
    destruct (Nat.eq_dec c c0) as [->|Hne].
    + rewrite upd_eq in Hc. discriminate.
    + rewrite upd_neq in Hc by assumption. now apply IH.
  - destruct (sockets st c0) as [[cid|]|] eqn:E0;
      try (unfold step in Hstep; rewrite E0 in Hstep; discriminate).
    rewrite (step_message st c0 cid) in Hstep by assumption.
    injection Hstep as <-. cbn [sockets registry_of] in *.
    destruct (message_effect c0 cid st data now rnd)
      as [[Er (props & _ & Hcid & Hcl & _)]|[Er [Hcid Hcl]]]; rewrite Hcl.
    + specialize (Hok Er). simpl in Hok.
      destruct (Nat.eq_dec c c0) as [->|Hne].
      * rewrite upd_eq, Hcid in Hc. injection Hc as <-.
        exists (new_client c0 now rnd props). split; [apply map_get_set_same | reflexivity].
      * rewrite upd_neq in Hc by assumption.
        destruct (IH c k Hc) as (client & Hg & Hws).
        exists client. split; [|exact Hws].
        rewrite map_get_set_other; [exact Hg|]. intros E. congruence.
    + destruct (Nat.eq_dec c c0) as [->|Hne].
      * rewrite upd_eq, Hcid in Hc. injection Hc as ->. now apply IH.
      * rewrite upd_neq in Hc by assumption. now apply IH.
  - destruct (sockets st c0) as [[cid|]|] eqn:E0;
      try (unfold step in Hstep; rewrite E0 in Hstep; discriminate).
    rewrite (step_close st c0 cid) in Hstep by assumption.
    injection Hstep as <-. cbn [sockets registry_of] in *.
    destruct (Nat.eq_dec c c0) as [->|Hne]; [rewrite upd_eq in Hc; discriminate|].
    rewrite upd_neq in Hc by assumption.
    destruct (IH c k Hc) as (client & Hg & Hws).
    exists client. split; [|exact Hws].
    destruct (close_registry cid st) as [Hcl|(k0 & -> & _ & Hcl)]; rewrite Hcl;
      [exact Hg|].
    rewrite map_get_delete_other; [exact Hg|]. intros <-.
    destruct (IH c0 k0 E0) as (client0 & Hg0 & Hws0). congruence.
Qed.

(** X12. With ids that were new when generated, an open socket that has
    registered always has its entry: the registry holds, under the socket's
    [clientId], an entry whose socket is that socket and whose [id] is that
    key.  So the close handler of a registered socket always finds the entry
    it is to remove. *)
Theorem registered_socket_has_its_entry tr st c k :
  reachable_fresh tr st ->
  sockets st c = Some (Open (Some k)) ->
  exists client,
    map_get k (registry_of st) = Some client /\ ws client = c /\ id client = k.
Proof.
  intros Hr Hc. destruct (open_socket_has_entry tr st Hr c k Hc) as (client & Hg & Hws).
  exists client. split; [exact Hg|]. split; [exact Hws|].
  eapply entry_id_is_key; eauto.
Qed.

Lemma single_registration_entry_open tr st k client :
  reachable_clean tr st ->
  (forall c, List.length (ids_of tr c) <= 1) ->
  map_get k (registry_of st) = Some client ->
  sockets st (ws client) = Some (Open (Some k)).
Proof.
  intros Hr Hone Hg.
  destruct (live_ids_invariant tr st Hr) as (_ & _ & _ & I4 & _).
  pose proof (I4 k client Hg) as Hlive.
  pose proof (clientId_is_latest _ tr st Hr (ws client)) as L.
  specialize (Hone (ws client)). unfold live, live_of in Hlive.
  destruct (sockets st (ws client)) as [[cid|]|]; [| |contradiction].
  - destruct (ids_of tr (ws client)) as [|x [|y rest]]; simpl in *;
      try lia; try contradiction.
    destruct Hlive as [->|[]]. now rewrite L.
  - destruct (ids_of tr (ws client)) as [|x [|y rest]]; simpl in *;
      try lia; try contradiction.
Qed.

(** X13. With ids that were new when generated, roles that can be printed
    and no socket registering twice, the socket of every entry is open and
    has the key of the entry as its [clientId]: a message forwarded by id
    then always goes to an open socket, that of the client holding the id. *)
Theorem single_registrations_keep_entries_open tr st k client :
  reachable_clean tr st ->
  (forall c, List.length (ids_of tr c) <= 1) ->
  map_get k (registry_of st) = Some client ->
  sockets st (ws client) = Some (Open (Some k)) /\
  forall kd msg c cid now rnd,
    sockets st c = Some (Open cid) ->
    is_kind kd msg ->
    get_prop msg "targetId" = inr (Some (JStr k)) ->
    forwardable kd msg ->
    exists st' fwd,
      step st (Message c (Parsed msg) now rnd) = Some st' /\
      outbox st' = (outbox st ++ [(ws client, fwd)])%list /\
      sockets st' (ws client) = Some (Open (Some k)).
Proof.
  intros Hr Hone Hg.
  pose proof (single_registration_entry_open tr st k client Hr Hone Hg) as Hopen.
  split; [exact Hopen|].
  intros kd msg c cid now rnd Hc Hkd Ht Hf.
  destruct (step_forward st c cid kd msg k client now rnd Hc Hkd Ht Hg Hf)
    as (st' & fwd & Hst & Hout & _ & Hsame & _).
  exists st', fwd. repeat split; try assumption.
  now rewrite Hsame.
Qed.

(** X14. With ids that were new when generated and roles that can be
    printed, an id that a socket was assigned before its latest one
    outlives the socket as a routable address: once the socket has closed,
    an offer, answer or ice-candidate addressed to that id, if it can be
    printed and written back as it is, is still forwarded, to the closed
    socket. *)
Theorem stale_id_routes_to_closed_socket tr st c k c2 cid2 kd msg now rnd :
  reachable_clean tr st ->
  sockets st c = Some Closed ->
  In k (ids_of tr c) ->
  hd_error (ids_of tr c) <> Some k ->
  sockets st c2 = Some (Open cid2) ->
  is_kind kd msg ->
  get_prop msg "targetId" = inr (Some (JStr k)) ->
  forwardable kd msg ->
  exists st' fwd,
    step st (Message c2 (Parsed msg) now rnd) = Some st' /\
    outbox st' = (outbox st ++ [(c, fwd)])%list /\
    sockets st' c = Some Closed.
Proof.
  intros Hr Hclosed Hin Hhd Hc2 Hkd Ht Hf.
  destruct (live_ids_invariant tr st Hr) as (I1 & _ & I3 & I4 & _).
  assert (Hlive : In k (live tr st c)).
  { unfold live, live_of. rewrite Hclosed.
    destruct (ids_of tr c) as [|x rest]; [contradiction|]. simpl in *.
    destruct Hin as [->|Hin]; [congruence | assumption]. }
  assert (Hkey : In k (map_keys (registry_of st))) by (apply I1; eauto).
  apply map_get_in_keys in Hkey as [client Hg].
  assert (Hws : ws client = c) by (apply (I3 (ws client) c k); [now apply I4 | assumption]).
  destruct (step_forward st c2 cid2 kd msg k client now rnd Hc2 Hkd Ht Hg Hf)
    as (st' & fwd & Hst & Hout & _ & Hsame & _).
  rewrite Hws in Hout.
  exists st', fwd. repeat split; try assumption.
  now rewrite Hsame.
Qed.

(** ** A socket that registers several times *)

Lemma is_str_true v s : is_str v s = true -> v = Some (JStr s).
Proof.
  destruct v as [[| | |s'| |]|]; simpl; try discriminate.
  intros H. apply String.eqb_eq in H. now subst.
Qed.

Lemma map_keys_delete_filter k m :
  map_keys (map_delete k m) = filter (fun x => negb (String.eqb x k)) (map_keys m).
Proof.
  unfold map_keys, map_delete. induction m as [|[k' v'] m IH]; simpl; [reflexivity|].
  destruct (String.eqb k' k); simpl; now rewrite IH.
Qed.

Lemma filter_out_last (l : list string) k :
  NoDup (l ++ [k]) -> filter (fun x => negb (String.eqb x k)) (l ++ [k]) = l.
Proof.
  intros Hnd. rewrite filter_app. simpl. rewrite String.eqb_refl. simpl.
  rewrite app_nil_r. apply NoDup_remove_2 in Hnd. rewrite app_nil_r in Hnd.
  induction l as [|x l IH]; simpl; [reflexivity|].
  destruct (String.eqb_spec x k) as [->|_]; simpl.
  - exfalso. apply Hnd. now left.
  - rewrite IH; [reflexivity|]. intros H. apply Hnd. now right.
Qed.

Lemma last_cons_shift {A : Type} (x : A) (l : list A) (d : A) :
  last (x :: l) d = last l x.
Proof.
  revert x d. induction l as [|a l IH]; intros x d; [reflexivity|].
  change (last (x :: a :: l) d) with (last (a :: l) d).
  now rewrite (IH a d), (IH a x).
Qed.


(** Registrations with new ids append their entries, and the socket's
    [clientId] ends as the last id; the entries they write have the roles
    of the messages. *)
Lemma run_registrations c frames :
  forall st cid,
    sockets st c = Some (Open cid) ->
    Forall (fun p => is_register (fst (fst p)) = true) frames ->
    Forall (fun p => printable (role_of (fst (fst p)))) frames ->
    NoDup (map_keys (registry_of st) ++ ids_generated frames) ->
    exists st1,
      run st (messages_of c frames) = Some st1 /\
      map_keys (registry_of st1) = (map_keys (registry_of st) ++ ids_generated frames)%list /\
      sockets st1 c = Some (Open (last (List.map Some (ids_generated frames)) cid)) /\
      forall k client, map_get k (registry_of st1) = Some client ->
        map_get k (registry_of st) = Some client \/ printable (role client).
Proof.
  induction frames as [|[[data now] rnd] frames IH]; intros st cid Hc Hreg Hpr Hnd.
  - exists st. simpl. rewrite app_nil_r. auto.
  - inversion Hreg as [|? ? Hr1 Hrest]; subst. cbn [fst snd] in Hr1.
    inversion Hpr as [|? ? Hp1 Hprest]; subst. cbn [fst snd] in Hp1.
    destruct (is_register_inv data Hr1) as [props [-> Ht]].
    apply is_str_true in Ht.
    change (ids_generated ((Parsed (JObj props), now, rnd) :: frames))
      with (generateId now rnd :: ids_generated frames) in *.
    change (messages_of c ((Parsed (JObj props), now, rnd) :: frames))
      with (Message c (Parsed (JObj props)) now rnd :: messages_of c frames).
    cbn [run].
    rewrite (step_register st c cid props now rnd Hc Ht). cbv zeta.
    set (k := generateId now rnd) in *.
    assert (Hfresh : map_get k (registry_of st) = None).
    { apply assoc_none_keys. fold (map_keys (registry_of st)).
      apply NoDup_remove_2 in Hnd. intros Hin. apply Hnd. apply in_or_app. now left. }
    assert (Hkeys1 : map_keys (map_set k (new_client c now rnd props) (registry_of st)) =
                     (map_keys (registry_of st) ++ [k])%list).
    { rewrite map_set_fresh by assumption. unfold map_keys. now rewrite map_app. }
    match goal with
    | |- exists st1, run ?s _ = _ /\ _ =>
        destruct (IH s (Some k)) as (st1 & Hrun & Hkeys & Hsock & Hroles)
    end.
    + apply upd_eq.
    + exact Hrest.
    + exact Hprest.
    + cbn [registry_of]. rewrite Hkeys1, <- app_assoc. exact Hnd.
    + exists st1. split; [exact Hrun|]. split; [|split].
      * rewrite Hkeys. cbn [registry_of]. now rewrite Hkeys1, <- app_assoc.
      * rewrite Hsock. cbn [List.map]. now rewrite last_cons_shift.
      * intros k' client Hg. destruct (Hroles k' client Hg) as [Hold|Hp]; [|now right].
        cbn [registry_of] in Hold.
        destruct (String.eqb_spec k k') as [<-|Hne].
        -- rewrite map_get_set_same in Hold. injection Hold as <-. right. exact Hp1.
        -- rewrite map_get_set_other in Hold by assumption. now left.
Qed.

Lemma last_map_some (l : list string) (d : string) :
  l <> [] -> last (List.map Some l) None = Some (last l d).
Proof.
  induction l as [|x l IH]; intros H; [contradiction|].
  destruct l as [|y l]; [reflexivity|].
  change (last (List.map Some (x :: y :: l)) None) with (last (List.map Some (y :: l)) None).
  change (last (x :: y :: l) d) with (last (y :: l) d).
  apply IH. discriminate.
Qed.

(** X15. A socket that connects, registers n times with ids that are new
    and roles that can be printed, and closes, leaves n - 1 entries behind:
    the close handler removes the entry of the last id only, and the
    entries of the earlier ids stay in the registry, in the order of their
    registration, after the entries that were there before. *)
Theorem reregistration_leaves_entries st c frames :
  sockets st c = None ->
  Forall (fun p => is_register (fst (fst p)) = true) frames ->
  Forall (fun p => printable (role_of (fst (fst p)))) frames ->
  NoDup (map_keys (registry_of st) ++ ids_generated frames) ->
  exists st',
    run st (Connect c :: messages_of c frames ++ [Close c]) = Some st' /\
    map_keys (registry_of st') =
      (map_keys (registry_of st) ++ removelast (ids_generated frames))%list /\
    List.length (registry_of st') =
      List.length (registry_of st) + (List.length frames - 1) /\
    sockets st' c = Some Closed.
Proof.
  intros Hc Hreg Hpr Hnd.
  cbn [run]. unfold step. rewrite Hc.
  match goal with
  | |- exists st', match run ?s _ with _ => _ end = _ /\ _ => set (s0 := s)
  | |- exists st', run ?s _ = _ /\ _ => set (s0 := s)
  end.
  destruct (run_registrations c frames s0 None) as (st1 & Hrun & Hkeys & Hsock & Hroles);
    [apply upd_eq | exact Hreg | exact Hpr | exact Hnd |].
  rewrite run_app, Hrun. cbn [run].
  rewrite (step_close st1 c _ Hsock). cbv zeta.
  eexists. split; [reflexivity|]. cbn [registry_of sockets].
  assert (Hlen : forall m : registry, List.length m = List.length (map_keys m))
    by (intros m; unfold map_keys; now rewrite length_map).
  assert (Hgoal : map_keys (clients (run_handler on_close
                     (last (List.map Some (ids_generated frames)) None) st1)) =
                  (map_keys (registry_of st) ++ removelast (ids_generated frames))%list).
  { assert (Hgen : forall k, In k (ids_generated frames) -> k <> "").
    { intros k Hin. unfold ids_generated in Hin.
      apply in_map_iff in Hin as (p & <- & _). apply generateId_nonempty. }
    remember (ids_generated frames) as ids eqn:Eids. clear Eids Hsock.
    destruct ids as [|x ids].
    - cbn [List.map last removelast]. unfold run_handler. rewrite on_close_null.
      cbn [snd clients]. exact Hkeys.
    - assert (Hne : x :: ids <> []) by discriminate.
      rewrite (last_map_some _ "" Hne).
      set (k := last (x :: ids) "").
      pose proof (app_removelast_last "" Hne) as Hsplit. fold k in Hsplit.
      assert (Hk : k <> "").
      { apply Hgen. rewrite Hsplit. apply in_or_app. right. now left. }
      assert (Hnew : map_get k (registry_of s0) = None).
      { apply assoc_none_keys. fold (map_keys (registry_of s0)). intros Hin.
        rewrite Hsplit, app_assoc in Hnd. apply NoDup_remove_2 in Hnd.
        apply Hnd. rewrite app_nil_r. apply in_or_app. now left. }
      destruct (close_effect (Some k) st1) as (_ & _ & He). specialize (He Hk).
      assert (Hcl : clients (run_handler on_close (Some k) st1) =
                    map_delete k (registry_of st1)).
      { destruct (map_get k (registry_of st1)) as [client|] eqn:Eg.
        - destruct (Hroles k client Eg) as [Hold|Hp]; [congruence|].
          rewrite Hp in He. tauto.
        - rewrite map_delete_absent by assumption. tauto. }
      rewrite Hcl, map_keys_delete_filter, Hkeys.
      rewrite Hsplit at 1. rewrite app_assoc. apply filter_out_last.
      rewrite <- app_assoc, <- Hsplit. exact Hnd. }
  split; [exact Hgoal|]. split; [|apply upd_eq].
  rewrite Hlen, Hgoal, length_app, <- Hlen. f_equal.
  unfold ids_generated.
  destruct frames as [|p frames]; [reflexivity|].
  assert (Hne : List.map (fun p => generateId (snd (fst p)) (snd p)) (p :: frames) <> [])
    by discriminate.
  pose proof (app_removelast_last "" Hne) as Hsplit.
  apply (f_equal (@List.length string)) in Hsplit.
  rewrite length_app, length_map in Hsplit. simpl in Hsplit. simpl. lia.
Qed.

(** ** The upgrade gateway *)

Lemma step_new_socket st ev st' c :
  step st ev = Some st' -> sockets st' c <> None ->
  sockets st c <> None \/ ev = Connect c.
Proof.
  intros Hstep Hc. destruct ev as [c0|c0 data now rnd|c0]; unfold step in Hstep.
  - destruct (sockets st c0); [discriminate|]. injection Hstep as <-. simpl in Hc.
    unfold upd in Hc. destruct (Nat.eqb_spec c c0) as [E|_]; [right; now rewrite E | now left].
  - destruct (sockets st c0) as [[cid|]|] eqn:E0; try discriminate.
    injection Hstep as <-. simpl in Hc. left.
    unfold upd in Hc. destruct (Nat.eqb_spec c c0) as [E|_]; [congruence | assumption].
  - destruct (sockets st c0) as [[cid|]|] eqn:E0; try discriminate.
    injection Hstep as <-. simpl in Hc. left.
    unfold upd in Hc. destruct (Nat.eqb_spec c c0) as [E|_]; [congruence | assumption].
Qed.

(** What the network leads to is reachable by socket events. *)
Lemma net_reaches_reachable tr st :
  net_reaches tr st -> exists tr', reachable tr' st.
Proof.
  induction 1 as [|tr st ev st' Hr [tr' IH] Hstep]; [exists []; constructor|].
  destruct ev as [c url handshake|c data now rnd|c]; cbn [net_step] in Hstep.
  - destruct (on_upgrade url); [destruct handshake|].
    + exists (Connect c :: tr'). econstructor; [eassumption | exact I | eassumption].
    + injection Hstep as <-. eauto.
    + injection Hstep as <-. eauto.
  - exists (Message c data now rnd :: tr'). econstructor; [eassumption | exact I | eassumption].
  - exists (Close c :: tr'). econstructor; [eassumption | exact I | eassumption].
Qed.

Lemma net_socket_was_upgraded tr st c :
  net_reaches tr st -> sockets st c <> None ->
  In (Upgrade c (Some (JStr "/ws")) true) tr.
Proof.
  induction 1 as [|tr st ev st' Hr IH Hstep]; intros Hc; [now contradiction Hc|].
  destruct ev as [c0 url handshake|c0 data now rnd|c0]; cbn [net_step] in Hstep.
  - unfold on_upgrade in Hstep. destruct (is_str url "/ws") eqn:Eu.
    + destruct handshake.
      * apply is_str_true in Eu. subst url.
        destruct (step_new_socket _ _ _ c Hstep Hc) as [Hold|E].
        -- right. auto.
        -- injection E as ->. now left.
      * injection Hstep as <-. right. auto.
    + injection Hstep as <-. right. auto.
  - destruct (step_new_socket _ _ _ c Hstep Hc) as [Hold|E]; [right; auto | discriminate].
  - destruct (step_new_socket _ _ _ c Hstep Hc) as [Hold|E]; [right; auto | discriminate].
Qed.

(** X16. Only an upgrade request whose url is exactly "/ws", and whose
    handshake completes, gives the server a socket: every socket the server
    knows, and so the socket of every entry of the registry, came from such a
    request.  A request for any other url, or with no url, changes nothing. *)
Theorem sockets_come_from_ws_upgrades tr st :
  net_reaches tr st ->
  (forall c, sockets st c <> None -> In (Upgrade c (Some (JStr "/ws")) true) tr) /\
  (forall k client, map_get k (registry_of st) = Some client ->
     In (Upgrade (ws client) (Some (JStr "/ws")) true) tr) /\
  (forall c url handshake, url <> Some (JStr "/ws") ->
     net_step st (Upgrade c url handshake) = Some st).
Proof.
  intros Hr. split; [|split].
  - intros c. now apply net_socket_was_upgraded.
  - intros k client Hg. apply (net_socket_was_upgraded tr st); [assumption|].
    destruct (net_reaches_reachable tr st Hr) as [tr' Hr'].
    eapply entry_socket_known; eauto.
  - intros c url handshake Hne. simpl. unfold on_upgrade.
    destruct (is_str url "/ws") eqn:E; [|reflexivity].
    apply is_str_true in E. contradiction.
Qed.

(** ** Runs in which no socket registers twice *)

Lemma values_entry v m :
  NoDup (map_keys m) -> In v (map_values m) -> exists k, map_get k m = Some v.
Proof.
  intros Hnd Hin. unfold map_values in Hin.
  apply in_map_iff in Hin as ([k v'] & E & Hin). simpl in E. subst v'.
  exists k. now apply map_get_of_entry.
Qed.

Lemma in_close_sends_peer k r cl to m :
  In (to, m) (close_sends k r cl) ->
  exists p, In p (map_values cl) /\ ws p = to /\
    ((r = Some (JStr "camera") /\ role p = Some (JStr "monitor")) \/
     (r = Some (JStr "monitor") /\ role p = Some (JStr "camera"))).
Proof.
  unfold close_sends. intros Hin. apply in_app_or in Hin as [Hin|Hin].
  - destruct (is_str r "camera") eqn:Er; [|contradiction]. apply is_str_eq in Er.
    apply in_map_iff in Hin as (p & E & Hp). injection E as <- _.
    apply with_role_In in Hp as [Hp Hrole]. exists p. auto.
  - destruct (is_str r "monitor") eqn:Er; [|contradiction]. apply is_str_eq in Er.
    apply in_map_iff in Hin as (p & E & Hp). injection E as <- _.
    apply with_role_In in Hp as [Hp Hrole]. exists p. auto.
Qed.

(** X17. With ids that were new when generated, roles that can be printed
    and no socket registering twice, the server never sends to a socket
    that is not open: whatever the next event, every message it sends goes
    to a socket that is open when the event arrives, and the notifications
    of a close never go to the closing socket itself. *)
Theorem single_registrations_send_to_open_sockets tr st ev st' :
  reachable_clean tr st ->
  (forall c, List.length (ids_of tr c) <= 1) ->
  step st ev = Some st' ->
  exists out,
    outbox st' = (outbox st ++ out)%list /\
    forall to m, In (to, m) out -> is_open st to /\ ev <> Close to.
Proof.
  intros Hr Hone Hstep.
  pose proof (registry_keys_nodup _ tr st Hr) as Hnd.
  assert (Hchan : forall to, In to (channels (registry_of st)) -> is_open st to).
  { intros to Hin. unfold channels in Hin. apply in_map_iff in Hin as (p & <- & Hp).
    destruct (values_entry p _ Hnd Hp) as [kp Hg].
    eexists. eapply single_registration_entry_open; eauto. }
  destruct ev as [c|c data now rnd|c]; unfold step in Hstep.
  - destruct (sockets st c); [discriminate|]. injection Hstep as <-.
    exists []. split; [symmetry; apply app_nil_r | intros to m []].
  - destruct (sockets st c) as [[cid|]|] eqn:E0; try discriminate. injection Hstep as <-.
    eexists. split; [reflexivity|]. unfold run_handler.
    intros to m Hin. split; [|discriminate].
    destruct (frame_cases data) as [Hh|[(props & -> & Ht)|(k & props & -> & Ht)]].
    + rewrite on_message_unhandled in Hin by assumption. contradiction.
    + rewrite on_message_register in Hin by (now apply is_register_obj).
      cbv zeta in Hin. cbn [snd sent] in Hin.
      apply in_register_sends in Hin as [->|Hin]; [eexists; eauto|].
      unfold channels in Hin. apply in_map_iff in Hin as (p & <- & Hp).
      apply map_values_set in Hp as [->|Hp]; [eexists; eauto|].
      apply Hchan. unfold channels. now apply in_map.
    + rewrite (on_message_routed k) in Hin by assumption. cbn [snd sent] in Hin.
      destruct (route_sends_cases k props (registry_of st))
        as [E|(target & text & Ht' & _ & E)]; rewrite E in Hin; [contradiction|].
      destruct Hin as [E'|[]]. injection E' as <- _.
      apply Hchan. unfold channels. now apply in_map.
  - destruct (sockets st c) as [[cid|]|] eqn:E0; try discriminate. injection Hstep as <-.
    eexists. split; [reflexivity|]. intros to m Hin.
    destruct (close_cases cid st) as [[_ Hs]|(k & client & -> & Hg & _ & Hs)];
      rewrite Hs in Hin; [contradiction|].
    apply in_close_sends_peer in Hin as (p & Hp & <- & Hroles).
    destruct (values_entry p _ Hnd Hp) as [kp Hgp].
    pose proof (single_registration_entry_open tr st kp p Hr Hone Hgp) as Hopen.
    split; [eexists; eauto|].
    intros E. injection E as E. rewrite E, Hopen in E0. injection E0 as ->.
    rewrite Hgp in Hg. injection Hg as ->.
    destruct Hroles as [[H1 H2]|[H1 H2]]; congruence.
Qed.

(** X18. The [clientId] of an open socket is [null] exactly as long as no
    [register] of that socket has been handled, and from then on it is the id
    of the latest [registered] reply the socket was sent; it is never the
    empty string, so the close handler's test of [clientId] fails only for a
    socket that never registered. *)
Theorem clientId_tracks_latest_registration tr st c cid :
  reachable tr st ->
  sockets st c = Some (Open cid) ->
  cid = hd_error (ids_of tr c) /\
  (cid = None <-> ids_of tr c = []) /\
  truthy (js_of_id cid) = match cid with Some _ => true | None => false end.
Proof.
  intros Hr Hc. pose proof (clientId_is_latest _ tr st Hr c) as L. rewrite Hc in L.
  split; [exact L|]. split.
  - rewrite L. destruct (ids_of tr c); simpl; split; intros H; try reflexivity; discriminate.
  - destruct cid as [k|]; [|reflexivity].
    pose proof (clientId_nonempty _ tr st c k Hr Hc) as Hk. simpl.
    destruct (String.eqb_spec k ""); [contradiction | reflexivity].
Qed.

Lemma filter_registered_map {A : Type} (f : A -> conn * json) (l : list A) :
  (forall x, is_registered (f x) = false) ->
  filter is_registered (List.map f l) = [].
Proof.
  intros Hf. induction l as [|x l IH]; simpl; [reflexivity|]. now rewrite Hf.
Qed.

Lemma filter_registered_register_sends sock k props cl :
  filter is_registered (register_sends sock k props cl) =
  [(sock, tagged "registered" "id" k)].
Proof.
  unfold register_sends. cbn [filter].
  change (is_registered (sock, tagged "registered" "id" k)) with true.
  cbv iota. f_equal. destruct (register_log props k); [reflexivity|].
  unfold register_fanout. rewrite filter_app.
  destruct (is_str (assoc "role" props) "monitor"), (is_str (assoc "role" props) "camera");
    simpl; rewrite ?filter_registered_map by reflexivity; reflexivity.
Qed.

Lemma filter_registered_close_sends k r cl :
  filter is_registered (close_sends k r cl) = [].
Proof.
  unfold close_sends. rewrite filter_app.
  destruct (is_str r "monitor"), (is_str r "camera"); simpl;
    rewrite ?filter_registered_map by reflexivity; reflexivity.
Qed.

Lemma filter_registered_route_sends k props cl :
  filter is_registered (route_sends k props cl) = [].
Proof.
  destruct (route_sends_cases k props cl) as [->|(target & text & _ & Hf & ->)];
    [reflexivity|].
  unfold forwarded in Hf. apply stringify_type in Hf.
  cbn [filter]. unfold is_registered, msg_type. cbn [snd]. rewrite Hf.
  destruct k; reflexivity.
Qed.

(** X19. The [registered] replies are in one-to-one correspondence with the
    [register] messages handled: read in the order they were sent, they go to
    the sockets that registered and carry the ids that were generated, one
    reply per [register], and nothing else ever produces one. *)
Theorem registered_replies_match_registrations tr st :
  reachable tr st ->
  List.map (fun m => (fst m, get_prop (snd m) "id")) (filter is_registered (outbox st)) =
  List.map (fun p => (fst p, inr (Some (JStr (snd p))))) (rev (registrations tr)).
Proof.
  induction 1 as [|tr st ev st' Hr IH _ Hstep]; [reflexivity|].
  unfold registrations. cbn [flat_map]. rewrite rev_app_distr, map_app.
  fold (registrations tr). rewrite <- IH.
  destruct ev as [c|c data now rnd|c]; unfold step in Hstep.
  - destruct (sockets st c); [discriminate|]. injection Hstep as <-. simpl.
    now rewrite app_nil_r.
  - destruct (sockets st c) as [[cid|]|] eqn:E0; try discriminate. injection Hstep as <-.
    cbn [outbox registration]. rewrite filter_app, map_app. f_equal.
    unfold run_handler, is_register.
    destruct (frame_cases data) as [Hh|[(props & -> & Ht)|(k & props & -> & Ht)]].
    + rewrite on_message_unhandled by assumption.
      unfold handled, known_type in Hh.
      destruct (discriminant data) as [e|t]; [reflexivity|].
      apply orb_false_iff in Hh as [Hh _]. apply orb_false_iff in Hh as [Hh _].
      apply orb_false_iff in Hh as [Hh _]. now rewrite Hh.
    + rewrite on_message_register by (now apply is_register_obj).
      cbv zeta. cbn [snd sent discriminant get_prop]. rewrite Ht.
      rewrite filter_registered_register_sends. reflexivity.
    + rewrite (on_message_routed k) by assumption.
      cbn [snd sent discriminant get_prop]. rewrite Ht.
      rewrite filter_registered_route_sends. destruct k; reflexivity.
  - destruct (sockets st c) as [[cid|]|] eqn:E0; try discriminate. injection Hstep as <-.
    cbn [outbox registration]. rewrite filter_app, map_app. f_equal. simpl.
    destruct (close_cases cid st) as [[_ Hs]|(k & client & _ & _ & _ & Hs)]; rewrite Hs.
    + reflexivity.
    + now rewrite filter_registered_close_sends.
Qed.

Lemma map_delete_set_fresh k v m :
  map_get k m = None -> map_delete k (map_set k v m) = m.
Proof.
  intros H. rewrite map_set_fresh by assumption.
  unfold map_delete. rewrite filter_app. simpl. rewrite String.eqb_refl. simpl.
  rewrite app_nil_r. now apply map_delete_absent.
Qed.

Lemma with_role_set_fresh r k v cl :
  map_get k cl = None ->
  with_role r (map_set k v cl) =
  (with_role r cl ++ if is_str (role v) r then [v] else [])%list.
Proof.
  intros H. rewrite map_set_fresh by assumption.
  unfold with_role. rewrite map_app, filter_app. reflexivity.
Qed.

(** X20. Registering and leaving undoes itself: when a socket registers
    with an id that is new and a role that can be printed, and then closes,
    with no other event in between, the registry is again exactly what it
    was before the registration, and the close has sent one notification to
    each peer of the other role that was registered, or none if the role
    was neither camera nor monitor. *)
Theorem register_then_close_restores_registry st c cid msg now rnd :
  sockets st c = Some (Open cid) ->
  get_prop msg "type" = inr (Some (JStr "register")) ->
  (forall r, get_prop msg "role" = inr r -> printable r) ->
  map_get (generateId now rnd) (registry_of st) = None ->
  exists st1 st2 r,
    step st (Message c (Parsed msg) now rnd) = Some st1 /\
    step st1 (Close c) = Some st2 /\
    registry_of st2 = registry_of st /\
    get_prop msg "role" = inr r /\
    outbox st2 =
      (outbox st1 ++ close_sends (generateId now rnd) r (registry_of st))%list /\
    sockets st2 c = Some Closed.
Proof.
  intros Hc Hty Hpr Hfresh.
  destruct (get_prop_str_inv _ _ _ Hty) as [props ->].
  simpl in Hty. injection Hty as Hty.
  specialize (Hpr (assoc "role" props) eq_refl).
  rewrite (step_register st c cid props now rnd Hc Hty). cbv zeta.
  set (k := generateId now rnd) in *. set (v := new_client c now rnd props).
  eexists. eexists. exists (assoc "role" props).
  split; [reflexivity|].
  match goal with
  | |- step ?s _ = _ /\ _ => set (st1 := s)
  end.
  assert (Hc1 : sockets st1 c = Some (Open (Some k))) by apply upd_eq.
  assert (Hg : map_get k (registry_of st1) = Some v) by apply map_get_set_same.
  rewrite (step_close_registered st1 c k v (generateId_nonempty now rnd) Hc1 Hg Hpr).
  split; [reflexivity|]. cbn [registry_of outbox sockets].
  unfold st1. cbn [registry_of outbox].
  split; [now apply map_delete_set_fresh|]. split; [reflexivity|].
  split; [|apply upd_eq]. f_equal. unfold close_sends.
  rewrite !with_role_set_fresh by assumption.
  change (role v) with (assoc "role" props).
  destruct (is_str (assoc "role" props) "camera") eqn:Ec;
    destruct (is_str (assoc "role" props) "monitor") eqn:Em;
    rewrite ?app_nil_r; try reflexivity.
  exfalso. apply is_str_true in Ec, Em. congruence.
Qed.

(** ** Roles the server does not know *)

(** X21. A [register] whose role is neither "camera" nor "monitor" but can
    be printed still creates the entry, with that role, and is answered
    with [registered] and nothing else.  When the socket later closes while
    that entry is still its entry, nothing is sent, the entry is removed
    and nothing leaves the listener. *)
Theorem printable_odd_role_registers st c cid msg r now rnd :
  sockets st c = Some (Open cid) ->
  get_prop msg "type" = inr (Some (JStr "register")) ->
  get_prop msg "role" = inr r ->
  r <> Some (JStr "camera") ->
  r <> Some (JStr "monitor") ->
  printable r ->
  exists st' client,
    step st (Message c (Parsed msg) now rnd) = Some st' /\
    map_get (generateId now rnd) (registry_of st') = Some client /\
    role client = r /\ ws client = c /\ id client = generateId now rnd /\
    outbox st' =
      (outbox st ++
       [(c, JObj [("type", JStr "registered"); ("id", JStr (generateId now rnd))])])%list /\
    sockets st' c = Some (Open (Some (generateId now rnd))) /\
    forall st2 client2,
      sockets st2 c = Some (Open (Some (generateId now rnd))) ->
      map_get (generateId now rnd) (registry_of st2) = Some client2 ->
      role client2 = r ->
      exists st3,
        step st2 (Close c) = Some st3 /\
        outbox st3 = outbox st2 /\
        registry_of st3 = map_delete (generateId now rnd) (registry_of st2) /\
        map_get (generateId now rnd) (registry_of st3) = None /\
        uncaught st3 = uncaught st2.
Proof.
  intros Hc Hty Hrole Hcam Hmon Hpr.
  apply is_str_false in Hcam, Hmon.
  destruct (get_prop_str_inv _ _ _ Hty) as [props ->].
  simpl in Hty, Hrole. injection Hty as Hty. injection Hrole as Hrole.
  rewrite (step_register st c cid props now rnd Hc Hty). cbv zeta.
  eexists. exists (new_client c now rnd props).
  split; [reflexivity|]. cbn [registry_of outbox sockets].
  split; [apply map_get_set_same|].
  split; [exact Hrole|]. split; [reflexivity|]. split; [reflexivity|].
  split.
  { unfold register_sends, register_fanout. rewrite Hrole, Hcam, Hmon.
    now destruct (register_log props (generateId now rnd)). }
  split; [apply upd_eq|].
  intros st2 client2 Hc2 Hg2 Hr2.
  rewrite (step_close_registered st2 c _ client2 (generateId_nonempty now rnd) Hc2 Hg2)
    by (now rewrite Hr2).
  eexists. split; [reflexivity|]. cbn [registry_of outbox uncaught].
  unfold close_sends. rewrite Hr2, Hcam, Hmon. simpl.
  rewrite app_nil_r. repeat split. apply map_get_delete_same.
Qed.

(** X22. When the socket of a registered client whose role cannot be
    printed closes, the close listener throws at its log line: nothing is
    sent, the entry stays in the registry, and the exception leaves the
    listener. *)
Theorem unprintable_role_blocks_close tr st c k client e :
  reachable tr st ->
  sockets st c = Some (Open (Some k)) ->
  map_get k (registry_of st) = Some client ->
  to_string_error_val (role client) (join_depth rt) = Some e ->
  exists st',
    step st (Close c) = Some st' /\
    outbox st' = outbox st /\
    registry_of st' = registry_of st /\
    sockets st' c = Some Closed /\
    stderr st' = stderr st /\
    uncaught st' = (uncaught st ++ [e])%list.
Proof.
  intros Hr Hc Hg He.
  pose proof (clientId_nonempty _ tr st c k Hr Hc) as Hk.
  rewrite (step_close st c (Some k) Hc). cbv zeta.
  destruct (close_effect (Some k) st) as (_ & Hl & H). specialize (H Hk).
  rewrite Hg, He in H. destruct H as (Hcl & Hs & Hu).
  eexists. split; [reflexivity|]. cbn [outbox registry_of sockets stderr uncaught].
  rewrite Hcl, Hs, Hl, Hu, !app_nil_r. repeat split. apply upd_eq.
Qed.

(** ** Further scenarios *)

Lemma net_run_reaches tr st evs st' :
  net_reaches tr st -> net_run st evs = Some st' -> net_reaches (rev evs ++ tr) st'.
Proof.
  revert tr st. induction evs as [|ev evs IH]; intros tr st Hr Hrun; simpl in *.
  - injection Hrun as <-. exact Hr.
  - destruct (net_step st ev) as [s1|] eqn:Es; [|discriminate].
    rewrite <- app_assoc. simpl. apply (IH _ s1); [|assumption].
    econstructor; eauto.
Qed.

End Server.

(** * The model at work

    From here on the engine is [rt0]. *)

Example toString36_small :
  toString36 0 = "0" /\ toString36 35 = "z" /\ toString36 36 = "10" /\
  toString36 noon = "loyw3v28".
Proof. repeat split; reflexivity. Qed.

Example generateId_noon : generateId noon rnd1 = "loyw3v284fzyo82mv".
Proof. reflexivity. Qed.

Example session_outbox :
  outbox (after rt0 session) =
  [(1, JObj [("type", JStr "registered"); ("id", JStr "loyw3v284fzyo82mv")]);
   (2, JObj [("type", JStr "registered"); ("id", JStr "loyw3v29k2j8x0q1w")]);
   (2, JObj [("type", JStr "request-offer"); ("monitorId", JStr "loyw3v284fzyo82mv")]);
   (1, JObj [("type", JStr "offer"); ("offer", JStr "X");
             ("fromId", JStr "loyw3v29k2j8x0q1w")]);
   (2, JObj [("type", JStr "monitor-disconnected");
             ("monitorId", JStr "loyw3v284fzyo82mv")])] /\
  map_keys (registry_of (after rt0 session)) = ["loyw3v29k2j8x0q1w"] /\
  stderr (after rt0 session) = [] /\ uncaught (after rt0 session) = [].
Proof. repeat split; vm_compute; reflexivity. Qed.

(** A message that is [null] throws inside the handler; the error is caught. *)
Example null_message_is_caught :
  on_message rt0 1 noon rnd1 (Parsed JNull) (mkH None [] [] []) =
  (inr tt, mkH None [] [] [TypeError]).
Proof. reflexivity. Qed.

(** What a template literal cannot print, and what [JSON.stringify] does
    not write back as it is. *)
Example strings_and_texts :
  to_string_error unprintable 1000 = Some TypeError /\
  to_string_error (JArr [JNull; JArr [unprintable]]) 1000 = Some TypeError /\
  to_string_error (JObj [("sdp", JStr "v=0")]) 1000 = None /\
  to_string_error (nest 1001 JNull) 1000 = Some RangeError /\
  wire (JNum (S754_infinity false)) 1000 = inr JNull /\
  wire (JNum (S754_zero true)) 1000 = inr (JNum (S754_zero false)) /\
  wire unprintable 1000 = inr unprintable /\
  wire (nest 1001 JNull) 1000 = inl RangeError.
Proof. repeat split; vm_compute; reflexivity. Qed.

(** * Counterexamples and instances *)

(** C1 fails as stated.  A socket registers twice and closes; the close
    handler removes the entry of the second id only, and the first id stays
    in the registry although the only socket it was assigned to is closed.
    A socket that registers with a role that cannot be printed and closes
    leaves its entry behind.  And when a second socket is given the id of
    the first, the close of the first removes the entry: the second socket
    is open and registered, and its id is not in the registry. *)
Lemma stale_id_outlives_socket :
  (exists st,
     run rt0 init [Connect 1; Message 1 (register_frame "camera") noon rnd1;
                   Message 1 (register_frame "camera") (noon + 1) rnd2; Close 1] = Some st /\
     reachable rt0 [Close 1; Message 1 (register_frame "camera") (noon + 1) rnd2;
                    Message 1 (register_frame "camera") noon rnd1; Connect 1] st /\
     sockets st 1 = Some Closed /\
     In (generateId noon rnd1) (map_keys (registry_of st)) /\
     ~ registry_tracks_open_sockets
         [Close 1; Message 1 (register_frame "camera") (noon + 1) rnd2;
          Message 1 (register_frame "camera") noon rnd1; Connect 1] st)
  /\
  (exists st,
     run rt0 init (odd_registration ++ [Close 1]) = Some st /\
     sockets st 1 = Some Closed /\
     ids_of (rev (odd_registration ++ [Close 1])) 1 = [generateId noon rnd1] /\
     In (generateId noon rnd1) (map_keys (registry_of st)) /\
     ~ registry_tracks_open_sockets (rev (odd_registration ++ [Close 1])) st)
  /\
  (exists st,
     run rt0 init (one_camera ++ [Message 2 (register_frame "monitor") noon rnd1; Close 1])
       = Some st /\
     sockets st 2 = Some (Open (Some (generateId noon rnd1))) /\
     In (generateId noon rnd1)
        (ids_of (rev (one_camera ++
                      [Message 2 (register_frame "monitor") noon rnd1; Close 1])) 2) /\
     ~ In (generateId noon rnd1) (map_keys (registry_of st)) /\
     ~ registry_tracks_open_sockets
         (rev (one_camera ++ [Message 2 (register_frame "monitor") noon rnd1; Close 1])) st).
Proof.
  split; [|split].
  - eexists. split; [reflexivity|].
    split; [apply (run_reachable rt0
                     [Connect 1; Message 1 (register_frame "camera") noon rnd1;
                      Message 1 (register_frame "camera") (noon + 1) rnd2; Close 1]);
            reflexivity|].
    split; [reflexivity|]. split; [vm_compute; auto|].
    intros H. destruct (proj1 (H (generateId noon rnd1))) as (c & Hin & [cid Hopen]).
    + vm_compute. auto.
    + destruct c as [|[|c]].
      * vm_compute in Hin. exact Hin.
      * vm_compute in Hopen. discriminate.
      * vm_compute in Hin. exact Hin.
  - eexists. split; [reflexivity|].
    split; [reflexivity|]. split; [reflexivity|]. split; [vm_compute; auto|].
    intros H. destruct (proj1 (H (generateId noon rnd1))) as (c & Hin & [cid Hopen]).
    + vm_compute. auto.
    + destruct c as [|[|c]].
      * vm_compute in Hin. exact Hin.
      * vm_compute in Hopen. discriminate.
      * vm_compute in Hin. exact Hin.
  - eexists. split; [reflexivity|].
    split; [reflexivity|]. split; [vm_compute; auto|].
    assert (Hno : ~ In (generateId noon rnd1) (@nil string)) by (intros []).
    split; [exact Hno|].
    intros H. apply Hno. apply (proj2 (H (generateId noon rnd1))).
    exists 2. split; [vm_compute; auto|]. eexists. reflexivity.
Qed.

Lemma registry_tracks_live_ids_witness :
  In (generateId (noon + 1) rnd2)
     (map_keys (registry_of (after rt0 camera_registers_twice))) <->
  exists c,
    In (generateId (noon + 1) rnd2) (ids_of (rev camera_registers_twice) c) /\
    (is_open (after rt0 camera_registers_twice) c \/
     (sockets (after rt0 camera_registers_twice) c = Some Closed /\
      hd_error (ids_of (rev camera_registers_twice) c) <> Some (generateId (noon + 1) rnd2))).
Proof.
  apply (registry_tracks_live_ids rt0 (rev camera_registers_twice)
           (after rt0 camera_registers_twice)).
  apply run_reachable_clean; vm_compute; reflexivity.
Defined.

(** C2 fails as stated: two sockets register in the same millisecond with
    the same random draw, and the second id is the key of the first entry. *)
Lemma register_id_may_collide :
  (exists st,
     run rt0 init [Connect 1; Message 1 (register_frame "camera") noon rnd1; Connect 2]
       = Some st /\
     sockets st 2 = Some (Open None) /\
     is_register (register_frame "monitor") = true /\
     map_get (generateId noon rnd1) (registry_of st) <> None)
  /\ ~ ids_never_collide rt0.
Proof.
  assert (H : exists st,
     run rt0 init [Connect 1; Message 1 (register_frame "camera") noon rnd1; Connect 2]
       = Some st /\
     sockets st 2 = Some (Open None) /\
     is_register (register_frame "monitor") = true /\
     map_get (generateId noon rnd1) (registry_of st) <> None).
  { eexists. split; [reflexivity|]. split; [reflexivity|]. split; [reflexivity|].
    vm_compute. discriminate. }
  split; [exact H|].
  destruct H as (st & Hrun & Hopen & Hreg & Hin). intros Hall.
  apply Hin. eapply Hall; [apply (run_reachable _ _ _ Hrun) | exact Hopen | exact Hreg].
Qed.

Lemma register_id_is_new_witness :
  map_get (generateId (noon + 1) rnd2) (registry_of (after rt0 one_camera)) = None /\
  exists st',
    step rt0 (after rt0 one_camera) (Message 2 (register_frame "monitor") (noon + 1) rnd2)
      = Some st' /\
    map_keys (registry_of st') =
      (map_keys (registry_of (after rt0 one_camera)) ++ [generateId (noon + 1) rnd2])%list.
Proof.
  apply (register_id_is_new rt0 (rev one_camera) (after rt0 one_camera) 2 None).
  - apply run_reachable. vm_compute. reflexivity.
  - reflexivity.
  - reflexivity.
  - unfold eight_digits. vm_compute. split; [discriminate | reflexivity].
  - intros t s Hin. vm_compute in Hin. destruct Hin as [E|[]].
    injection E as <- <-. split.
    + unfold eight_digits. vm_compute. split; [discriminate | reflexivity].
    + vm_compute. discriminate.
Defined.

(** C3 fails as stated.  A monitor registers in the same millisecond and
    with the same random draw as the one registered camera: it gets the
    camera's id, the camera's entry is overwritten, and no request-offer is
    sent although one camera was registered.  A socket registered as camera
    registers again as monitor: the request-offer for the new monitor goes
    to that very socket, now the socket of a monitor.  A socket has
    registered as camera twice: it receives two request-offers.  A socket
    has registered as monitor and then as camera: the request-offer for
    another monitor goes to the socket of a monitor.  And a monitor
    registers with a name that cannot be printed: one camera is registered
    and no request-offer is sent. *)
Lemma monitor_fanout_not_by_socket :
  (exists st st' out,
     run rt0 init one_camera = Some st /\
     step rt0 st (Message 2 (register_frame "monitor") noon rnd1) = Some st' /\
     outbox st' = (outbox st ++ out)%list /\
     List.length (with_role "camera" (registry_of st)) = 1 /\
     List.length (request_offers out) = 0)
  /\
  (exists st st' out,
     run rt0 init [Connect 1; Message 1 (register_frame "camera") noon rnd1] = Some st /\
     step rt0 st (Message 1 (register_frame "monitor") (noon + 1) rnd2) = Some st' /\
     outbox st' = (outbox st ++ out)%list /\
     map_get (generateId (noon + 1) rnd2) (registry_of st) = None /\
     In (1, tagged "request-offer" "monitorId" (generateId (noon + 1) rnd2))
        (request_offers out) /\
     In 1 (List.map ws (with_role "monitor" (registry_of st'))))
  /\
  (exists st st' out,
     run rt0 init two_cameras_one_socket = Some st /\
     step rt0 st (Message 2 (register_frame "monitor") (noon + 2) rnd1) = Some st' /\
     outbox st' = (outbox st ++ out)%list /\
     List.map ws (with_role "camera" (registry_of st)) = [1; 1] /\
     List.length (received 1 (request_offers out)) = 2)
  /\
  (exists st st' out,
     run rt0 init monitor_then_camera = Some st /\
     step rt0 st (Message 2 (register_frame "monitor") (noon + 2) rnd1) = Some st' /\
     outbox st' = (outbox st ++ out)%list /\
     In (1, tagged "request-offer" "monitorId" (generateId (noon + 2) rnd1))
        (request_offers out) /\
     In 1 (List.map ws (with_role "monitor" (registry_of st'))))
  /\
  (exists st st' out,
     run rt0 init one_camera = Some st /\
     step rt0 st (Message 2 (register_named (JStr "monitor") unprintable) (noon + 1) rnd2)
       = Some st' /\
     outbox st' = (outbox st ++ out)%list /\
     List.length (with_role "camera" (registry_of st)) = 1 /\
     List.length (request_offers out) = 0 /\
     stderr st' = [TypeError]).
Proof.
  split; [|split; [|split; [|split]]].
  - eexists. eexists.
    exists [(2, tagged "registered" "id" (generateId noon rnd1))].
    repeat split; reflexivity.
  - eexists. eexists.
    exists [(1, tagged "registered" "id" (generateId (noon + 1) rnd2));
            (1, tagged "request-offer" "monitorId" (generateId (noon + 1) rnd2))].
    split; [reflexivity|]. split; [reflexivity|]. split; [reflexivity|].
    split; [reflexivity|]. split; vm_compute; auto.
  - eexists. eexists.
    exists [(2, tagged "registered" "id" (generateId (noon + 2) rnd1));
            (1, tagged "request-offer" "monitorId" (generateId (noon + 2) rnd1));
            (1, tagged "request-offer" "monitorId" (generateId (noon + 2) rnd1))].
    repeat split; reflexivity.
  - eexists. eexists.
    exists [(2, tagged "registered" "id" (generateId (noon + 2) rnd1));
            (1, tagged "request-offer" "monitorId" (generateId (noon + 2) rnd1))].
    split; [reflexivity|]. split; [reflexivity|]. split; [reflexivity|].
    split; vm_compute; auto.
  - eexists. eexists.
    exists [(2, tagged "registered" "id" (generateId (noon + 1) rnd2))].
    repeat split; reflexivity.
Qed.

Lemma monitor_register_requests_offers_witness :
  exists st' out,
    step rt0 (after rt0 one_camera) (Message 2 (register_frame "monitor") (noon + 1) rnd2)
      = Some st' /\
    outbox st' = (outbox (after rt0 one_camera) ++ out)%list /\
    out = [(2, tagged "registered" "id" (generateId (noon + 1) rnd2));
           (1, tagged "request-offer" "monitorId" (generateId (noon + 1) rnd2))] /\
    List.length (request_offers out) = 1 /\
    (forall cam, In cam (with_role "camera" (registry_of (after rt0 one_camera))) ->
       List.length (received (ws cam) (request_offers out)) = 1) /\
    (forall monitor m,
       In monitor (with_role "monitor" (registry_of st')) ->
       In m (request_offers out) -> fst m <> ws monitor).
Proof.
  destruct (monitor_register_requests_offers rt0 (after rt0 one_camera) 2 None
              (JObj [("type", JStr "register"); ("role", JStr "monitor")])
              (noon + 1) rnd2 1)
    as (st' & out & H1 & H2 & _ & H4 & H5 & _ & _ & H8 & H9).
  - reflexivity.
  - reflexivity.
  - reflexivity.
  - intros n E. injection E as <-. reflexivity.
  - intros old E. vm_compute in E. discriminate.
  - reflexivity.
  - exists st', out. split; [exact H1|]. split; [exact H2|]. split; [exact H4|].
    split; [exact H5|]. split.
    + apply H8. vm_compute. repeat constructor. simpl. tauto.
    + apply H9.
      * intros cam Hcam. vm_compute in Hcam. destruct Hcam as [<-|[]]. discriminate.
      * intros cam monitor Hcam Hmon. vm_compute in Hmon. contradiction.
Defined.

(** C4 fails as stated.  A camera registers in the same millisecond and
    with the same random draw as the one registered monitor: the monitor's
    entry is overwritten and no request-offer is sent although one monitor
    was registered.  A socket registered as monitor registers again as
    camera: [registered] and the request-offer go to the socket of a
    registered monitor, which is that very socket.  And a camera registers
    with a name that cannot be printed: one monitor is registered and no
    request-offer is sent. *)
Lemma camera_fanout_not_by_socket :
  (exists st st' out,
     run rt0 init one_monitor = Some st /\
     step rt0 st (Message 2 (register_frame "camera") noon rnd1) = Some st' /\
     outbox st' = (outbox st ++ out)%list /\
     List.length (with_role "monitor" (registry_of st)) = 1 /\
     List.length (request_offers out) = 0)
  /\
  (exists st st' out,
     run rt0 init [Connect 1; Message 1 (register_frame "monitor") noon rnd1] = Some st /\
     step rt0 st (Message 1 (register_frame "camera") (noon + 1) rnd2) = Some st' /\
     outbox st' = (outbox st ++ out)%list /\
     map_get (generateId (noon + 1) rnd2) (registry_of st) = None /\
     In (1, tagged "request-offer" "monitorId" (generateId noon rnd1)) out /\
     In 1 (List.map ws (with_role "monitor" (registry_of st))))
  /\
  (exists st st' out,
     run rt0 init one_monitor = Some st /\
     step rt0 st (Message 2 (register_named (JStr "camera") unprintable) (noon + 1) rnd2)
       = Some st' /\
     outbox st' = (outbox st ++ out)%list /\
     List.length (with_role "monitor" (registry_of st)) = 1 /\
     List.length (request_offers out) = 0 /\
     stderr st' = [TypeError]).
Proof.
  split; [|split].
  - eexists. eexists.
    exists [(2, tagged "registered" "id" (generateId noon rnd1))].
    repeat split; reflexivity.
  - eexists. eexists.
    exists [(1, tagged "registered" "id" (generateId (noon + 1) rnd2));
            (1, tagged "request-offer" "monitorId" (generateId noon rnd1))].
    split; [reflexivity|]. split; [reflexivity|]. split; [reflexivity|].
    split; [reflexivity|]. split; vm_compute; auto.
  - eexists. eexists.
    exists [(2, tagged "registered" "id" (generateId (noon + 1) rnd2))].
    repeat split; reflexivity.
Qed.

Lemma camera_register_requests_offers_witness :
  exists st' out,
    step rt0 (after rt0 one_monitor) (Message 2 (register_frame "camera") (noon + 1) rnd2)
      = Some st' /\
    outbox st' = (outbox (after rt0 one_monitor) ++ out)%list /\
    out = [(2, tagged "registered" "id" (generateId (noon + 1) rnd2));
           (2, tagged "request-offer" "monitorId" (generateId noon rnd1))] /\
    List.length (request_offers out) = 1 /\
    (forall monitor m,
       In monitor (with_role "monitor" (registry_of (after rt0 one_monitor))) ->
       In m out -> fst m <> ws monitor).
Proof.
  destruct (camera_register_requests_offers rt0 (after rt0 one_monitor) 2 None
              (JObj [("type", JStr "register"); ("role", JStr "camera")])
              (noon + 1) rnd2 1)
    as (st' & out & H1 & H2 & _ & H4 & H5 & _ & _ & H8).
  - reflexivity.
  - reflexivity.
  - reflexivity.
  - intros n E. injection E as <-. reflexivity.
  - intros old E. vm_compute in E. discriminate.
  - reflexivity.
  - exists st', out. split; [exact H1|]. split; [exact H2|]. split; [exact H4|].
    split; [exact H5|]. apply H8.
    intros monitor Hmon. vm_compute in Hmon. destruct Hmon as [<-|[]]. discriminate.
Defined.

(** C5 fails as stated.  An offer addressed to a registered monitor whose
    [fromId] is an object that cannot be printed is not forwarded: the log
    line of the offer case throws before the send, and the error is logged.
    An offer whose payload is a number too large to be finite is forwarded
    with the payload [null], and one whose payload is negative zero with
    the payload zero.  And an offer whose payload nests deeper than
    [JSON.stringify] can write, here 1001 arrays on an engine whose stack
    allows a thousand levels, is not forwarded: the [RangeError] is caught
    and logged. *)
Lemma routed_payload_not_always_carried :
  (exists st',
     map_get (generateId noon rnd1) (registry_of (after rt0 two_peers)) = Some monitor1 /\
     step rt0 (after rt0 two_peers)
       (Message 2 (Parsed (offer_from (generateId noon rnd1) (JStr "X") unprintable))
          (noon + 2) rnd1) = Some st' /\
     outbox st' = outbox (after rt0 two_peers) /\
     stderr st' = [TypeError])
  /\
  (exists st' fwd,
     step rt0 (after rt0 two_peers)
       (Message 2 (Parsed (offer_from (generateId noon rnd1) (JNum (S754_infinity false))
                             (JStr "cam")))
          (noon + 2) rnd1) = Some st' /\
     outbox st' = (outbox (after rt0 two_peers) ++ [(1, fwd)])%list /\
     get_prop fwd "offer" = inr (Some JNull) /\
     get_prop fwd "offer" <> inr (Some (JNum (S754_infinity false))))
  /\
  (exists st' fwd,
     step rt0 (after rt0 two_peers)
       (Message 2 (Parsed (offer_from (generateId noon rnd1) (JNum (S754_zero true))
                             (JStr "cam")))
          (noon + 2) rnd1) = Some st' /\
     outbox st' = (outbox (after rt0 two_peers) ++ [(1, fwd)])%list /\
     get_prop fwd "offer" = inr (Some (JNum (S754_zero false))) /\
     get_prop fwd "offer" <> inr (Some (JNum (S754_zero true))))
  /\
  (exists st',
     step rt0 (after rt0 two_peers)
       (Message 2 (Parsed (offer_from (generateId noon rnd1) (nest 1001 JNull) (JStr "cam")))
          (noon + 2) rnd1) = Some st' /\
     outbox st' = outbox (after rt0 two_peers) /\
     stderr st' = [RangeError]).
Proof.
  split; [|split; [|split]].
  - eexists. split; [vm_compute; reflexivity|]. split; [reflexivity|].
    split; vm_compute; reflexivity.
  - eexists. eexists. split; [reflexivity|].
    split; [vm_compute; reflexivity|]. split; [reflexivity | discriminate].
  - eexists. eexists. split; [reflexivity|].
    split; [vm_compute; reflexivity|]. split; [reflexivity | discriminate].
  - eexists. split; [reflexivity|]. split; vm_compute; reflexivity.
Qed.

Lemma routed_hit_forwards_once_witness :
  exists st' fwd,
    step rt0 (after rt0 two_peers)
      (Message 2 (Parsed (offer_to (generateId noon rnd1))) (noon + 2) rnd1) = Some st' /\
    outbox st' = (outbox (after rt0 two_peers) ++ [(1, fwd)])%list /\
    get_prop fwd "type" = inr (Some (JStr "offer")) /\
    get_prop fwd "offer" = inr (Some (JObj [("type", JStr "offer"); ("sdp", JStr "v=0")])) /\
    get_prop fwd "fromId" = inr (Some (JStr "cam")) /\
    get_prop fwd "cameraName" = inr (Some (JStr "Porch")) /\
    get_prop fwd "targetId" = inr None /\
    registry_of st' = registry_of (after rt0 two_peers).
Proof.
  destruct (routed_hit_forwards_once rt0 (after rt0 two_peers) 2
              (Some (generateId (noon + 1) rnd2)) Offer
              (offer_to (generateId noon rnd1)) (generateId noon rnd1) monitor1
              (noon + 2) rnd1)
    as (st' & fwd & H1 & H2 & H3 & H4 & H5 & H6 & H7 & _ & H9 & _).
  - reflexivity.
  - reflexivity.
  - reflexivity.
  - vm_compute. reflexivity.
  - intros _ f E. injection E as <-. reflexivity.
  - intros p v Hin E. simpl in Hin.
    destruct Hin as [<-|[<-|[<-|[]]]]; injection E as <-; reflexivity.
  - exists st', fwd. repeat split; try assumption. now apply H6.
Defined.

Lemma routed_miss_is_silent_witness :
  exists st',
    step rt0 (after rt0 two_peers) (Message 2 (Parsed (offer_to "nobody")) (noon + 2) rnd1)
      = Some st' /\
    outbox st' = outbox (after rt0 two_peers) /\
    registry_of st' = registry_of (after rt0 two_peers) /\
    sockets st' 2 = Some (Open (Some (generateId (noon + 1) rnd2))) /\
    same_sockets (after rt0 two_peers) st' /\
    stderr st' = stderr (after rt0 two_peers).
Proof.
  destruct (routed_miss_is_silent rt0 (after rt0 two_peers) 2
              (Some (generateId (noon + 1) rnd2))
              Offer (offer_to "nobody") (Some (JStr "nobody")) (noon + 2) rnd1)
    as (st' & H1 & H2 & H3 & H4 & H5 & _ & _ & H8).
  - reflexivity.
  - reflexivity.
  - reflexivity.
  - vm_compute. reflexivity.
  - exists st'. repeat split; try assumption. apply H8.
    + intros _ f E. injection E as <-. reflexivity.
    + reflexivity.
Defined.


Lemma close_unregistered_is_silent_witness :
  exists st',
    step rt0 (after rt0 one_camera) (Close 2) = Some st' /\
    outbox st' = outbox (after rt0 one_camera) /\
    registry_of st' = registry_of (after rt0 one_camera) /\
    stderr st' = stderr (after rt0 one_camera).
Proof.
  apply (close_unregistered_is_silent rt0 (rev one_camera) (after rt0 one_camera) 2 None).
  - apply run_reachable. vm_compute. reflexivity.
  - reflexivity.
  - reflexivity.
Defined.

Lemma unhandled_frame_is_ignored_witness :
  exists st',
    step rt0 (after rt0 two_peers) (Message 1 Malformed (noon + 2) rnd1) = Some st' /\
    outbox st' = outbox (after rt0 two_peers) /\
    registry_of st' = registry_of (after rt0 two_peers) /\
    sockets st' 1 = Some (Open (Some (generateId noon rnd1))) /\
    same_sockets (after rt0 two_peers) st' /\
    stderr st' = (stderr (after rt0 two_peers) ++ [SyntaxError])%list.
Proof.
  apply (unhandled_frame_is_ignored rt0 (after rt0 two_peers) 1
           (Some (generateId noon rnd1)) Malformed (noon + 2) rnd1).
  - reflexivity.
  - reflexivity.
Defined.

(** C10.  The claim is what the code sets out to do, and the code does it
    for every role that can be printed.  For the role [{"toString": null}]
    it does not: the [register] creates
    the entry and is answered with [registered] and nothing else (its own
    log line throws, and that error is caught and logged), but when
    the socket closes, the log line of the close listener throws before
    [clients.delete]: nothing is sent, the entry stays in the registry, and
    the exception leaves the listener. *)
Theorem unprintable_role_outlives_close :
  exists st1 st2,
    run rt0 init odd_registration = Some st1 /\
    outbox st1 =
      [(1, JObj [("type", JStr "registered"); ("id", JStr (generateId noon rnd1))])] /\
    stderr st1 = [TypeError] /\
    map_get (generateId noon rnd1) (registry_of st1) =
      Some (mkClient (generateId noon rnd1) (Some unprintable) (JStr "hall") 1) /\
    sockets st1 1 = Some (Open (Some (generateId noon rnd1))) /\
    step rt0 st1 (Close 1) = Some st2 /\
    outbox st2 = outbox st1 /\
    sockets st2 1 = Some Closed /\
    map_get (generateId noon rnd1) (registry_of st2) =
      Some (mkClient (generateId noon rnd1) (Some unprintable) (JStr "hall") 1) /\
    uncaught st2 = [TypeError].
Proof.
  eexists. eexists. split; [reflexivity|].
  split; [reflexivity|]. split; [reflexivity|].
  split; [vm_compute; reflexivity|]. split; [reflexivity|].
  split; [reflexivity|]. split; [reflexivity|]. split; [reflexivity|].
  split; vm_compute; reflexivity.
Qed.

(** * Instances of the further properties *)

Lemma register_always_answered_witness :
  exists st' client rest,
    step rt0 (after rt0 one_camera) (Message 2 (register_frame "monitor") (noon + 1) rnd2)
      = Some st' /\
    outbox st' =
      (outbox (after rt0 one_camera) ++
       (2, tagged "registered" "id" (generateId (noon + 1) rnd2)) :: rest)%list /\
    map_get (generateId (noon + 1) rnd2) (registry_of st') = Some client /\
    ws client = 2 /\
    stderr st' = stderr (after rt0 one_camera).
Proof.
  destruct (register_always_answered rt0 (after rt0 one_camera) 2 None
              (JObj [("type", JStr "register"); ("role", JStr "monitor")])
              (noon + 1) rnd2)
    as (st' & client & rest & H1 & H2 & _ & _ & H5 & H6 & _ & H8 & _ & H10 & _).
  - reflexivity.
  - reflexivity.
  - exists st', client, rest. repeat split; try assumption. apply H10.
    + simpl in H8. injection H8 as ->. reflexivity.
    + intros n E. injection E as <-. reflexivity.
Defined.

Lemma registered_name_defaults_witness :
  exists st' client,
    step rt0 (after rt0 [Connect 1]) (Message 1 (Parsed unnamed_camera) noon rnd1) = Some st' /\
    map_get (generateId noon rnd1) (registry_of st') = Some client /\
    name client = JStr "Unknown".
Proof.
  destruct (registered_name_defaults rt0 (after rt0 [Connect 1]) 1 None unnamed_camera
              noon rnd1 (Some (JStr "")))
    as (st' & client & H1 & H2 & _ & _ & H5).
  - reflexivity.
  - reflexivity.
  - reflexivity.
  - exists st', client. repeat split; try assumption. apply H5. reflexivity.
Defined.

Lemma routing_ignores_sender_witness :
  sent (run_handler
          (on_message rt0 2 (noon + 2) rnd1 (Parsed (offer_to (generateId noon rnd1))))
          (Some (generateId (noon + 1) rnd2)) (after rt0 two_peers)) =
  sent (run_handler
          (on_message rt0 7 (noon + 3) rnd2 (Parsed (offer_to (generateId noon rnd1))))
          None (after rt0 two_peers)).
Proof.
  apply (routing_ignores_sender rt0 (after rt0 two_peers) Offer
           (offer_to (generateId noon rnd1))).
  reflexivity.
Defined.

Lemma register_on_live_id_takes_over_witness :
  exists st' client,
    step rt0 (after rt0 one_camera) (Message 2 (register_frame "monitor") noon rnd1)
      = Some st' /\
    map_keys (registry_of st') = map_keys (registry_of (after rt0 one_camera)) /\
    map_get (generateId noon rnd1) (registry_of st') = Some client /\
    ws client = 2 /\
    exists st'' fwd,
      step rt0 st' (Message 1 (Parsed (offer_to (generateId noon rnd1))) (noon + 2) rnd2)
        = Some st'' /\
      outbox st'' = (outbox st' ++ [(2, fwd)])%list.
Proof.
  destruct (register_on_live_id_takes_over rt0 (after rt0 one_camera) 2 None
              (JObj [("type", JStr "register"); ("role", JStr "monitor")]) noon rnd1
              (mkClient (generateId noon rnd1) (Some (JStr "camera")) (JStr "Unknown") 1))
    as (st' & client & H1 & H2 & H3 & H4 & H5).
  - reflexivity.
  - reflexivity.
  - vm_compute. reflexivity.
  - exists st', client. repeat split; try assumption.
    apply (H5 Offer (offer_to (generateId noon rnd1)) 1 (Some (generateId noon rnd1))).
    + injection H1 as <-. reflexivity.
    + reflexivity.
    + reflexivity.
    + split.
      * intros _ f E. injection E as <-. reflexivity.
      * intros p v Hin E. simpl in Hin.
        destruct Hin as [<-|[<-|[<-|[]]]]; injection E as <-; reflexivity.
Defined.

Lemma generateId_shape_witness :
  value36 0 (substr 0 8 (generateId noon rnd1)) = noon /\
  String.length (generateId noon rnd1) = 8 + Nat.min 9 (String.length rnd1 - 2) /\
  8 <= String.length (generateId noon rnd1) <= 17.
Proof.
  apply (generateId_shape noon rnd1).
  unfold eight_digits. vm_compute. split; [discriminate | reflexivity].
Defined.

Lemma generateId_eq_iff_witness :
  generateId noon rnd1 = generateId noon "0.4fzyo82mvzzz" <->
  noon = noon /\ substr 2 9 rnd1 = substr 2 9 "0.4fzyo82mvzzz".
Proof.
  apply (generateId_eq_iff noon rnd1 noon "0.4fzyo82mvzzz");
    unfold eight_digits; vm_compute; (split; [discriminate | reflexivity]).
Defined.

Lemma sends_stay_within_registry_witness :
  exists out,
    outbox (after rt0 (two_peers ++ [Close 2])) =
      (outbox (after rt0 two_peers) ++ out)%list /\
    forall to m, In (to, m) out -> In to (channels (registry_of (after rt0 two_peers))).
Proof.
  apply (sends_stay_within_registry rt0 (after rt0 two_peers) (Close 2)
           (after rt0 (two_peers ++ [Close 2]))).
  vm_compute. reflexivity.
Defined.

Lemma outbox_has_seven_types_witness :
  has_outbound_type
    (2, tagged "monitor-disconnected" "monitorId" (generateId noon rnd1)).
Proof.
  apply (outbox_has_seven_types rt0 (rev session) (after rt0 session)).
  - apply run_reachable. vm_compute. reflexivity.
  - vm_compute. tauto.
Defined.

Lemma entry_changes_only_by_its_events_witness :
  (exists c data now rnd,
     Close 1 = Message c data now rnd /\ is_register data = true /\
     generateId noon rnd1 = generateId now rnd) \/
  (exists c, Close 1 = Close c /\
     sockets (after rt0 one_camera) c = Some (Open (Some (generateId noon rnd1)))).
Proof.
  apply (entry_changes_only_by_its_events rt0 (after rt0 one_camera) (Close 1)
           (after rt0 (one_camera ++ [Close 1])) (generateId noon rnd1)).
  - vm_compute. reflexivity.
  - vm_compute. discriminate.
Defined.

Lemma registry_entries_well_formed_witness :
  id monitor1 = generateId noon rnd1 /\
  generateId noon rnd1 <> "" /\
  (exists t s, In (t, s) (stamps (rev two_peers)) /\ generateId noon rnd1 = toString36 t ++ s) /\
  sockets (after rt0 two_peers) (ws monitor1) <> None.
Proof.
  apply (registry_entries_well_formed rt0 (rev two_peers) (after rt0 two_peers)
           (generateId noon rnd1) monitor1).
  - apply run_reachable. vm_compute. reflexivity.
  - vm_compute. reflexivity.
Defined.

Lemma registered_socket_has_its_entry_witness :
  exists client,
    map_get (generateId (noon + 1) rnd2) (registry_of (after rt0 two_peers)) = Some client /\
    ws client = 2 /\ id client = generateId (noon + 1) rnd2.
Proof.
  apply (registered_socket_has_its_entry rt0 (rev two_peers) (after rt0 two_peers) 2).
  - apply run_reachable_fresh; vm_compute; reflexivity.
  - reflexivity.
Defined.

Lemma single_registrations_keep_entries_open_witness :
  sockets (after rt0 two_peers) (ws camera2) =
    Some (Open (Some (generateId (noon + 1) rnd2))) /\
  forall kd msg c cid now rnd,
    sockets (after rt0 two_peers) c = Some (Open cid) ->
    is_kind kd msg ->
    get_prop msg "targetId" = inr (Some (JStr (generateId (noon + 1) rnd2))) ->
    forwardable rt0 kd msg ->
    exists st' fwd,
      step rt0 (after rt0 two_peers) (Message c (Parsed msg) now rnd) = Some st' /\
      outbox st' = (outbox (after rt0 two_peers) ++ [(ws camera2, fwd)])%list /\
      sockets st' (ws camera2) = Some (Open (Some (generateId (noon + 1) rnd2))).
Proof.
  apply (single_registrations_keep_entries_open rt0 (rev two_peers) (after rt0 two_peers)
           (generateId (noon + 1) rnd2) camera2).
  - apply run_reachable_clean; vm_compute; reflexivity.
  - intros c. destruct c as [|[|[|c]]]; vm_compute; lia.
  - vm_compute. reflexivity.
Defined.

Lemma stale_id_routes_to_closed_socket_witness :
  exists st' fwd,
    step rt0 (after rt0 camera_registers_twice)
      (Message 1 (Parsed (offer_to (generateId (noon + 1) rnd2))) (noon + 3) rnd1) = Some st' /\
    outbox st' = (outbox (after rt0 camera_registers_twice) ++ [(2, fwd)])%list /\
    sockets st' 2 = Some Closed.
Proof.
  apply (stale_id_routes_to_closed_socket rt0 (rev camera_registers_twice)
           (after rt0 camera_registers_twice) 2 (generateId (noon + 1) rnd2) 1
           (Some (generateId noon rnd1)) Offer).
  - apply run_reachable_clean; vm_compute; reflexivity.
  - reflexivity.
  - vm_compute. tauto.
  - vm_compute. discriminate.
  - reflexivity.
  - reflexivity.
  - reflexivity.
  - split.
    + intros _ f E. injection E as <-. reflexivity.
    + intros p v Hin E. simpl in Hin.
      destruct Hin as [<-|[<-|[<-|[]]]]; injection E as <-; reflexivity.
Defined.

Lemma reregistration_leaves_entries_witness :
  exists st',
    run rt0 init (Connect 1 :: messages_of 1 two_registrations ++ [Close 1]) = Some st' /\
    map_keys (registry_of st') =
      (map_keys (registry_of init) ++ removelast (ids_generated two_registrations))%list /\
    List.length (registry_of st') =
      List.length (registry_of init) + (List.length two_registrations - 1) /\
    sockets st' 1 = Some Closed.
Proof.
  apply (reregistration_leaves_entries rt0 init 1 two_registrations).
  - reflexivity.
  - repeat constructor.
  - repeat constructor.
  - vm_compute. repeat constructor; simpl; intuition discriminate.
Defined.

Lemma sockets_come_from_ws_upgrades_witness :
  (forall c, sockets (net_after rt0 net_session) c <> None ->
     In (Upgrade c (Some (JStr "/ws")) true) (rev net_session)) /\
  (forall k client, map_get k (registry_of (net_after rt0 net_session)) = Some client ->
     In (Upgrade (ws client) (Some (JStr "/ws")) true) (rev net_session)) /\
  (forall c url handshake, url <> Some (JStr "/ws") ->
     net_step rt0 (net_after rt0 net_session) (Upgrade c url handshake) =
     Some (net_after rt0 net_session)).
Proof.
  apply (sockets_come_from_ws_upgrades rt0 (rev net_session) (net_after rt0 net_session)).
  rewrite <- (app_nil_r (rev net_session)).
  apply (net_run_reaches rt0 [] init); [constructor | vm_compute; reflexivity].
Defined.

Lemma single_registrations_send_to_open_sockets_witness :
  exists out,
    outbox (after rt0 (two_peers ++ [Close 1])) =
      (outbox (after rt0 two_peers) ++ out)%list /\
    forall to m, In (to, m) out -> is_open (after rt0 two_peers) to /\ Close 1 <> Close to.
Proof.
  apply (single_registrations_send_to_open_sockets rt0 (rev two_peers) (after rt0 two_peers)).
  - apply run_reachable_clean; vm_compute; reflexivity.
  - intros c. destruct c as [|[|[|c]]]; vm_compute; lia.
  - vm_compute. reflexivity.
Defined.

Lemma clientId_tracks_latest_registration_witness :
  Some (generateId (noon + 1) rnd2) = hd_error (ids_of (rev two_peers) 2) /\
  (Some (generateId (noon + 1) rnd2) = None <-> ids_of (rev two_peers) 2 = []) /\
  truthy (js_of_id (Some (generateId (noon + 1) rnd2))) = true.
Proof.
  apply (clientId_tracks_latest_registration rt0 (rev two_peers) (after rt0 two_peers) 2).
  - apply run_reachable. vm_compute. reflexivity.
  - reflexivity.
Defined.

Lemma registered_replies_match_registrations_witness :
  List.map (fun m => (fst m, get_prop (snd m) "id"))
    (filter is_registered (outbox (after rt0 session))) =
  List.map (fun p => (fst p, inr (Some (JStr (snd p))))) (rev (registrations (rev session))).
Proof.
  apply (registered_replies_match_registrations rt0 (rev session) (after rt0 session)).
  apply run_reachable. vm_compute. reflexivity.
Defined.

Lemma register_then_close_restores_registry_witness :
  exists st1 st2 r,
    step rt0 (after rt0 one_monitor) (Message 2 (register_frame "camera") (noon + 1) rnd2)
      = Some st1 /\
    step rt0 st1 (Close 2) = Some st2 /\
    registry_of st2 = registry_of (after rt0 one_monitor) /\
    get_prop (JObj [("type", JStr "register"); ("role", JStr "camera")]) "role" = inr r /\
    outbox st2 =
      (outbox st1 ++
       close_sends (generateId (noon + 1) rnd2) r (registry_of (after rt0 one_monitor)))%list /\
    sockets st2 2 = Some Closed.
Proof.
  apply (register_then_close_restores_registry rt0 (after rt0 one_monitor) 2 None
           (JObj [("type", JStr "register"); ("role", JStr "camera")]) (noon + 1) rnd2).
  - reflexivity.
  - reflexivity.
  - intros r E. injection E as <-. reflexivity.
  - vm_compute. reflexivity.
Defined.

Lemma printable_odd_role_registers_witness :
  exists st' client,
    step rt0 (after rt0 [Connect 1]) (Message 1 (register_frame "spectator") noon rnd1)
      = Some st' /\
    map_get (generateId noon rnd1) (registry_of st') = Some client /\
    role client = Some (JStr "spectator") /\
    outbox st' = [(1, JObj [("type", JStr "registered"); ("id", JStr (generateId noon rnd1))])] /\
    exists st3,
      step rt0 st' (Close 1) = Some st3 /\
      outbox st3 = outbox st' /\
      map_get (generateId noon rnd1) (registry_of st3) = None.
Proof.
  destruct (printable_odd_role_registers rt0 (after rt0 [Connect 1]) 1 None
              (JObj [("type", JStr "register"); ("role", JStr "spectator")])
              (Some (JStr "spectator")) noon rnd1)
    as (st' & client & H1 & H2 & H3 & _ & _ & H6 & H7 & H8).
  - reflexivity.
  - reflexivity.
  - reflexivity.
  - discriminate.
  - discriminate.
  - reflexivity.
  - exists st', client. repeat split; try assumption.
    destruct (H8 st' client H7 H2 H3) as (st3 & K1 & K2 & _ & K4 & _).
    exists st3. repeat split; assumption.
Defined.

Lemma unprintable_role_blocks_close_witness :
  exists st',
    step rt0 (after rt0 odd_registration) (Close 1) = Some st' /\
    outbox st' = outbox (after rt0 odd_registration) /\
    registry_of st' = registry_of (after rt0 odd_registration) /\
    sockets st' 1 = Some Closed /\
    stderr st' = stderr (after rt0 odd_registration) /\
    uncaught st' = (uncaught (after rt0 odd_registration) ++ [TypeError])%list.
Proof.
  apply (unprintable_role_blocks_close rt0 (rev odd_registration)
           (after rt0 odd_registration) 1 (generateId noon rnd1)
           (mkClient (generateId noon rnd1) (Some unprintable) (JStr "hall") 1)).
  - apply run_reachable. vm_compute. reflexivity.
  - reflexivity.
  - vm_compute. reflexivity.
  - reflexivity.
Defined.
